(** * minikeyvalue master server: placement, addressing and request handling

    A shallow embedding of [lib.go] and [server.go].

    - Go's [[]byte] is [list byte], Go's [string] is [string]; the
      conversions [[]byte(s)] and [string(b)] are written out.
    - [crypto/md5] and [encoding/base64] belong to Go's standard library;
      they are modelled after RFC 1321 and RFC 4648 (the standard
      alphabet with padding) so that the embedding runs on concrete keys.
    - [ServeHTTP] is a program over the atomic operations of the handler
      (lock table, metadata store, backend calls, response writes).  One
      interpreter runs a request alone; a second one interleaves the
      atomic operations of several requests. *)

From Stdlib Require Import ZArith Lia List Bool Permutation.
From Stdlib.Strings Require Import Ascii String Byte.
From stdpp Require Import gmap strings list fin_maps sorting.
Import ListNotations.

Local Open Scope Z_scope.

(** ** Bytes *)

Definition byte2Z (b : byte) : Z := Z.of_N (Byte.to_N b).

Definition Z2byte (z : Z) : byte :=
  match Byte.of_N (Z.to_N (Z.land z 255)) with
  | Some b => b
  | None => x00
  end.

(** [[]byte(s)] and [string(b)]. *)
Definition bytes_of_string (s : string) : list byte := list_byte_of_string s.
Definition string_of_bytes (b : list byte) : string := string_of_list_byte b.

(** [bytes.Compare]: lexicographic order on unsigned bytes, a shorter
    prefix sorting first; the result is -1, 0 or 1. *)
Fixpoint bytes_Compare (a b : list byte) : Z :=
  match a, b with
  | [], [] => 0
  | [], _ :: _ => -1
  | _ :: _, [] => 1
  | x :: a', y :: b' =>
      if byte2Z x <? byte2Z y then -1
      else if byte2Z y <? byte2Z x then 1
      else bytes_Compare a' b'
  end.

(** ** crypto/md5 (RFC 1321) *)

Module MD5.

Definition mask32 : Z := 0xFFFFFFFF.
Definition add32 (x y : Z) : Z := Z.land (x + y) mask32.
Definition not32 (x : Z) : Z := Z.lxor x mask32.
Definition rotl32 (x s : Z) : Z :=
  Z.land (Z.lor (Z.shiftl x s) (Z.shiftr x (32 - s))) mask32.

Definition shifts : list Z :=
  [7; 12; 17; 22; 7; 12; 17; 22; 7; 12; 17; 22; 7; 12; 17; 22;
   5; 9; 14; 20; 5; 9; 14; 20; 5; 9; 14; 20; 5; 9; 14; 20;
   4; 11; 16; 23; 4; 11; 16; 23; 4; 11; 16; 23; 4; 11; 16; 23;
   6; 10; 15; 21; 6; 10; 15; 21; 6; 10; 15; 21; 6; 10; 15; 21].

Definition sines : list Z :=
  [0xd76aa478; 0xe8c7b756; 0x242070db; 0xc1bdceee;
   0xf57c0faf; 0x4787c62a; 0xa8304613; 0xfd469501;
   0x698098d8; 0x8b44f7af; 0xffff5bb1; 0x895cd7be;
   0x6b901122; 0xfd987193; 0xa679438e; 0x49b40821;
   0xf61e2562; 0xc040b340; 0x265e5a51; 0xe9b6c7aa;
   0xd62f105d; 0x02441453; 0xd8a1e681; 0xe7d3fbc8;
   0x21e1cde6; 0xc33707d6; 0xf4d50d87; 0x455a14ed;
   0xa9e3e905; 0xfcefa3f8; 0x676f02d9; 0x8d2a4c8a;
   0xfffa3942; 0x8771f681; 0x6d9d6122; 0xfde5380c;
   0xa4beea44; 0x4bdecfa9; 0xf6bb4b60; 0xbebfbc70;
   0x289b7ec6; 0xeaa127fa; 0xd4ef3085; 0x04881d05;
   0xd9d4d039; 0xe6db99e5; 0x1fa27cf8; 0xc4ac5665;
   0xf4292244; 0x432aff97; 0xab9423a7; 0xfc93a039;
   0x655b59c3; 0x8f0ccc92; 0xffeff47d; 0x85845dd1;
   0x6fa87e4f; 0xfe2ce6e0; 0xa3014314; 0x4e0811a1;
   0xf7537e82; 0xbd3af235; 0x2ad7d2bb; 0xeb86d391].

Record regs := Regs { rA : Z; rB : Z; rC : Z; rD : Z }.

Definition init : regs :=
  Regs 0x67452301 0xefcdab89 0x98badcfe 0x10325476.

(** Little-endian 32-bit word from four bytes, and back. *)
Definition word_le (b0 b1 b2 b3 : byte) : Z :=
  Z.lor (byte2Z b0)
    (Z.lor (Z.shiftl (byte2Z b1) 8)
       (Z.lor (Z.shiftl (byte2Z b2) 16) (Z.shiftl (byte2Z b3) 24))).

Definition bytes_le (n : nat) (w : Z) : list byte :=
  map (fun i => Z2byte (Z.shiftr w (8 * Z.of_nat i))) (seq 0 n).

Fixpoint words (bs : list byte) : list Z :=
  match bs with
  | b0 :: b1 :: b2 :: b3 :: rest => word_le b0 b1 b2 b3 :: words rest
  | _ => []
  end.

(** The message followed by 0x80, zero bytes up to 56 modulo 64, and
    the bit length as a 64-bit little-endian integer. *)
Definition pad (msg : list byte) : list byte :=
  let len := Z.of_nat (length msg) in
  let zeros := Z.to_nat ((55 - len) mod 64) in
  msg ++ [x80] ++ repeat x00 zeros ++ bytes_le 8 (Z.land (8 * len) 0xFFFFFFFFFFFFFFFF).

Definition step (m : list Z) (r : regs) (i : nat) : regs :=
  let '(Regs a b c d) := r in
  let iz := Z.of_nat i in
  let '(f, g) :=
    if iz <? 16 then (Z.lor (Z.land b c) (Z.land (not32 b) d), iz)
    else if iz <? 32 then (Z.lor (Z.land d b) (Z.land (not32 d) c), (5 * iz + 1) mod 16)
    else if iz <? 48 then (Z.lxor (Z.lxor b c) d, (3 * iz + 5) mod 16)
    else (Z.lxor c (Z.lor b (not32 d)), (7 * iz) mod 16) in
  let f' := add32 (add32 (add32 f a) (nth i sines 0)) (nth (Z.to_nat g) m 0) in
  Regs d (add32 b (rotl32 f' (nth i shifts 0))) b c.

Definition block (r : regs) (chunk : list byte) : regs :=
  let r' := fold_left (step (words chunk)) (seq 0 64) r in
  Regs (add32 (rA r) (rA r')) (add32 (rB r) (rB r'))
       (add32 (rC r) (rC r')) (add32 (rD r) (rD r')).

Fixpoint blocks (n : nat) (r : regs) (bs : list byte) : regs :=
  match n with
  | O => r
  | S n' => blocks n' (block r (firstn 64 bs)) (skipn 64 bs)
  end.

(** [md5.Sum]: the 16-byte digest. *)
Definition Sum (msg : list byte) : list byte :=
  let p := pad msg in
  let r := blocks (length p / 64)%nat init p in
  bytes_le 4 (rA r) ++ bytes_le 4 (rB r) ++ bytes_le 4 (rC r) ++ bytes_le 4 (rD r).

End MD5.

(** ** fmt's [%02x] on a byte *)

Definition hexdigit (n : Z) : ascii :=
  match String.get (Z.to_nat n) "0123456789abcdef" with
  | Some c => c
  | None => "0"%char
  end.

Definition hex02 (b : byte) : string :=
  String (hexdigit (Z.shiftr (byte2Z b) 4))
    (String (hexdigit (Z.land (byte2Z b) 15)) EmptyString).

Definition hex (bs : list byte) : string :=
  fold_right (fun b s => String.append (hex02 b) s) EmptyString bs.

(** ** encoding/base64, [StdEncoding] (RFC 4648, section 4) *)

Module Base64.

Definition encodeStd : string :=
  "ABCDEFGHIJKLMNOPQRSTUVWXYZabcdefghijklmnopqrstuvwxyz0123456789+/".

Definition padChar : ascii := "="%char.

(** [enc.encode[i]] *)
Definition enc (i : Z) : ascii :=
  match String.get (Z.to_nat i) encodeStd with
  | Some c => c
  | None => padChar
  end.

(** [val := uint(src[0])<<16 | uint(src[1])<<8 | uint(src[2])] *)
Definition pack (a b c : Z) : Z :=
  Z.lor (Z.lor (Z.shiftl a 16) (Z.shiftl b 8)) c.

Definition sextet (val : Z) (sh : Z) : Z := Z.land (Z.shiftr val sh) 0x3F.

(** [EncodeToString]: full groups of three bytes give four characters;
    a remainder of one or two bytes gives two or three characters
    followed by padding. *)
Fixpoint EncodeToString (src : list byte) : string :=
  match src with
  | [] => EmptyString
  | [a] =>
      let val := Z.shiftl (byte2Z a) 16 in
      String (enc (sextet val 18)) (String (enc (sextet val 12))
        (String padChar (String padChar EmptyString)))
  | [a; b] =>
      let val := Z.lor (Z.shiftl (byte2Z a) 16) (Z.shiftl (byte2Z b) 8) in
      String (enc (sextet val 18)) (String (enc (sextet val 12))
        (String (enc (sextet val 6)) (String padChar EmptyString)))
  | a :: b :: c :: rest =>
      let val := pack (byte2Z a) (byte2Z b) (byte2Z c) in
      String (enc (sextet val 18)) (String (enc (sextet val 12))
        (String (enc (sextet val 6)) (String (enc (sextet val 0))
          (EncodeToString rest))))
  end.

(** The decoding map of the alphabet: the index of a character, or
    [None] for a character outside it (the padding character too). *)
Fixpoint index_from (c : ascii) (s : string) (i : Z) : option Z :=
  match s with
  | EmptyString => None
  | String d s' => if Ascii.eqb c d then Some i else index_from c s' (i + 1)
  end.

Definition dec (c : ascii) : option Z := index_from c encodeStd 0.

(** [val := dbuf[0]<<18 | dbuf[1]<<12 | dbuf[2]<<6 | dbuf[3]] *)
Definition unpack (s0 s1 s2 s3 : Z) : Z :=
  Z.lor (Z.lor (Z.lor (Z.shiftl s0 18) (Z.shiftl s1 12)) (Z.shiftl s2 6)) s3.

(** Strict decoding of padded standard base64: quanta of four
    characters, padding only in the last one. *)
Fixpoint DecodeString (s : string) : option (list byte) :=
  match s with
  | EmptyString => Some []
  | String c0 (String c1 (String c2 (String c3 rest))) =>
      match dec c0, dec c1, dec c2, dec c3 with
      | Some s0, Some s1, Some s2, Some s3 =>
          let val := unpack s0 s1 s2 s3 in
          match DecodeString rest with
          | Some tl =>
              Some (Z2byte (Z.shiftr val 16) :: Z2byte (Z.shiftr val 8) :: Z2byte val :: tl)
          | None => None
          end
      | Some s0, Some s1, Some s2, None =>
          let val := unpack s0 s1 s2 0 in
          if Ascii.eqb c3 padChar && String.eqb rest EmptyString
          then Some [Z2byte (Z.shiftr val 16); Z2byte (Z.shiftr val 8)]
          else None
      | Some s0, Some s1, None, None =>
          let val := unpack s0 s1 0 0 in
          if Ascii.eqb c2 padChar && Ascii.eqb c3 padChar && String.eqb rest EmptyString
          then Some [Z2byte (Z.shiftr val 16)]
          else None
      | _, _, _, _ => None
      end
  | _ => None
  end.

End Base64.

(** ** lib.go: hash functions *)

(** [fmt.Sprintf("/%02x/%02x/%s", mkey[0], mkey[1], b64key)] *)
Definition key2path (key : list byte) : string :=
  let mkey := MD5.Sum key in
  let b64key := Base64.EncodeToString key in
  ("/" ++ hex02 (nth 0 mkey x00) ++ "/" ++ hex02 (nth 1 mkey x00) ++ "/" ++ b64key)%string.

(** The score of a volume: [hash.Write(key); hash.Write([]byte(v));
    hash.Sum(nil)], the digest of the key followed by the volume name. *)
Definition score (key : list byte) (v : string) : list byte :=
  MD5.Sum (key ++ bytes_of_string v).

(** The score [a] is not below the score [b]. *)
Definition score_ge (a b : list byte) : Prop := bytes_Compare a b <> -1.

(** One iteration of the loop of [key2volume] on the pair
    [(bestScore, ret)]; a nil [bestScore] is [None]. *)
Definition key2volume_step (key : list byte)
    (st : option (list byte) * string) (v : string) : option (list byte) * string :=
  let '(bestScore, ret) := st in
  let sc := score key v in
  match bestScore with
  | None => (Some sc, v)
  | Some best =>
      if bytes_Compare best sc =? -1 then (Some sc, v) else (bestScore, ret)
  end.

Definition key2volume (key : list byte) (volumes : list string) : string :=
  snd (fold_left (key2volume_step key) volumes (None, EmptyString)).

(** ** server.go: the master server *)

#[global] Instance byte_eq_dec : EqDecision byte := Byte.byte_eq_dec.
#[global] Program Instance byte_countable : Countable byte :=
  inj_countable (fun b => Byte.to_N b) (fun n => Byte.of_N n) _.
Next Obligation. intros b. apply Byte.of_to_N. Qed.

(** [App]: the metadata store [db] (a key-value map, LevelDB), the lock
    table [lock] (a [map[string]struct{}] used as a set) and the backend
    pool [volumes].  The mutex [mlock] makes [LockKey] and [UnlockKey]
    atomic; they are single steps of the model. *)
Record App := mkApp {
  db : gmap (list byte) (list byte);
  lock : gset string;
  volumes : list string
}.

Definition UnlockKey (a : App) (key : list byte) : App :=
  mkApp (db a) (lock a ∖ {[ string_of_bytes key ]}) (volumes a).

Definition LockKey (a : App) (key : list byte) : bool * App :=
  if decide (string_of_bytes key ∈ lock a) then (false, a)
  else (true, mkApp (db a) ({[ string_of_bytes key ]} ∪ lock a) (volumes a)).

(** The fields of [http.Request] the handler reads. *)
Record Request := mkRequest {
  Method : string;
  Path : string;
  RawQuery : string;
  ContentLength : Z;
  Body : list byte
}.

(** Errors of the metadata store: [leveldb.ErrNotFound] or any other. *)
Inductive db_error := ErrNotFound | ErrOther.

(** The atomic operations of a handler, indexed by what they return.
    [EHttp] is one exchange with a backend: [None] when building or
    sending the request fails, else the status code and the body. *)
Inductive eff : Type -> Type :=
| ELockKey (key : list byte) : eff bool
| EUnlockKey (key : list byte) : eff unit
| EDbGet (key : list byte) : eff (list byte * option db_error)
| EDbPut (key value : list byte) : eff (option db_error)
| EDbDelete (key : list byte) : eff (option db_error)
| EDbIter (prefix : list byte) : eff (list (list byte))
| EHttp (method remote : string) (length : option Z) (body : list byte)
    : eff (option (Z * list byte))
| EJsonMarshal (keys : list string) : eff (option (list byte))
| EPrintln (line : string) : eff unit
| EHeaderSet (name value : string) : eff unit
| EWriteHeader (code : Z) : eff unit
| EWrite (body : list byte) : eff unit.

Inductive prog (R : Type) : Type :=
| Ret (r : R)
| Vis {X : Type} (e : eff X) (k : X -> prog R).
Arguments Ret {R} r.
Arguments Vis {R X} e k.

Fixpoint bind {R S : Type} (p : prog R) (f : R -> prog S) : prog S :=
  match p with
  | Ret r => f r
  | Vis e k => Vis e (fun x => bind (k x) f)
  end.

Definition call {X : Type} (e : eff X) : prog X := Vis e Ret.

Declare Scope prog_scope.
Delimit Scope prog_scope with prog.
Notation "x <- p ;; q" := (bind p (fun x => q))
  (at level 100, p at next level, right associativity) : prog_scope.
Notation "p ;; q" := (bind p (fun _ => q))
  (at level 100, right associativity) : prog_scope.
Local Open Scope prog_scope.

(** *** lib.go: remote access functions; the result is the [error],
    [None] for nil. *)

Definition remote_delete (remote : string) : prog (option string) :=
  resp <- call (EHttp "DELETE" remote None []) ;;
  match resp with
  | None => Ret (Some "transport"%string)
  | Some (code, _) =>
      if negb (code =? 204) then Ret (Some "remote_delete: wrong status code"%string)
      else Ret None
  end.

Definition remote_put (remote : string) (length : Z) (body : list byte)
    : prog (option string) :=
  resp <- call (EHttp "PUT" remote (Some length) body) ;;
  match resp with
  | None => Ret (Some "transport"%string)
  | Some (code, _) =>
      if negb (code =? 201) && negb (code =? 204)
      then Ret (Some "remote_put: wrong status code"%string)
      else Ret None
  end.

Definition remote_get (remote : string) : prog (string * option string) :=
  resp <- call (EHttp "GET" remote None []) ;;
  match resp with
  | None => Ret (EmptyString, Some "transport"%string)
  | Some (code, body) =>
      if negb (code =? 200)
      then Ret (EmptyString, Some "remote_get: wrong status code"%string)
      else Ret (string_of_bytes body, None)
  end.

(** [fmt.Sprintf("http://%s%s", volume, key2path(key))] *)
Definition remote_url (volume : string) (key : list byte) : string :=
  ("http://" ++ volume ++ key2path key)%string.

(** *** ListQueryHandler *)

(** The loop over the iterator: the keys are appended one by one and the
    request is given up as soon as more than 1000000 are held. *)
Fixpoint collect_keys (it : list (list byte)) (keys : list string) : option (list string) :=
  match it with
  | [] => Some keys
  | k :: it' =>
      let keys' := keys ++ [string_of_bytes k] in
      if 1000000 <? Z.of_nat (length keys') then None else collect_keys it' keys'
  end.

Definition ListQueryHandler (key : list byte) (r : Request) : prog unit :=
  if String.eqb (RawQuery r) "list" then
    it <- call (EDbIter key) ;;
    match collect_keys it [] with
    | None => call (EWriteHeader 413)
    | Some keys =>
        str <- call (EJsonMarshal keys) ;;
        match str with
        | None => call (EWriteHeader 500)
        | Some js =>
            call (EHeaderSet "Content-Type" "application/json") ;;
            call (EWriteHeader 200) ;;
            call (EWrite js)
        end
    end
  else call (EWriteHeader 403).

(** *** ServeHTTP: the three cases of the switch *)

Definition serve_GET (vols : list string) (key : list byte) : prog unit :=
  res <- call (EDbGet key) ;;
  let '(kvolume, err) := res in
  match err with
  | Some ErrNotFound =>
      call (EHeaderSet "Content-Length" "0") ;;
      call (EWriteHeader 404)
  | _ =>
      let volume := string_of_bytes kvolume in
      (if negb (String.eqb volume (key2volume key vols))
       then call (EPrintln "on wrong volume, needs rebalance")
       else Ret tt) ;;
      let remote := remote_url volume key in
      call (EHeaderSet "Location" remote) ;;
      call (EHeaderSet "Content-Length" "0") ;;
      call (EWriteHeader 302)
  end.

Definition serve_PUT (vols : list string) (key : list byte) (r : Request) : prog unit :=
  if ContentLength r =? 0 then call (EWriteHeader 411)
  else
    res <- call (EDbGet key) ;;
    let '(_, err) := res in
    match err with
    | Some ErrNotFound =>
        let kvolume := key2volume key vols in
        let remote := remote_url kvolume key in
        perr <- remote_put remote (ContentLength r) (Body r) ;;
        match perr with
        | Some _ => call (EWriteHeader 500)
        | None =>
            derr <- call (EDbPut key (bytes_of_string kvolume)) ;;
            match derr with
            | Some _ => call (EWriteHeader 500)
            | None => call (EWriteHeader 201)
            end
        end
    | _ => call (EWriteHeader 403)
    end.

Definition serve_DELETE (key : list byte) : prog unit :=
  res <- call (EDbGet key) ;;
  let '(data, err) := res in
  match err with
  | Some ErrNotFound => call (EWriteHeader 404)
  | _ =>
      call (EDbDelete key) ;;
      let remote := remote_url (string_of_bytes data) key in
      rerr <- remote_delete remote ;;
      match rerr with
      | Some _ => call (EWriteHeader 500)
      | None => call (EWriteHeader 204)
      end
  end.

Definition serve_switch (vols : list string) (key : list byte) (r : Request) : prog unit :=
  if String.eqb (Method r) "GET" || String.eqb (Method r) "HEAD" then serve_GET vols key
  else if String.eqb (Method r) "PUT" then serve_PUT vols key r
  else if String.eqb (Method r) "DELETE" then serve_DELETE key
  else Ret tt.

(** [ServeHTTP]; [vols] is [a.volumes].  The deferred [UnlockKey] runs
    when the switch is left, on every path. *)
Definition ServeHTTP (vols : list string) (r : Request) : prog unit :=
  let key := bytes_of_string (Path r) in
  if (0 <? String.length (RawQuery r))%nat then
    if negb (String.eqb (Method r) "GET") then call (EWriteHeader 403)
    else ListQueryHandler key r
  else if String.eqb (Method r) "PUT" || String.eqb (Method r) "DELETE" then
    ok <- call (ELockKey key) ;;
    if negb ok then call (EWriteHeader 409)
    else (serve_switch vols key r ;; call (EUnlockKey key))
  else serve_switch vols key r.

(** ** Running a request *)

(** What the world outside the handler answers during one request: whether
    a metadata-store call fails with an error other than not-found, the
    outcome of the exchange with the backend, and [json.Marshal]. *)
Record env := mkEnv {
  get_fault : bool;
  put_fault : bool;
  delete_fault : bool;
  backend : option (Z * list byte);
  json_Marshal : list string -> option (list byte)
}.

Fixpoint has_prefix (p b : list byte) : bool :=
  match p, b with
  | [], _ => true
  | _ :: _, [] => false
  | x :: p', y :: b' => Byte.eqb x y && has_prefix p' b'
  end.

(** The keys of the store that start with [prefix], in bytewise order. *)
Definition iter_keys (m : gmap (list byte) (list byte)) (prefix : list byte)
    : list (list byte) :=
  merge_sort (fun x y => bytes_Compare x y ≠ 1)
    (List.filter (has_prefix prefix) (map fst (map_to_list m))).

Definition handle (w : env) (a : App) {X : Type} (e : eff X) : X * App :=
  match e in eff T return T * App with
  | ELockKey key => LockKey a key
  | EUnlockKey key => (tt, UnlockKey a key)
  | EDbGet key =>
      if get_fault w then (([], Some ErrOther), a)
      else match db a !! key with
           | Some v => ((v, None), a)
           | None => (([], Some ErrNotFound), a)
           end
  | EDbPut key value =>
      if put_fault w then (Some ErrOther, a)
      else (None, mkApp (<[key := value]> (db a)) (lock a) (volumes a))
  | EDbDelete key =>
      if delete_fault w then (Some ErrOther, a)
      else (None, mkApp (delete key (db a)) (lock a) (volumes a))
  | EDbIter prefix => (iter_keys (db a) prefix, a)
  | EHttp _ _ _ _ => (backend w, a)
  | EJsonMarshal keys => (json_Marshal w keys, a)
  | EPrintln _ => (tt, a)
  | EHeaderSet _ _ => (tt, a)
  | EWriteHeader _ => (tt, a)
  | EWrite _ => (tt, a)
  end.

(** An operation together with what it returned. *)
Inductive event : Type :=
| Ev {X : Type} (e : eff X) (x : X).

Fixpoint run {R : Type} (w : env) (p : prog R) (a : App) : R * App * list event :=
  match p with
  | Ret r => (r, a, [])
  | Vis e k =>
      let '(x, a') := handle w a e in
      let '(r, a'', tr) := run w (k x) a' in
      (r, a'', Ev e x :: tr)
  end.

(** One request served alone: the state left behind and the trace. *)
Definition serve (a : App) (w : env) (r : Request) : App * list event :=
  let '(_, a', tr) := run w (ServeHTTP (volumes a) r) a in (a', tr).

(** *** The response, read off the trace *)

(** The status code: the first [WriteHeader]; 200 when the handler
    writes a body first or returns without writing. *)
Fixpoint status_of (tr : list event) : Z :=
  match tr with
  | [] => 200
  | Ev e _ :: tr' =>
      match e with
      | EWriteHeader code => code
      | EWrite _ => 200
      | _ => status_of tr'
      end
  end.

(** The headers sent: those set before the status line is written. *)
Fixpoint headers_from (tr : list event) (h : gmap string string) : gmap string string :=
  match tr with
  | [] => h
  | Ev e _ :: tr' =>
      match e with
      | EHeaderSet name value => headers_from tr' (<[name := value]> h)
      | EWriteHeader _ => h
      | EWrite _ => h
      | _ => headers_from tr' h
      end
  end.

Definition headers_of (tr : list event) : gmap string string := headers_from tr ∅.

(** The lines printed, and the backend requests issued (method, URL). *)
Fixpoint log_of (tr : list event) : list string :=
  match tr with
  | [] => []
  | Ev e _ :: tr' =>
      match e with
      | EPrintln line => line :: log_of tr'
      | _ => log_of tr'
      end
  end.

Fixpoint backend_calls (tr : list event) : list (string * string) :=
  match tr with
  | [] => []
  | Ev e _ :: tr' =>
      match e with
      | EHttp method remote _ _ => (method, remote) :: backend_calls tr'
      | _ => backend_calls tr'
      end
  end.

(** ** Reading a path back: [strings.Split] on one character, and the
    value of two lower-case hexadecimal digits *)

Fixpoint split_on (sep : ascii) (s : string) : list string :=
  match s with
  | EmptyString => [EmptyString]
  | String c s' =>
      if Ascii.eqb c sep then EmptyString :: split_on sep s'
      else match split_on sep s' with
           | seg :: segs => String c seg :: segs
           | [] => [String c EmptyString]
           end
  end.

Fixpoint has_char (c : ascii) (s : string) : bool :=
  match s with
  | EmptyString => false
  | String d s' => Ascii.eqb d c || has_char c s'
  end.

Definition hex_value (c : ascii) : option Z :=
  Base64.index_from c "0123456789abcdef" 0.

Definition unhex02 (s : string) : option byte :=
  match s with
  | String hi (String lo EmptyString) =>
      match hex_value hi, hex_value lo with
      | Some h, Some l => Some (Z2byte (16 * h + l))
      | _, _ => None
      end
  | _ => None
  end.

(** ** Two pool members with the same score

    The two 128-byte messages of Wang and Yu (2005) have the same MD5
    digest and share their first 19 bytes: that prefix is the key, the
    two remainders are the names of two backends. *)

Definition collision_key : list byte :=
  map Z2byte
   [0xd1; 0x31; 0xdd; 0x02; 0xc5; 0xe6; 0xee; 0xc4; 0x69; 0x3d; 0x9a; 0x06;
    0x98; 0xaf; 0xf9; 0x5c; 0x2f; 0xca; 0xb5].

Definition collision_volume1 : string :=
  string_of_bytes (map Z2byte
   [0x87; 0x12; 0x46; 0x7e; 0xab; 0x40; 0x04; 0x58; 0x3e; 0xb8; 0xfb; 0x7f;
    0x89; 0x55; 0xad; 0x34; 0x06; 0x09; 0xf4; 0xb3; 0x02; 0x83; 0xe4; 0x88;
    0x83; 0x25; 0x71; 0x41; 0x5a; 0x08; 0x51; 0x25; 0xe8; 0xf7; 0xcd; 0xc9;
    0x9f; 0xd9; 0x1d; 0xbd; 0xf2; 0x80; 0x37; 0x3c; 0x5b; 0xd8; 0x82; 0x3e;
    0x31; 0x56; 0x34; 0x8f; 0x5b; 0xae; 0x6d; 0xac; 0xd4; 0x36; 0xc9; 0x19;
    0xc6; 0xdd; 0x53; 0xe2; 0xb4; 0x87; 0xda; 0x03; 0xfd; 0x02; 0x39; 0x63;
    0x06; 0xd2; 0x48; 0xcd; 0xa0; 0xe9; 0x9f; 0x33; 0x42; 0x0f; 0x57; 0x7e;
    0xe8; 0xce; 0x54; 0xb6; 0x70; 0x80; 0xa8; 0x0d; 0x1e; 0xc6; 0x98; 0x21;
    0xbc; 0xb6; 0xa8; 0x83; 0x93; 0x96; 0xf9; 0x65; 0x2b; 0x6f; 0xf7; 0x2a;
    0x70]).

Definition collision_volume2 : string :=
  string_of_bytes (map Z2byte
   [0x07; 0x12; 0x46; 0x7e; 0xab; 0x40; 0x04; 0x58; 0x3e; 0xb8; 0xfb; 0x7f;
    0x89; 0x55; 0xad; 0x34; 0x06; 0x09; 0xf4; 0xb3; 0x02; 0x83; 0xe4; 0x88;
    0x83; 0x25; 0xf1; 0x41; 0x5a; 0x08; 0x51; 0x25; 0xe8; 0xf7; 0xcd; 0xc9;
    0x9f; 0xd9; 0x1d; 0xbd; 0x72; 0x80; 0x37; 0x3c; 0x5b; 0xd8; 0x82; 0x3e;
    0x31; 0x56; 0x34; 0x8f; 0x5b; 0xae; 0x6d; 0xac; 0xd4; 0x36; 0xc9; 0x19;
    0xc6; 0xdd; 0x53; 0xe2; 0x34; 0x87; 0xda; 0x03; 0xfd; 0x02; 0x39; 0x63;
    0x06; 0xd2; 0x48; 0xcd; 0xa0; 0xe9; 0x9f; 0x33; 0x42; 0x0f; 0x57; 0x7e;
    0xe8; 0xce; 0x54; 0xb6; 0x70; 0x80; 0x28; 0x0d; 0x1e; 0xc6; 0x98; 0x21;
    0xbc; 0xb6; 0xa8; 0x83; 0x93; 0x96; 0xf9; 0x65; 0xab; 0x6f; 0xf7; 0x2a;
    0x70]).

(** ** Requests in flight together

    Each request is a thread: its environment, the code it has left to
    run and the trace of what it did.  A step runs the next atomic
    operation of one thread on the shared [App]. *)

Record thread := mkThread {
  t_env : env;
  t_code : prog unit;
  t_trace : list event
}.

Definition step_thread (i : nat) (c : App * list thread) : option (App * list thread) :=
  let '(a, ths) := c in
  match ths !! i with
  | Some th =>
      match t_code th with
      | Ret _ => None
      | Vis e k =>
          let '(x, a') := handle (t_env th) a e in
          Some (a', <[i := mkThread (t_env th) (k x) (t_trace th ++ [Ev e x])]> ths)
      end
  | None => None
  end.

Definition cstep (c c' : App * list thread) : Prop :=
  exists i, step_thread i c = Some c'.

(** The threads named by a schedule take one step each, in order. *)
Fixpoint run_schedule (sched : list nat) (c : App * list thread)
    : option (App * list thread) :=
  match sched with
  | [] => Some c
  | i :: sched' =>
      match step_thread i c with
      | Some c' => run_schedule sched' c'
      | None => None
      end
  end.

Definition spawn (vols : list string) (wr : env * Request) : thread :=
  mkThread (fst wr) (ServeHTTP vols (snd wr)) [].

(** All requests have arrived and none has run yet. *)
Definition start (a : App) (reqs : list (env * Request)) : App * list thread :=
  (a, map (spawn (volumes a)) reqs).

Definition finished (th : thread) : bool :=
  match t_code th with
  | Ret _ => true
  | Vis _ _ => false
  end.

(** For each thread, whether it has finished and the status it answers. *)
Definition outcomes (c : App * list thread) : list (bool * Z) :=
  map (fun th => (finished th, status_of (t_trace th))) (snd c).

(** *** Who holds which key *)

(** The keys a thread holds after one more event: a successful
    [LockKey] adds the key, [UnlockKey] removes it. *)
Definition held_step (h : gset string) (ev : event) : gset string :=
  match ev with
  | Ev e x =>
      match e in eff T return T -> gset string with
      | ELockKey key => fun ok => if ok then {[ string_of_bytes key ]} ∪ h else h
      | EUnlockKey key => fun _ => h ∖ {[ string_of_bytes key ]}
      | _ => fun _ => h
      end x
  end.

(** The keys a thread holds, read off its trace. *)
Definition holds (tr : list event) : gset string := fold_left held_step tr ∅.

(** A program takes only keys it does not hold and gives back only keys
    it holds, [h] being the keys held when it starts. *)
Definition lock_ok (h : gset string) {X : Type} (e : eff X) : Prop :=
  match e with
  | ELockKey key => string_of_bytes key ∉ h
  | EUnlockKey key => string_of_bytes key ∈ h
  | _ => True
  end.

Fixpoint disciplined {R : Type} (h : gset string) (p : prog R) : Prop :=
  match p with
  | Ret _ => True
  | Vis e k => lock_ok h e /\ forall x, disciplined (held_step h (Ev e x)) (k x)
  end.

Definition no_lock_op {X : Type} (e : eff X) : Prop :=
  match e with
  | ELockKey _ => False
  | EUnlockKey _ => False
  | _ => True
  end.

Fixpoint lock_free {R : Type} (p : prog R) : Prop :=
  match p with
  | Ret _ => True
  | Vis e k => no_lock_op e /\ forall x, lock_free (k x)
  end.

(** *** The course of a create

    Where a create on [key] stands: it has not tried the lock; it holds
    the lock; it holds the lock and the lookup said not-found; it holds
    the lock and will not write any more ([written] tells whether it
    wrote the record); it holds no lock any more. *)
Inductive phase :=
| Idle
| Holding
| Absent
| Closed (written : bool)
| Released (written : bool).

Definition holding (ph : phase) : bool :=
  match ph with
  | Holding | Absent | Closed _ => true
  | _ => false
  end.

Definition wrote (ph : phase) : bool :=
  match ph with
  | Closed w | Released w => w
  | _ => false
  end.

(** The phase after an event, or [None] when a create on [key] cannot
    make that event in that phase. *)
Definition monitor (key : list byte) (ph : phase) (ev : event) : option phase :=
  match ev with
  | Ev e x =>
      match e in eff T return T -> option phase with
      | ELockKey key' => fun ok =>
          match ph with
          | Idle =>
              if bool_decide (key' = key)
              then Some (if ok then Holding else Released false) else None
          | _ => None
          end
      | EUnlockKey key' => fun _ =>
          if bool_decide (key' = key) then
            match ph with
            | Holding | Absent => Some (Released false)
            | Closed w => Some (Released w)
            | _ => None
            end
          else None
      | EDbGet key' => fun res =>
          match ph with
          | Holding =>
              if bool_decide (key' = key) then
                match snd res with
                | Some ErrNotFound => Some Absent
                | _ => Some (Closed false)
                end
              else None
          | _ => None
          end
      | EDbPut key' _ => fun res =>
          match ph with
          | Absent =>
              if bool_decide (key' = key) then
                match res with
                | None => Some (Closed true)
                | Some _ => Some (Closed false)
                end
              else None
          | _ => None
          end
      | EDbDelete _ => fun _ => None
      | EWriteHeader code => fun _ =>
          if code =? 201 then (if wrote ph then Some ph else None) else Some ph
      | _ => fun _ => Some ph
      end x
  end.

Fixpoint conforms {R : Type} (key : list byte) (ph : phase) (p : prog R) : Prop :=
  match p with
  | Ret _ => True
  | Vis e k =>
      forall x, match monitor key ph (Ev e x) with
                | Some ph' => conforms key ph' (k x)
                | None => False
                end
  end.

(** The phase a trace leads to. *)
Definition track (key : list byte) (tr : list event) : option phase :=
  fold_left (fun o ev => match o with
                         | Some ph => monitor key ph ev
                         | None => None
                         end) tr (Some Idle).

(** *** The course of a create when store and backend answer as they should

    With a payload, a store that does not fail and a backend that
    accepts the blob, a create goes through these stations: before the
    lock; lock refused; lock held; lookup said not-found; blob stored;
    record written; lookup found a record; answer sent while the lock is
    held; lock given back or never held, answer sent. *)
Inductive answer := Created | Forbidden | Conflict.

Definition code_of (ans : answer) : Z :=
  match ans with
  | Created => 201
  | Forbidden => 403
  | Conflict => 409
  end.

Inductive station :=
| SIdle
| SRefused
| SHolding
| SAbsent
| SStored
| SWritten
| SFound
| SAnswered (ans : answer)
| SFinished (ans : answer).

(** The phase of the course of a create a station belongs to. *)
Definition phase_of (st : station) : phase :=
  match st with
  | SIdle => Idle
  | SRefused => Released false
  | SHolding => Holding
  | SAbsent | SStored => Absent
  | SWritten => Closed true
  | SFound => Closed false
  | SAnswered Created => Closed true
  | SAnswered _ => Closed false
  | SFinished Created => Released true
  | SFinished _ => Released false
  end.

Definition accepted (resp : option (Z * list byte)) : bool :=
  match resp with
  | Some (code, _) => (code =? 201) || (code =? 204)
  | None => false
  end.

(** The store does not fail and the backend accepts the blob. *)
Definition healthy (w : env) : Prop :=
  get_fault w = false /\ put_fault w = false /\ accepted (backend w) = true.

(** What an operation can return under a healthy environment. *)
Definition healthy_result (ev : event) : Prop :=
  match ev with
  | Ev e x =>
      match e in eff T return T -> Prop with
      | EDbGet _ => fun res => snd res <> Some ErrOther
      | EDbPut _ _ => fun res => res = None
      | EHttp _ _ _ _ => fun resp => accepted resp = true
      | _ => fun _ => True
      end x
  end.

(** The station after an event, or [None] when a create with a payload
    under a healthy environment cannot make that event there. *)
Definition smonitor (key : list byte) (st : station) (ev : event) : option station :=
  match ev with
  | Ev e x =>
      match e in eff T return T -> option station with
      | ELockKey key' => fun ok =>
          match st with
          | SIdle =>
              if bool_decide (key' = key)
              then Some (if ok then SHolding else SRefused) else None
          | _ => None
          end
      | EUnlockKey key' => fun _ =>
          match st with
          | SAnswered ans => if bool_decide (key' = key) then Some (SFinished ans) else None
          | _ => None
          end
      | EDbGet key' => fun res =>
          match st with
          | SHolding =>
              if bool_decide (key' = key) then
                match snd res with
                | Some ErrNotFound => Some SAbsent
                | None => Some SFound
                | Some ErrOther => None
                end
              else None
          | _ => None
          end
      | EHttp _ _ _ _ => fun resp =>
          match st with
          | SAbsent => if accepted resp then Some SStored else None
          | _ => None
          end
      | EDbPut key' _ => fun res =>
          match st with
          | SStored =>
              if bool_decide (key' = key) then
                match res with
                | None => Some SWritten
                | Some _ => None
                end
              else None
          | _ => None
          end
      | EWriteHeader code => fun _ =>
          match st with
          | SWritten => if code =? 201 then Some (SAnswered Created) else None
          | SFound => if code =? 403 then Some (SAnswered Forbidden) else None
          | SRefused => if code =? 409 then Some (SFinished Conflict) else None
          | _ => None
          end
      | _ => fun _ => None
      end x
  end.

Fixpoint sconforms {R : Type} (key : list byte) (st : station) (p : prog R) : Prop :=
  match p with
  | Ret _ => exists ans, st = SFinished ans
  | Vis e k =>
      forall x, healthy_result (Ev e x) ->
        match smonitor key st (Ev e x) with
        | Some st' => sconforms key st' (k x)
        | None => False
        end
  end.

Definition strack_from (key : list byte) (st : option station) (tr : list event)
    : option station :=
  fold_left (fun o ev => match o with
                         | Some st => smonitor key st ev
                         | None => None
                         end) tr st.

Definition strack (key : list byte) (tr : list event) : option station :=
  strack_from key (Some SIdle) tr.

(** On the way to a success: past the not-found lookup, or holding the
    lock while the record is absent. *)
Definition winning (st : station) : bool :=
  match st with
  | SAbsent | SStored | SWritten | SAnswered Created | SFinished Created => true
  | _ => false
  end.

Definition on_track (key : list byte) (a : App) (st : station) : Prop :=
  winning st = true \/ (st = SHolding /\ db a !! key = None).

(** Creates with a payload in flight under healthy environments: each
    is at a station of the course; the lock of the key is in the table
    only while a thread holds it; the record is in the store only after
    a thread wrote it; and as soon as one thread has tried the lock, one
    thread is on the way to a success. *)
Definition healthy_inv (key : list byte) (c : App * list thread) : Prop :=
  (forall i th, snd c !! i = Some th ->
     healthy (t_env th)
     /\ exists st, strack key (t_trace th) = Some st /\ sconforms key st (t_code th))
  /\ (string_of_bytes key ∈ lock (fst c) ->
      exists i th st, snd c !! i = Some th /\ strack key (t_trace th) = Some st
                      /\ holding (phase_of st) = true)
  /\ (is_Some (db (fst c) !! key) ->
      exists i th st, snd c !! i = Some th /\ strack key (t_trace th) = Some st
                      /\ wrote (phase_of st) = true)
  /\ ((exists i th st, snd c !! i = Some th /\ strack key (t_trace th) = Some st
                        /\ st <> SIdle) ->
      exists j thj stj, snd c !! j = Some thj /\ strack key (t_trace thj) = Some stj
                        /\ on_track key (fst c) stj).

(** *** Invariants of the interleaving *)

(** Every thread follows the lock discipline from the keys it holds,
    holds only keys that are in the lock table, and no two threads hold
    a key in common. *)
Definition lock_inv (c : App * list thread) : Prop :=
  (forall i th, snd c !! i = Some th ->
     disciplined (holds (t_trace th)) (t_code th)
     /\ holds (t_trace th) ⊆ lock (fst c))
  /\ (forall i j thi thj, i <> j ->
        snd c !! i = Some thi -> snd c !! j = Some thj ->
        holds (t_trace thi) ## holds (t_trace thj)).

(** The event is a write of the record of [key] that the store carried
    out. *)
Definition put_ok (key : list byte) (ev : event) : bool :=
  match ev with
  | Ev e x =>
      match e in eff T return T -> bool with
      | EDbPut key' _ => fun res =>
          bool_decide (key' = key) && match res with None => true | Some _ => false end
      | _ => fun _ => false
      end x
  end.

Definition wrote_record (key : list byte) (tr : list event) : bool :=
  existsb (put_ok key) tr.

(** The phase a trace leads to from [ph]. *)
Definition track_from (key : list byte) (ph : option phase) (tr : list event)
    : option phase :=
  fold_left (fun o ev => match o with
                         | Some ph => monitor key ph ev
                         | None => None
                         end) tr ph.

(** Creates on [key] in flight: each follows the course of a create; a
    thread that holds the lock finds the key in the lock table; after a
    not-found lookup under the lock the record is absent; after a write
    it is present; at most one thread holds the lock and at most one has
    written. *)
Definition create_inv (key : list byte) (c : App * list thread) : Prop :=
  (forall i th, snd c !! i = Some th ->
     exists ph,
       track key (t_trace th) = Some ph
       /\ conforms key ph (t_code th)
       /\ (holding ph = true -> string_of_bytes key ∈ lock (fst c))
       /\ (ph = Absent -> db (fst c) !! key = None)
       /\ (wrote ph = true -> is_Some (db (fst c) !! key)))
  /\ (forall i j thi thj phi phj, i <> j ->
        snd c !! i = Some thi -> snd c !! j = Some thj ->
        track key (t_trace thi) = Some phi -> track key (t_trace thj) = Some phj ->
        (holding phi = true -> holding phj = false)
        /\ (wrote phi = true -> wrote phj = false)).

(** A create: a PUT without query string. *)
Definition is_create (key : list byte) (r : Request) : Prop :=
  Method r = "PUT"%string /\ RawQuery r = EmptyString /\ bytes_of_string (Path r) = key.

(** ** Sample states and environments *)

(** A backend and a metadata store that both answer as they should. *)
Definition env_healthy : env :=
  mkEnv false false false (Some (204, [])) (fun _ => Some []).

(** The backend is unreachable. *)
Definition env_backend_down : env :=
  mkEnv false false false None (fun _ => Some []).

(** The metadata store fails on delete; the backend answers 204. *)
Definition env_delete_fault : env :=
  mkEnv false false true (Some (204, [])) (fun _ => Some []).

(** The metadata store fails on get. *)
Definition env_get_fault : env :=
  mkEnv true false false (Some (204, [])) (fun _ => Some []).

Definition pool3 : list string := ["localhost:3001"; "localhost:3002"; "localhost:3003"]%string.

Definition app_empty : App := mkApp ∅ ∅ pool3.

(** The key "/a" is recorded on a backend that left the pool. *)
Definition app_drift : App :=
  mkApp {[ bytes_of_string "/a" := bytes_of_string "localhost:3009" ]} ∅ pool3.

(** The key "/a" is recorded on the backend the pool assigns to it. *)
Definition app_stored : App :=
  mkApp {[ bytes_of_string "/a" := bytes_of_string "localhost:3001" ]} ∅ pool3.

(** The key "/a" is locked by a request in flight. *)
Definition app_locked : App := mkApp ∅ {[ "/a"%string ]} pool3.

Definition request (method path : string) (len : Z) : Request :=
  mkRequest method path EmptyString len [].



(** Two creates of "/a" arrive together on an empty store. *)
Definition two_creates (w1 w2 : env) : App * list thread :=
  start app_empty [(w1, request "PUT" "/a" 5); (w2, request "PUT" "/a" 5)].

(** The second request tries the lock while the first holds it. *)
Definition sched_overlap : list nat := [0; 1; 1; 0; 0; 0; 0; 0]%nat.

(** The second request tries the lock after the first gave it back. *)
Definition sched_one_after_other : list nat := [0; 0; 0; 0; 0; 0; 1; 1; 1; 1]%nat.

(** ** Programs that only read

    An operation that takes or gives back no lock, writes nothing to the
    store and calls no backend. *)
Definition is_read {X : Type} (e : eff X) : bool :=
  match e with
  | ELockKey _ | EUnlockKey _ | EDbPut _ _ | EDbDelete _ | EHttp _ _ _ _ => false
  | _ => true
  end.

Fixpoint read_only {R : Type} (p : prog R) : Prop :=
  match p with
  | Ret _ => True
  | Vis e k => is_read e = true /\ forall x, read_only (k x)
  end.

(** ** Locks given back, writes under the lock *)

(** A program gives back every key it holds before it ends, [h] being
    the keys held when it starts. *)
Fixpoint releasing {R : Type} (h : gset string) (p : prog R) : Prop :=
  match p with
  | Ret _ => h = ∅
  | Vis e k => forall x, releasing (held_step h (Ev e x)) (k x)
  end.

(** A write to the store (put or delete) is made on a key that is held. *)
Definition write_guarded (h : gset string) (ev : event) : Prop :=
  match ev with
  | Ev e _ =>
      match e with
      | EDbPut key _ => string_of_bytes key ∈ h
      | EDbDelete key => string_of_bytes key ∈ h
      | _ => True
      end
  end.

(** Every write of the trace is made on a key held at that point, [h]
    being the keys held when the trace starts. *)
Fixpoint writes_guarded (h : gset string) (tr : list event) : Prop :=
  match tr with
  | [] => True
  | ev :: tr' => write_guarded h ev /\ writes_guarded (held_step h ev) tr'
  end.

(** Every write the program can make is made on a key it holds. *)
Fixpoint guarded {R : Type} (h : gset string) (p : prog R) : Prop :=
  match p with
  | Ret _ => True
  | Vis e k => forall x, write_guarded h (Ev e x) /\ guarded (held_step h (Ev e x)) (k x)
  end.

(** Every thread gives back, before it ends, the keys it holds. *)
Definition release_inv (c : App * list thread) : Prop :=
  forall i th, snd c !! i = Some th -> releasing (holds (t_trace th)) (t_code th).

(** The lock table holds the keys it held at the start, [L0], and the
    keys the threads hold, and no thread holds a key of [L0]; the pool
    is the one of the start, [vols]. *)
Definition table_inv (L0 : gset string) (vols : list string) (c : App * list thread)
    : Prop :=
  (forall s, s ∈ lock (fst c) <->
             s ∈ L0 \/ exists i th, snd c !! i = Some th /\ s ∈ holds (t_trace th))
  /\ (forall i th s, snd c !! i = Some th -> s ∈ holds (t_trace th) -> s ∉ L0)
  /\ volumes (fst c) = vols.

(** Every thread has written to the store only under the lock of the
    key, and will do so in what it has left to run. *)
Definition guard_inv (c : App * list thread) : Prop :=
  forall i th, snd c !! i = Some th ->
    writes_guarded ∅ (t_trace th) /\ guarded (holds (t_trace th)) (t_code th).

(** ** The status line *)

(** The codes passed to [WriteHeader], in order. *)
Fixpoint header_writes (tr : list event) : list Z :=
  match tr with
  | [] => []
  | Ev e _ :: tr' =>
      match e with
      | EWriteHeader code => code :: header_writes tr'
      | _ => header_writes tr'
      end
  end.

(** Every header set during the request, sent or not. *)
Fixpoint headers_all (tr : list event) (h : gmap string string) : gmap string string :=
  match tr with
  | [] => h
  | Ev e _ :: tr' =>
      match e with
      | EHeaderSet name value => headers_all tr' (<[name := value]> h)
      | _ => headers_all tr' h
      end
  end.

Definition is_status {X : Type} (e : eff X) : bool :=
  match e with
  | EWriteHeader _ => true
  | EWrite _ => true
  | _ => false
  end.

(** The status line is written once, with one of [codes]; headers are
    set before it and the body is written after it. *)
Definition header_ok (codes : list Z) (written : bool) {X : Type} (e : eff X) : Prop :=
  match e with
  | EWriteHeader code => written = false /\ In code codes
  | EHeaderSet _ _ => written = false
  | EWrite _ => written = true
  | _ => True
  end.

Fixpoint answers {R : Type} (codes : list Z) (written : bool) (p : prog R) : Prop :=
  match p with
  | Ret _ => True
  | Vis e k =>
      header_ok codes written e
      /\ forall x, answers codes (written || is_status e) (k x)
  end.

(** The codes the switch writes, and those of the handler as a whole. *)
Definition switch_codes : list Z := [201; 204; 302; 403; 404; 411; 500].

Definition status_codes : list Z := [200; 201; 204; 302; 403; 404; 409; 411; 413; 500].

(** A store with three keys, two of them under "/a/". *)
Definition app_three : App :=
  mkApp {[ bytes_of_string "/a/2" := bytes_of_string "localhost:3002";
           bytes_of_string "/b/1" := bytes_of_string "localhost:3001";
           bytes_of_string "/a/1" := bytes_of_string "localhost:3003" ]} ∅ pool3.

Definition query_request (method path query : string) : Request :=
  mkRequest method path query 0 [].

(** * Properties *)

(** ** The digest and the encodings on known inputs *)

Example md5_empty : hex (MD5.Sum []) = "d41d8cd98f00b204e9800998ecf8427e"%string.
Proof. vm_compute. reflexivity. Qed.

Example md5_abc :
  hex (MD5.Sum (bytes_of_string "abc")) = "900150983cd24fb0d6963f7d28e17f72"%string.
Proof. vm_compute. reflexivity. Qed.

Example md5_two_blocks :
  hex (MD5.Sum (bytes_of_string
    "12345678901234567890123456789012345678901234567890123456789012345678901234567890"))
  = "57edf4a22be3c955ac49da2e2107b67a"%string.
Proof. vm_compute. reflexivity. Qed.

Example bytes_Compare_unsigned :
  bytes_Compare [x80] [x7f] = 1 /\ bytes_Compare [x01] [x01; x00] = -1.
Proof. split; reflexivity. Qed.

Lemma md5_sum_length (msg : list byte) : length (MD5.Sum msg) = 16%nat.
Proof.
  unfold MD5.Sum. cbv zeta. rewrite !length_app. unfold MD5.bytes_le.
  rewrite !length_map, !length_seq. reflexivity.
Qed.

Example key2path_a : key2path (bytes_of_string "/a") = "/06/39/L2E="%string.
Proof. vm_compute. reflexivity. Qed.

(** ** bytes.Compare is a total order *)

Lemma byte2Z_inj x y : byte2Z x = byte2Z y -> x = y.
Proof.
  unfold byte2Z. intros H. apply N2Z.inj in H.
  assert (Hx := Byte.of_to_N x). rewrite H, Byte.of_to_N in Hx. congruence.
Qed.

Lemma byte2Z_range b : 0 <= byte2Z b < 256.
Proof. unfold byte2Z. pose proof (Byte.to_N_bounded b). lia. Qed.

Lemma bytes_Compare_refl a : bytes_Compare a a = 0.
Proof. induction a as [|x a IH]; simpl; [reflexivity|]. rewrite Z.ltb_irrefl. exact IH. Qed.

Lemma bytes_Compare_eq a : forall b, bytes_Compare a b = 0 -> a = b.
Proof.
  induction a as [|x a IH]; intros [|y b]; simpl; try discriminate; [reflexivity|].
  destruct (Z.ltb_spec (byte2Z x) (byte2Z y)); [discriminate|].
  destruct (Z.ltb_spec (byte2Z y) (byte2Z x)); [discriminate|].
  intros H1. f_equal; [apply byte2Z_inj; lia | apply IH, H1].
Qed.

Lemma bytes_Compare_values a : forall b,
  bytes_Compare a b = -1 \/ bytes_Compare a b = 0 \/ bytes_Compare a b = 1.
Proof.
  induction a as [|x a IH]; intros [|y b]; simpl; auto.
  destruct (byte2Z x <? byte2Z y); auto. destruct (byte2Z y <? byte2Z x); auto.
Qed.

Lemma bytes_Compare_flip a : forall b,
  bytes_Compare a b = -1 <-> bytes_Compare b a = 1.
Proof.
  induction a as [|x a IH]; intros [|y b]; simpl; try (split; congruence).
  destruct (Z.ltb_spec (byte2Z x) (byte2Z y)), (Z.ltb_spec (byte2Z y) (byte2Z x));
    try lia; try (split; congruence). apply IH.
Qed.

Lemma bytes_Compare_lt_trans a : forall b c,
  bytes_Compare a b = -1 -> bytes_Compare b c = -1 -> bytes_Compare a c = -1.
Proof.
  induction a as [|x a IH]; intros [|y b] [|z c]; simpl; try congruence.
  destruct (Z.ltb_spec (byte2Z x) (byte2Z y)), (Z.ltb_spec (byte2Z y) (byte2Z x)),
    (Z.ltb_spec (byte2Z y) (byte2Z z)), (Z.ltb_spec (byte2Z z) (byte2Z y)),
    (Z.ltb_spec (byte2Z x) (byte2Z z)), (Z.ltb_spec (byte2Z z) (byte2Z x));
    try lia; try congruence. apply IH.
Qed.

Lemma score_ge_refl a : score_ge a a.
Proof. unfold score_ge. rewrite bytes_Compare_refl. lia. Qed.

Lemma score_ge_trans a b c : score_ge a b -> score_ge b c -> score_ge a c.
Proof.
  unfold score_ge. intros Hab Hbc Hac.
  destruct (bytes_Compare_values b c) as [H|[H|H]]; [contradiction| |].
  - apply bytes_Compare_eq in H. subst. contradiction.
  - apply bytes_Compare_flip in H. apply Hab.
    exact (bytes_Compare_lt_trans _ _ _ Hac H).
Qed.

Lemma score_ge_antisym a b : score_ge a b -> score_ge b a -> a = b.
Proof.
  unfold score_ge. intros Hab Hba.
  destruct (bytes_Compare_values a b) as [H|[H|H]]; [contradiction| |].
  - apply bytes_Compare_eq, H.
  - apply bytes_Compare_flip in H. contradiction.
Qed.

Lemma score_ge_lt a b : bytes_Compare a b = -1 -> score_ge b a.
Proof.
  unfold score_ge. intros H H'.
  pose proof (bytes_Compare_lt_trans _ _ _ H H') as Hc.
  rewrite bytes_Compare_refl in Hc. discriminate.
Qed.

(** ** key2volume: the backend with the largest score *)

#[local] Arguments MD5.Sum : simpl never.
#[local] Arguments score : simpl never.
#[local] Arguments key2volume_step : simpl never.
#[local] Opaque MD5.Sum score.

Section Placement.

Variable key : list byte.

Lemma key2volume_loop (vols : list string) : forall ret : string,
  exists r : string,
    fold_left (key2volume_step key) vols (Some (score key ret), ret)
      = (Some (score key r), r)
    /\ (r = ret \/ In r vols)
    /\ score_ge (score key r) (score key ret)
    /\ forall v, In v vols -> score_ge (score key r) (score key v).
Proof.
  induction vols as [|v vols IH]; intros ret; cbn [fold_left].
  - exists ret. split; [reflexivity|]. split; [left; reflexivity|].
    split; [apply score_ge_refl|]. intros v [].
  - unfold key2volume_step at 2.
    destruct (Z.eqb_spec (bytes_Compare (score key ret) (score key v)) (-1)) as [Hlt|Hnlt].
    + destruct (IH v) as (r & Hr & Hin & Hge & Hall).
      exists r. split; [exact Hr|]. split; [|split].
      * destruct Hin as [->|Hin]; [right; left; reflexivity | right; right; exact Hin].
      * eapply score_ge_trans; [exact Hge|]. apply score_ge_lt, Hlt.
      * intros v' [Hv'|Hv']; [subst v'; exact Hge | apply Hall, Hv'].
    + destruct (IH ret) as (r & Hr & Hin & Hge & Hall).
      exists r. split; [exact Hr|]. split; [|split].
      * destruct Hin as [->|Hin]; [left; reflexivity | right; right; exact Hin].
      * exact Hge.
      * intros v' [Hv'|Hv']; [subst v' | apply Hall, Hv'].
        eapply score_ge_trans; [exact Hge|exact Hnlt].
Qed.

Lemma key2volume_cons (v0 : string) (vols : list string) :
  key2volume key (v0 :: vols)
  = snd (fold_left (key2volume_step key) vols (Some (score key v0), v0)).
Proof. reflexivity. Qed.

Lemma key2volume_spec (volumes : list string) :
  volumes <> [] ->
  In (key2volume key volumes) volumes
  /\ forall v, In v volumes ->
       score_ge (score key (key2volume key volumes)) (score key v).
Proof.
  destruct volumes as [|v0 vols]; [congruence|]. intros _.
  rewrite key2volume_cons.
  destruct (key2volume_loop vols v0) as (r & Hr & Hin & Hge & Hall).
  rewrite Hr. cbn [snd].
  split.
  - destruct Hin as [->|Hin]; [left; reflexivity | right; exact Hin].
  - intros v [Hv|Hv]; [subst v; exact Hge | apply Hall, Hv].
Qed.

(** Two pools with the same members get the same backend when no two
    distinct members have the same score. *)
Lemma key2volume_same_members (l l' : list string) :
  (forall v1 v2, In v1 l -> In v2 l -> score key v1 = score key v2 -> v1 = v2) ->
  (forall v, In v l <-> In v l') ->
  key2volume key l = key2volume key l'.
Proof.
  intros Hinj Hsame.
  destruct l as [|v0 l0].
  - destruct l' as [|v' l'']; [reflexivity|].
    destruct (proj2 (Hsame v') (or_introl eq_refl)).
  - assert (Hne' : l' <> []).
    { intros ->. exact (proj1 (Hsame v0) (or_introl eq_refl)). }
    destruct (key2volume_spec (v0 :: l0)) as [Hin Hmax]; [congruence|].
    destruct (key2volume_spec l' Hne') as [Hin' Hmax'].
    apply Hinj; auto.
    + apply Hsame, Hin'.
    + apply score_ge_antisym.
      * apply Hmax. apply Hsame, Hin'.
      * apply Hmax'. apply Hsame, Hin.
Qed.

End Placement.

(** C1. For every key and every non-empty pool, [key2volume] returns a
    member of the pool whose score (the digest of the key followed by the
    member's name) is not below the score of any member under
    [bytes.Compare], the lexicographic order on unsigned bytes; and a
    second call with the same key and pool returns the same backend. *)
Theorem key2volume_largest_score (key : list byte) (volumes : list string) :
  volumes <> [] ->
  In (key2volume key volumes) volumes
  /\ (forall v, In v volumes ->
        bytes_Compare (score key (key2volume key volumes)) (score key v) <> -1)
  /\ (forall key' volumes', key' = key -> volumes' = volumes ->
        key2volume key' volumes' = key2volume key volumes).
Proof.
  intros Hne. destruct (key2volume_spec key volumes Hne) as [Hin Hmax].
  split; [exact Hin|]. split; [exact Hmax|].
  intros key' volumes' -> ->. reflexivity.
Qed.

Lemma key2volume_largest_score_witness :
  let key := bytes_of_string "/a" in
  let volumes := ["localhost:3001"; "localhost:3002"; "localhost:3003"]%string in
  In (key2volume key volumes) volumes
  /\ (forall v, In v volumes ->
        bytes_Compare (score key (key2volume key volumes)) (score key v) <> -1)
  /\ (forall key' volumes', key' = key -> volumes' = volumes ->
        key2volume key' volumes' = key2volume key volumes).
Proof.
  apply (key2volume_largest_score (bytes_of_string "/a")
           ["localhost:3001"; "localhost:3002"; "localhost:3003"]%string).
  discriminate.
Defined.

Example key2volume_a :
  key2volume (bytes_of_string "/a")
    ["localhost:3003"; "localhost:3002"; "localhost:3001"]%string
  = "localhost:3001"%string.
Proof. vm_compute. reflexivity. Qed.

Example collision_scores :
  score collision_key collision_volume1 = score collision_key collision_volume2
  /\ hex (score collision_key collision_volume1) = "79054025255fb1a26e4bc422aef54eb4"%string
  /\ collision_volume1 <> collision_volume2.
Proof. vm_compute. repeat split; try reflexivity. discriminate. Qed.

(** C3, as stated, fails: on a tie the member met first wins, so the
    order of the pool decides between two members with the same score. *)
Lemma key2volume_order_matters :
  ~ (forall (key : list byte) (l l' : list string),
       Permutation l l' -> key2volume key l = key2volume key l').
Proof.
  intros H.
  specialize (H collision_key [collision_volume1; collision_volume2]
                [collision_volume2; collision_volume1] (perm_swap _ _ _)).
  vm_compute in H. discriminate H.
Qed.

(** C3, amended. When no two distinct members of the pool have the same
    score for the key, [key2volume] depends only on the key and the set
    of backend names: it returns the same backend on every permutation
    of the pool. *)
Theorem key2volume_permutation (key : list byte) (l l' : list string) :
  (forall v1 v2, In v1 l -> In v2 l -> score key v1 = score key v2 -> v1 = v2) ->
  Permutation l l' ->
  key2volume key l = key2volume key l'.
Proof.
  intros Hinj Hperm. apply key2volume_same_members; [exact Hinj|].
  intros v. split; intros Hv.
  - exact (Permutation_in v Hperm Hv).
  - exact (Permutation_in v (Permutation_sym Hperm) Hv).
Qed.

Lemma key2volume_permutation_witness :
  key2volume (bytes_of_string "/a") pool3 = key2volume (bytes_of_string "/a") (rev pool3).
Proof.
  apply (key2volume_permutation (bytes_of_string "/a") pool3 (rev pool3)).
  - intros v1 v2 H1 H2 Heq. unfold pool3 in H1, H2. cbn [In] in H1, H2.
    destruct H1 as [<-|[<-|[<-|[]]]], H2 as [<-|[<-|[<-|[]]]];
      try reflexivity; vm_compute in Heq; discriminate Heq.
  - apply Permutation_rev.
Defined.

(** ** key2path: the fan-out directories and the encoded key *)

Lemma lor_disjoint_add (hi lo k : Z) :
  0 <= k -> 0 <= lo < 2 ^ k -> Z.lor (hi * 2 ^ k) lo = hi * 2 ^ k + lo.
Proof.
  intros Hk Hlo. rewrite <- Z.add_lor_land.
  assert (Hland : Z.land (hi * 2 ^ k) lo = 0).
  { apply Z.bits_inj'. intros n Hn. rewrite Z.land_spec, Z.bits_0.
    destruct (Z.lt_ge_cases n k) as [Hlt|Hge].
    - rewrite Z.mul_pow2_bits_low by lia. reflexivity.
    - rewrite <- (Z.mod_small lo (2 ^ k)) by lia.
      rewrite Z.mod_pow2_bits_high by lia. apply andb_false_r. }
  rewrite Hland. lia.
Qed.

Lemma Z2byte_mod (z : Z) (b : byte) : z mod 256 = byte2Z b -> Z2byte z = b.
Proof.
  intros H. unfold Z2byte. change 255 with (Z.ones 8).
  rewrite Z.land_ones by lia. change (2 ^ 8) with 256. rewrite H.
  unfold byte2Z. rewrite N2Z.id, Byte.of_to_N. reflexivity.
Qed.

Module Base64Facts.
Import Base64.

Lemma sextet_div (val sh : Z) : 0 <= sh -> sextet val sh = (val / 2 ^ sh) mod 64.
Proof.
  intros Hsh. unfold sextet. change 0x3F with (Z.ones 6).
  rewrite Z.land_ones by lia. rewrite Z.shiftr_div_pow2 by lia. reflexivity.
Qed.

Lemma sextet_range (val sh : Z) : 0 <= sh -> 0 <= sextet val sh < 64.
Proof. intros Hsh. rewrite sextet_div by lia. apply Z.mod_pos_bound. lia. Qed.

Lemma pack_sum (a b c : Z) :
  0 <= a < 256 -> 0 <= b < 256 -> 0 <= c < 256 ->
  pack a b c = a * 65536 + b * 256 + c.
Proof.
  intros Ha Hb Hc. unfold pack. rewrite !Z.shiftl_mul_pow2 by lia.
  rewrite (lor_disjoint_add a (b * 2 ^ 8) 16) by lia.
  replace (a * 2 ^ 16 + b * 2 ^ 8) with ((a * 256 + b) * 2 ^ 8) by lia.
  rewrite lor_disjoint_add by lia. lia.
Qed.

Lemma unpack_sum (s0 s1 s2 s3 : Z) :
  0 <= s1 < 64 -> 0 <= s2 < 64 -> 0 <= s3 < 64 ->
  unpack s0 s1 s2 s3 = s0 * 262144 + s1 * 4096 + s2 * 64 + s3.
Proof.
  intros H1 H2 H3. unfold unpack. rewrite !Z.shiftl_mul_pow2 by lia.
  rewrite (lor_disjoint_add s0 (s1 * 2 ^ 12) 18) by lia.
  replace (s0 * 2 ^ 18 + s1 * 2 ^ 12) with ((s0 * 64 + s1) * 2 ^ 12) by lia.
  rewrite (lor_disjoint_add _ (s2 * 2 ^ 6) 12) by lia.
  replace ((s0 * 64 + s1) * 2 ^ 12 + s2 * 2 ^ 6)
    with (((s0 * 64 + s1) * 64 + s2) * 2 ^ 6) by lia.
  rewrite lor_disjoint_add by lia. lia.
Qed.

(** Every character of the alphabet decodes to its index; the padding
    character is outside the alphabet. *)
Lemma dec_enc (i : Z) : 0 <= i < 64 -> dec (enc i) = Some i.
Proof.
  intros Hi.
  assert (Hall : forallb (fun n => match dec (enc (Z.of_nat n)) with
                                   | Some j => j =? Z.of_nat n
                                   | None => false
                                   end) (seq 0 64) = true) by (vm_compute; reflexivity).
  rewrite forallb_forall in Hall.
  specialize (Hall (Z.to_nat i)). rewrite Z2Nat.id in Hall by lia.
  assert (Hin : In (Z.to_nat i) (seq 0 64)) by (apply in_seq; lia).
  specialize (Hall Hin). destruct (dec (enc i)) as [j|]; [|discriminate].
  apply Z.eqb_eq in Hall. congruence.
Qed.

Lemma dec_pad : dec padChar = None.
Proof. vm_compute. reflexivity. Qed.

Lemma enc_not_pad (i : Z) : 0 <= i < 64 -> Ascii.eqb (enc i) padChar = false.
Proof.
  intros Hi. destruct (Ascii.eqb_spec (enc i) padChar) as [Heq|]; [|reflexivity].
  pose proof (dec_enc i Hi) as Hd. rewrite Heq, dec_pad in Hd. discriminate.
Qed.

Ltac to_div :=
  rewrite ?Z.shiftr_div_pow2, ?Z.shiftl_mul_pow2 by lia;
  change (2 ^ 18) with 262144 in *; change (2 ^ 16) with 65536 in *;
  change (2 ^ 12) with 4096 in *; change (2 ^ 8) with 256 in *;
  change (2 ^ 6) with 64 in *; change (2 ^ 0) with 1 in *.

(** A full group of three bytes. *)
Lemma group3 (a b c : byte) :
  let val := pack (byte2Z a) (byte2Z b) (byte2Z c) in
  let val' := unpack (sextet val 18) (sextet val 12) (sextet val 6) (sextet val 0) in
  Z2byte (Z.shiftr val' 16) = a /\ Z2byte (Z.shiftr val' 8) = b /\ Z2byte val' = c.
Proof.
  intros val val'.
  pose proof (byte2Z_range a) as Ha. pose proof (byte2Z_range b) as Hb.
  pose proof (byte2Z_range c) as Hc.
  assert (Hval : val = byte2Z a * 65536 + byte2Z b * 256 + byte2Z c)
    by (apply pack_sum; assumption).
  assert (Hval' : val' = val).
  { unfold val'. rewrite unpack_sum by (apply sextet_range; lia).
    rewrite !sextet_div by lia. to_div. rewrite Hval.
    Z.div_mod_to_equations. lia. }
  rewrite Hval', Hval.
  repeat split; apply Z2byte_mod; to_div; Z.div_mod_to_equations; lia.
Qed.

(** The last group when two bytes remain. *)
Lemma group2 (a b : byte) :
  let val := Z.lor (Z.shiftl (byte2Z a) 16) (Z.shiftl (byte2Z b) 8) in
  let val' := unpack (sextet val 18) (sextet val 12) (sextet val 6) 0 in
  Z2byte (Z.shiftr val' 16) = a /\ Z2byte (Z.shiftr val' 8) = b.
Proof.
  intros val val'.
  pose proof (byte2Z_range a) as Ha. pose proof (byte2Z_range b) as Hb.
  assert (Hval : val = byte2Z a * 65536 + byte2Z b * 256).
  { unfold val. rewrite !Z.shiftl_mul_pow2 by lia.
    rewrite lor_disjoint_add by lia. lia. }
  assert (Hval' : val' = val).
  { unfold val'. rewrite unpack_sum by (try apply sextet_range; lia).
    rewrite !sextet_div by lia. to_div. rewrite Hval.
    Z.div_mod_to_equations. lia. }
  rewrite Hval', Hval.
  repeat split; apply Z2byte_mod; to_div; Z.div_mod_to_equations; lia.
Qed.

(** The last group when one byte remains. *)
Lemma group1 (a : byte) :
  let val := Z.shiftl (byte2Z a) 16 in
  let val' := unpack (sextet val 18) (sextet val 12) 0 0 in
  Z2byte (Z.shiftr val' 16) = a.
Proof.
  intros val val'.
  pose proof (byte2Z_range a) as Ha.
  assert (Hval : val = byte2Z a * 65536).
  { unfold val. rewrite !Z.shiftl_mul_pow2 by lia. lia. }
  assert (Hval' : val' = (val / 4096) * 4096).
  { unfold val'. rewrite unpack_sum by (try apply sextet_range; lia).
    rewrite !sextet_div by lia. to_div. rewrite Hval.
    Z.div_mod_to_equations. lia. }
  rewrite Hval', Hval.
  apply Z2byte_mod; to_div; Z.div_mod_to_equations; lia.
Qed.

Lemma list_ind3 {A : Type} (P : list A -> Prop) :
  P [] -> (forall a, P [a]) -> (forall a b, P [a; b]) ->
  (forall a b c l, P l -> P (a :: b :: c :: l)) ->
  forall l, P l.
Proof.
  intros H0 H1 H2 H3.
  assert (Hall : forall l, P l /\ (forall a, P (a :: l)) /\ (forall a b, P (a :: b :: l))).
  { induction l as [|x l (IH0 & IH1 & IH2)]; [auto|].
    split; [apply IH1|]. split; [intros a; apply IH2|]. intros a b. apply H3, IH0. }
  intros l. apply Hall.
Qed.

(** [DecodeString] undoes [EncodeToString]. *)
Lemma decode_encode (src : list byte) :
  DecodeString (EncodeToString src) = Some src.
Proof.
  induction src as [|a|a b|a b c rest IH] using list_ind3.
  - reflexivity.
  - cbn [EncodeToString DecodeString].
    rewrite !dec_enc, dec_pad by (apply sextet_range; lia).
    rewrite Ascii.eqb_refl. cbn [andb String.eqb].
    rewrite (group1 a). reflexivity.
  - cbn [EncodeToString DecodeString].
    rewrite !dec_enc, dec_pad by (apply sextet_range; lia).
    rewrite Ascii.eqb_refl. cbn [andb String.eqb].
    destruct (group2 a b) as [-> ->]. reflexivity.
  - cbn [EncodeToString DecodeString].
    rewrite !dec_enc by (apply sextet_range; lia).
    rewrite IH. destruct (group3 a b c) as (-> & -> & ->). reflexivity.
Qed.

End Base64Facts.

Lemma hex02_unhex02 (b : byte) :
  unhex02 (hex02 b) = Some b /\ has_char "/" (hex02 b) = false.
Proof. destruct b; vm_compute; split; reflexivity. Qed.

Lemma split_on_no_sep (sep : ascii) (s : string) :
  has_char sep s = false -> split_on sep s = [s].
Proof.
  induction s as [|c s IH]; cbn [has_char split_on]; [reflexivity|].
  intros H. apply orb_false_elim in H as [Hc Hs].
  rewrite Hc, (IH Hs). reflexivity.
Qed.

Lemma append_nil_l (t : string) : (EmptyString ++ t)%string = t.
Proof. reflexivity. Qed.

Lemma append_cons_l (c : ascii) (s t : string) :
  (String c s ++ t)%string = String c (s ++ t)%string.
Proof. reflexivity. Qed.

Lemma split_on_app (sep : ascii) (s t : string) :
  has_char sep s = false ->
  split_on sep (s ++ String sep t)%string = s :: split_on sep t.
Proof.
  induction s as [|c s IH]; cbn [has_char]; intros H.
  - rewrite append_nil_l. cbn [split_on]. rewrite Ascii.eqb_refl. reflexivity.
  - apply orb_false_elim in H as [Hc Hs].
    rewrite append_cons_l. cbn [split_on]. rewrite Hc, (IH Hs). reflexivity.
Qed.

Example key2path_slash_in_encoding :
  Base64.EncodeToString (bytes_of_string "/a?") = "L2E/"%string
  /\ key2path (bytes_of_string "/a?") = "/fa/8a/L2E/"%string
  /\ split_on "/" (key2path (bytes_of_string "/a?"))
     = [EmptyString; "fa"; "8a"; "L2E"; EmptyString]%string.
Proof. vm_compute. repeat split; reflexivity. Qed.

(** C4, as stated, fails: the standard alphabet contains the path
    separator, so the path of the key "/a?" does not consist of three
    segments the last of which decodes back to the key. *)
Lemma key2path_not_three_segments :
  ~ (forall key : list byte, exists a b e : string,
       split_on "/" (key2path key) = [EmptyString; a; b; e]
       /\ has_char "/" e = false
       /\ Base64.DecodeString e = Some key).
Proof.
  intros H. destruct (H (bytes_of_string "/a?")) as (a & b & e & Hsplit & _).
  vm_compute in Hsplit. discriminate Hsplit.
Qed.

(** C4, amended. For every key, [key2path] is a slash, the two
    lower-case hexadecimal digits of the first byte of the key's MD5
    digest, a slash, the two digits of the second byte, a slash and the
    padded standard base64 encoding of the raw key bytes.  The encoding
    decodes back to exactly the key; since its alphabet contains the
    slash, the path has exactly three segments, the last one being the
    encoding, whenever the encoding holds no slash. *)
Theorem key2path_shape (key : list byte) :
  exists (d0 d1 : byte) (rest : list byte),
    MD5.Sum key = d0 :: d1 :: rest
    /\ key2path key
       = ("/" ++ hex02 d0 ++ "/" ++ hex02 d1 ++ "/" ++ Base64.EncodeToString key)%string
    /\ unhex02 (hex02 d0) = Some d0
    /\ unhex02 (hex02 d1) = Some d1
    /\ Base64.DecodeString (Base64.EncodeToString key) = Some key
    /\ (has_char "/" (Base64.EncodeToString key) = false ->
        split_on "/" (key2path key)
        = [EmptyString; hex02 d0; hex02 d1; Base64.EncodeToString key]).
Proof.
  pose proof (md5_sum_length key) as Hlen.
  unfold key2path. cbv zeta.
  destruct (MD5.Sum key) as [|d0 [|d1 rest]]; try discriminate Hlen.
  exists d0, d1, rest. cbn [nth].
  destruct (hex02_unhex02 d0) as [Hu0 Hs0], (hex02_unhex02 d1) as [Hu1 Hs1].
  repeat split; auto using Base64Facts.decode_encode.
  intros Hno.
  change ("/" ++ hex02 d0 ++ "/" ++ hex02 d1 ++ "/" ++ Base64.EncodeToString key)%string
    with (EmptyString ++ String "/" (hex02 d0 ++ String "/" (hex02 d1 ++
            String "/" (Base64.EncodeToString key))))%string.
  rewrite !split_on_app by (assumption || reflexivity).
  rewrite split_on_no_sep by assumption. reflexivity.
Qed.

(** ** One request served alone *)

#[local] Arguments key2path : simpl never.
#[local] Arguments key2volume : simpl never.
#[local] Arguments remote_url : simpl never.
#[local] Arguments bytes_of_string : simpl never.
#[local] Arguments string_of_bytes : simpl never.
#[local] Opaque key2path key2volume.

Lemma run_bind {R S : Type} (w : env) (p : prog R) (f : R -> prog S) : forall a,
  run w (bind p f) a
  = let '(x, a1, tr1) := run w p a in
    let '(y, a2, tr2) := run w (f x) a1 in
    (y, a2, tr1 ++ tr2).
Proof.
  induction p as [r|X e k IH]; intros a; cbn [bind run].
  - destruct (run w (f r) a) as [[y a2] tr2]. reflexivity.
  - destruct (handle w a e) as [x a']. rewrite IH.
    destruct (run w (k x) a') as [[x1 a1] tr1].
    destruct (run w (f x1) a1) as [[y a2] tr2]. reflexivity.
Qed.

(** A request without query string whose method is neither PUT nor
    DELETE goes straight to the switch. *)
Lemma serve_read (a : App) (w : env) (r : Request) :
  RawQuery r = EmptyString ->
  (Method r = "GET" \/ Method r = "HEAD")%string ->
  serve a w r
  = let '(_, a', tr) := run w (serve_GET (volumes a) (bytes_of_string (Path r))) a in
    (a', tr).
Proof.
  intros HQ HM. unfold serve, ServeHTTP, serve_switch. rewrite HQ. cbn [String.length Nat.ltb Nat.leb].
  destruct HM as [-> | ->]; reflexivity.
Qed.

(** A PUT or DELETE without query string takes the lock first: when the
    key is held it answers 409 and nothing else happens. *)
Lemma serve_locked (a : App) (w : env) (r : Request) :
  RawQuery r = EmptyString ->
  (Method r = "PUT" \/ Method r = "DELETE")%string ->
  string_of_bytes (bytes_of_string (Path r)) ∈ lock a ->
  serve a w r
  = (a, [Ev (ELockKey (bytes_of_string (Path r))) false; Ev (EWriteHeader 409) tt]).
Proof.
  intros HQ HM Hheld. unfold serve, ServeHTTP. rewrite HQ. cbn [String.length Nat.ltb Nat.leb].
  assert (HM' : (String.eqb (Method r) "PUT" || String.eqb (Method r) "DELETE") = true)
    by (destruct HM as [-> | ->]; reflexivity).
  rewrite HM'. cbn [bind call run handle]. unfold LockKey.
  rewrite decide_True by assumption. reflexivity.
Qed.

(** When the key is free the lock is taken, the switch runs, and the
    lock is given back. *)
Lemma serve_unlocked (a : App) (w : env) (r : Request) :
  RawQuery r = EmptyString ->
  (Method r = "PUT" \/ Method r = "DELETE")%string ->
  string_of_bytes (bytes_of_string (Path r)) ∉ lock a ->
  serve a w r
  = let key := bytes_of_string (Path r) in
    let '(_, a1, tr) :=
      run w (serve_switch (volumes a) key r)
        (mkApp (db a) ({[ string_of_bytes key ]} ∪ lock a) (volumes a)) in
    (UnlockKey a1 key, Ev (ELockKey key) true :: tr ++ [Ev (EUnlockKey key) tt]).
Proof.
  intros HQ HM Hfree. unfold serve, ServeHTTP. rewrite HQ. cbn [String.length Nat.ltb Nat.leb].
  assert (HM' : (String.eqb (Method r) "PUT" || String.eqb (Method r) "DELETE") = true)
    by (destruct HM as [-> | ->]; reflexivity).
  rewrite HM'. cbn [bind call run handle]. unfold LockKey.
  rewrite decide_False by assumption. cbn [negb]. cbv zeta.
  rewrite run_bind.
  destruct (run w (serve_switch _ _ _) _) as [[u a1] tr]. reflexivity.
Qed.

(** C5. A GET or HEAD on a key whose assignment record the lookup
    returns is answered with status 302, a [Location] header made of the
    stored backend name and the path of the key, and [Content-Length: 0].
    The current placement of the key only decides whether the advisory
    line is printed: the status, the headers and the state are the same
    whether or not the stored backend is the one [key2volume] gives. *)
Theorem fetch_redirects_to_stored_backend
    (a : App) (w : env) (r : Request) (v : list byte) :
  RawQuery r = EmptyString ->
  (Method r = "GET" \/ Method r = "HEAD")%string ->
  db a !! bytes_of_string (Path r) = Some v ->
  get_fault w = false ->
  let key := bytes_of_string (Path r) in
  exists tr,
    serve a w r = (a, tr)
    /\ status_of tr = 302
    /\ headers_of tr
       = <["Content-Length" := "0"]>
           (<["Location" := ("http://" ++ string_of_bytes v ++ key2path key)]> ∅)%string
    /\ backend_calls tr = []
    /\ log_of tr
       = (if String.eqb (string_of_bytes v) (key2volume key (volumes a)) then []
          else ["on wrong volume, needs rebalance"%string]).
Proof.
  intros HQ HM Hv Hw key. subst key. rewrite serve_read by assumption.
  unfold serve_GET. cbn [bind call run handle]. rewrite Hw, Hv. cbv iota beta.
  destruct (String.eqb (string_of_bytes v) (key2volume _ (volumes a)));
    cbn [negb bind call run handle]; eexists; (split; [reflexivity|]);
    repeat split; reflexivity.
Qed.

Lemma fetch_redirects_to_stored_backend_witness :
  exists tr,
    serve app_drift env_healthy (request "HEAD" "/a" 0) = (app_drift, tr)
    /\ status_of tr = 302
    /\ headers_of tr
       = <["Content-Length" := "0"]>
           (<["Location" := "http://localhost:3009/06/39/L2E="]> ∅)%string
    /\ backend_calls tr = []
    /\ log_of tr = ["on wrong volume, needs rebalance"%string].
Proof.
  apply (fetch_redirects_to_stored_backend app_drift env_healthy
           (request "HEAD" "/a" 0) (bytes_of_string "localhost:3009")).
  - reflexivity.
  - right. reflexivity.
  - vm_compute. reflexivity.
  - reflexivity.
Defined.

Lemma unlock_after_lock (a : App) (key : list byte) (m : gmap (list byte) (list byte)) :
  string_of_bytes key ∉ lock a ->
  UnlockKey (mkApp m ({[ string_of_bytes key ]} ∪ lock a) (volumes a)) key
  = mkApp m (lock a) (volumes a).
Proof.
  intros Hfree. unfold UnlockKey. cbn [db lock volumes]. f_equal.
  apply set_eq. intros x.
  rewrite elem_of_difference, elem_of_union, elem_of_singleton.
  split.
  - intros [[Hx|Hx] Hne]; [contradiction | exact Hx].
  - intros Hx. split; [right; exact Hx | intros ->; contradiction].
Qed.

Lemma app_eta (a : App) : mkApp (db a) (lock a) (volumes a) = a.
Proof. destruct a. reflexivity. Qed.

Lemma switch_PUT (vols : list string) (key : list byte) (r : Request) :
  Method r = "PUT"%string -> serve_switch vols key r = serve_PUT vols key r.
Proof. intros HM. unfold serve_switch. rewrite HM. reflexivity. Qed.

Lemma switch_DELETE (vols : list string) (key : list byte) (r : Request) :
  Method r = "DELETE"%string -> serve_switch vols key r = serve_DELETE key.
Proof. intros HM. unfold serve_switch. rewrite HM. reflexivity. Qed.

(** C6, as stated, fails: the lock is taken before the length is looked
    at, so an empty create on a key that is held gets 409, not 411. *)
Lemma empty_create_on_held_key_conflicts :
  ~ (forall (a : App) (w : env) (r : Request),
       Method r = "PUT"%string -> RawQuery r = EmptyString -> ContentLength r = 0 ->
       status_of (snd (serve a w r)) = 411).
Proof.
  intros H.
  specialize (H app_locked env_healthy (request "PUT" "/a" 0) eq_refl eq_refl eq_refl).
  vm_compute in H. discriminate H.
Qed.

(** C6, amended. A PUT without query string whose length is zero never
    touches the metadata store or a backend.  The lock is tried first:
    when the key is free the request takes the lock, is rejected with
    411 and gives the lock back; when the key is held it is rejected
    with 409. *)
Theorem empty_create_rejected (a : App) (w : env) (r : Request) :
  Method r = "PUT"%string ->
  RawQuery r = EmptyString ->
  ContentLength r = 0 ->
  let key := bytes_of_string (Path r) in
  exists a' tr,
    serve a w r = (a', tr)
    /\ a' = a
    /\ backend_calls tr = []
    /\ (string_of_bytes key ∉ lock a ->
        tr = [Ev (ELockKey key) true; Ev (EWriteHeader 411) tt; Ev (EUnlockKey key) tt]
        /\ status_of tr = 411)
    /\ (string_of_bytes key ∈ lock a ->
        tr = [Ev (ELockKey key) false; Ev (EWriteHeader 409) tt]
        /\ status_of tr = 409).
Proof.
  intros HM HQ HL key. subst key.
  destruct (decide (string_of_bytes (bytes_of_string (Path r)) ∈ lock a)) as [Hheld|Hfree].
  - rewrite serve_locked by auto. eexists _, _. split; [reflexivity|].
    repeat split; try reflexivity; intros; contradiction.
  - rewrite serve_unlocked by auto. cbv zeta. rewrite switch_PUT by assumption.
    unfold serve_PUT. rewrite HL. cbn [Z.eqb call run handle app].
    rewrite unlock_after_lock by assumption. rewrite app_eta.
    eexists _, _. split; [reflexivity|].
    repeat split; try reflexivity; intros; contradiction.
Qed.

Lemma empty_create_rejected_witness :
  serve app_stored env_healthy (request "PUT" "/a" 0)
  = (app_stored,
     [Ev (ELockKey (bytes_of_string "/a")) true; Ev (EWriteHeader 411) tt;
      Ev (EUnlockKey (bytes_of_string "/a")) tt])
  /\ serve app_locked env_healthy (request "PUT" "/a" 0)
     = (app_locked,
        [Ev (ELockKey (bytes_of_string "/a")) false; Ev (EWriteHeader 409) tt]).
Proof.
  split.
  - destruct (empty_create_rejected app_stored env_healthy (request "PUT" "/a" 0)
                eq_refl eq_refl eq_refl) as (a' & tr & Hrun & -> & _ & Hfree & _).
    destruct (Hfree (not_elem_of_empty _)) as [-> _]. exact Hrun.
  - destruct (empty_create_rejected app_locked env_healthy (request "PUT" "/a" 0)
                eq_refl eq_refl eq_refl) as (a' & tr & Hrun & -> & _ & _ & Hheld).
    destruct (Hheld (proj2 (elem_of_singleton _ _) eq_refl)) as [-> _]. exact Hrun.
Defined.

(** C7, as stated, fails: a create on a key that has a record is not
    always answered 403.  With the record of "/a" present, an empty PUT
    is answered 411, and a PUT on a key whose lock is held is answered
    409. *)
Lemma create_on_record_not_always_forbidden :
  ~ (forall (a : App) (w : env) (r : Request) (v : list byte),
       Method r = "PUT"%string -> RawQuery r = EmptyString ->
       db a !! bytes_of_string (Path r) = Some v ->
       status_of (snd (serve a w r)) = 403).
Proof.
  intros H.
  assert (Hv : db app_stored !! bytes_of_string (Path (request "PUT" "/a" 0))
               = Some (bytes_of_string "localhost:3001")) by (vm_compute; reflexivity).
  specialize (H app_stored env_healthy (request "PUT" "/a" 0) _ eq_refl eq_refl Hv).
  vm_compute in H. discriminate H.
Qed.

Example create_on_record_held_key :
  status_of (snd (serve (mkApp (db app_stored) {[ "/a"%string ]} pool3) env_healthy
                    (request "PUT" "/a" 5))) = 409.
Proof. vm_compute. reflexivity. Qed.

(** C7, amended. A PUT without query string on a key that has an
    assignment record issues no backend request, writes no record and
    leaves the state as it was, whatever its outcome.  It is always
    rejected: with 409 when the lock of the key is held, with 411 when it
    takes the lock and carries no payload, and with 403 when it takes the
    lock and carries a payload. *)
Theorem create_never_overwrites (a : App) (w : env) (r : Request) (v : list byte) :
  Method r = "PUT"%string ->
  RawQuery r = EmptyString ->
  db a !! bytes_of_string (Path r) = Some v ->
  let key := bytes_of_string (Path r) in
  exists tr,
    serve a w r = (a, tr)
    /\ backend_calls tr = []
    /\ wrote_record key tr = false
    /\ (string_of_bytes key ∈ lock a -> status_of tr = 409)
    /\ (string_of_bytes key ∉ lock a -> ContentLength r = 0 -> status_of tr = 411)
    /\ (string_of_bytes key ∉ lock a -> ContentLength r <> 0 -> status_of tr = 403).
Proof.
  intros HM HQ Hv key. subst key.
  destruct (decide (string_of_bytes (bytes_of_string (Path r)) ∈ lock a)) as [Hheld|Hfree].
  - rewrite serve_locked by auto. eexists. split; [reflexivity|].
    split; [reflexivity|]. split; [reflexivity|].
    split; [reflexivity|]. split; intros; contradiction.
  - rewrite serve_unlocked by auto. cbv zeta. rewrite switch_PUT by assumption.
    unfold serve_PUT. destruct (Z.eqb_spec (ContentLength r) 0) as [H0|Hn0].
    + cbn [call run handle app]. rewrite unlock_after_lock, app_eta by assumption.
      eexists. split; [reflexivity|]. split; [reflexivity|]. split; [reflexivity|].
      split; [intros; contradiction|]. split; [reflexivity|intros; contradiction].
    + cbn [bind call run handle db]. rewrite Hv.
      destruct (get_fault w); cbn [bind call run handle app];
        rewrite unlock_after_lock, app_eta by assumption;
        (eexists; split; [reflexivity|]; split; [reflexivity|]; split; [reflexivity|];
         split; [intros; contradiction|]; split; [intros; contradiction|reflexivity]).
Qed.

Lemma create_never_overwrites_witness :
  exists tr,
    serve app_stored env_healthy (request "PUT" "/a" 5) = (app_stored, tr)
    /\ backend_calls tr = []
    /\ wrote_record (bytes_of_string "/a") tr = false
    /\ status_of tr = 403.
Proof.
  destruct (create_never_overwrites app_stored env_healthy (request "PUT" "/a" 5)
              (bytes_of_string "localhost:3001") eq_refl eq_refl)
    as (tr & Hrun & Hcalls & Hwrote & _ & _ & Hstatus).
  - vm_compute. reflexivity.
  - exists tr. split; [exact Hrun|]. split; [exact Hcalls|]. split; [exact Hwrote|].
    apply Hstatus; [apply not_elem_of_empty | discriminate].
Defined.

(** What [remote_delete] makes of the backend's answer. *)
Lemma run_remote_delete (w : env) (remote : string) (a : App) :
  run w (remote_delete remote) a
  = (match backend w with
     | Some (code, _) =>
         if code =? 204 then None else Some "remote_delete: wrong status code"%string
     | None => Some "transport"%string
     end, a, [Ev (EHttp "DELETE" remote None []) (backend w)]).
Proof.
  unfold remote_delete. cbn [bind call run handle].
  destruct (backend w) as [[code body]|]; [|reflexivity].
  destruct (code =? 204); reflexivity.
Qed.

Lemma run_remote_put (w : env) (remote : string) (len : Z) (body : list byte) (a : App) :
  run w (remote_put remote len body) a
  = (match backend w with
     | Some (code, _) =>
         if negb (code =? 201) && negb (code =? 204)
         then Some "remote_put: wrong status code"%string else None
     | None => Some "transport"%string
     end, a, [Ev (EHttp "PUT" remote (Some len) body) (backend w)]).
Proof.
  unfold remote_put. cbn [bind call run handle].
  destruct (backend w) as [[code rbody]|]; [|reflexivity].
  destruct (negb (code =? 201) && negb (code =? 204)); reflexivity.
Qed.

(** What a delete does when the store carries it out.  A DELETE without
    query string that holds the lock, on a key whose record the lookup
    returns: the store's delete comes before the backend request in the
    trace, and when the store carries the delete out the record is gone
    afterwards, whether the backend answers 204 (status 204) or anything
    else (status 500); a later GET or HEAD of the key, whose lookup works,
    is answered 404. *)
Theorem delete_removes_record_first
    (a : App) (w : env) (r : Request) (v : list byte) :
  Method r = "DELETE"%string ->
  RawQuery r = EmptyString ->
  string_of_bytes (bytes_of_string (Path r)) ∉ lock a ->
  db a !! bytes_of_string (Path r) = Some v ->
  get_fault w = false ->
  delete_fault w = false ->
  let key := bytes_of_string (Path r) in
  let code :=
    match backend w with
    | Some (204, _) => 204
    | _ => 500
    end in
  exists a',
    serve a w r
    = (a', [Ev (ELockKey key) true;
            Ev (EDbGet key) (v, None);
            Ev (EDbDelete key) None;
            Ev (EHttp "DELETE" ("http://" ++ string_of_bytes v ++ key2path key) None [])
               (backend w);
            Ev (EWriteHeader code) tt;
            Ev (EUnlockKey key) tt])
    /\ a' = mkApp (delete key (db a)) (lock a) (volumes a)
    /\ db a' !! key = None
    /\ forall (w' : env) (r' : Request),
         RawQuery r' = EmptyString ->
         (Method r' = "GET" \/ Method r' = "HEAD")%string ->
         Path r' = Path r ->
         get_fault w' = false ->
         status_of (snd (serve a' w' r')) = 404.
Proof.
  intros HM HQ Hfree Hv Hg Hd key code. subst key code.
  rewrite serve_unlocked by auto. cbv zeta. rewrite switch_DELETE by assumption.
  unfold serve_DELETE. cbn [bind call run handle db]. rewrite Hg, Hv. cbv iota beta.
  cbn [bind call run handle]. rewrite Hd. rewrite run_bind, run_remote_delete.
  cbn [db lock volumes].
  exists (mkApp (delete (bytes_of_string (Path r)) (db a)) (lock a) (volumes a)).
  split; [|split; [reflexivity|split]].
  - destruct (backend w) as [[c body]|]; [destruct (Z.eqb_spec c 204) as [->|Hc]|];
      cbn [call run handle app]; rewrite unlock_after_lock by assumption;
      try reflexivity.
    destruct c as [|p|p]; try reflexivity.
    repeat (destruct p as [p|p|]; try reflexivity). contradiction.
  - cbn [db]. apply lookup_delete_eq.
  - intros w' r' HQ' HM' HP Hg'. rewrite serve_read by assumption.
    unfold serve_GET. cbn [bind call run handle db]. rewrite Hg', HP.
    rewrite lookup_delete_eq. reflexivity.
Qed.

Lemma delete_removes_record_first_witness :
  exists a',
    serve app_stored env_backend_down (request "DELETE" "/a" 0)
    = (a', [Ev (ELockKey (bytes_of_string "/a")) true;
            Ev (EDbGet (bytes_of_string "/a")) (bytes_of_string "localhost:3001", None);
            Ev (EDbDelete (bytes_of_string "/a")) None;
            Ev (EHttp "DELETE" "http://localhost:3001/06/39/L2E=" None []) None;
            Ev (EWriteHeader 500) tt;
            Ev (EUnlockKey (bytes_of_string "/a")) tt])
    /\ a' = mkApp (delete (bytes_of_string "/a") (db app_stored)) ∅ pool3
    /\ db a' !! bytes_of_string "/a" = None
    /\ forall (w' : env) (r' : Request),
         RawQuery r' = EmptyString ->
         (Method r' = "GET" \/ Method r' = "HEAD")%string ->
         Path r' = "/a"%string ->
         get_fault w' = false ->
         status_of (snd (serve a' w' r')) = 404.
Proof.
  apply (delete_removes_record_first app_stored env_backend_down
           (request "DELETE" "/a" 0) (bytes_of_string "localhost:3001")).
  - reflexivity.
  - reflexivity.
  - apply not_elem_of_empty.
  - vm_compute. reflexivity.
  - reflexivity.
  - reflexivity.
Defined.

(** ** Failures of the metadata store *)

(** The one store failure the handler looks at: when the write of the
    record fails after the backend stored the blob, the create answers
    500 and the store is as before. *)
Lemma create_put_fault_reported (a : App) (w : env) (r : Request) (body : list byte) :
  Method r = "PUT"%string ->
  RawQuery r = EmptyString ->
  ContentLength r <> 0 ->
  string_of_bytes (bytes_of_string (Path r)) ∉ lock a ->
  db a !! bytes_of_string (Path r) = None ->
  get_fault w = false ->
  backend w = Some (201, body) ->
  put_fault w = true ->
  exists tr, serve a w r = (a, tr) /\ status_of tr = 500.
Proof.
  intros HM HQ HL Hfree Hv Hg Hb Hp.
  rewrite serve_unlocked by auto. cbv zeta. rewrite switch_PUT by assumption.
  unfold serve_PUT. destruct (Z.eqb_spec (ContentLength r) 0) as [H0|_]; [contradiction|].
  cbn [bind call run handle db]. rewrite Hg, Hv. cbv iota beta.
  rewrite run_bind, run_remote_put, Hb. cbn [Z.eqb Pos.eqb negb andb].
  cbn [bind call run handle]. rewrite Hp. cbn [call run handle app].
  rewrite unlock_after_lock, app_eta by assumption.
  eexists. split; reflexivity.
Qed.

(** The error of the store's delete is dropped: when the delete fails
    and the backend answers 204, the DELETE answers 204 and the state,
    the record included, is as before. *)
Lemma delete_fault_ignored (a : App) (w : env) (r : Request) (v body : list byte) :
  Method r = "DELETE"%string ->
  RawQuery r = EmptyString ->
  string_of_bytes (bytes_of_string (Path r)) ∉ lock a ->
  db a !! bytes_of_string (Path r) = Some v ->
  get_fault w = false ->
  delete_fault w = true ->
  backend w = Some (204, body) ->
  exists tr, serve a w r = (a, tr) /\ status_of tr = 204.
Proof.
  intros HM HQ Hfree Hv Hg Hd Hb.
  rewrite serve_unlocked by auto. cbv zeta. rewrite switch_DELETE by assumption.
  unfold serve_DELETE. cbn [bind call run handle db]. rewrite Hg, Hv. cbv iota beta.
  cbn [bind call run handle]. rewrite Hd. rewrite run_bind, run_remote_delete, Hb.
  cbn [Z.eqb Pos.eqb call run handle app].
  rewrite unlock_after_lock, app_eta by assumption.
  eexists. split; reflexivity.
Qed.

(** C8 fails on the code.  The error of the store's delete is dropped, so
    a DELETE that holds the lock, on a key whose record the lookup
    returns, completes while the record is still there when the store's
    delete fails: the store's delete is still tried before the backend
    request, the answer is 204 when the backend answers 204 and 500
    otherwise, the state is exactly as before, and a later GET or HEAD of
    the key, whose lookup works, is answered 302, not 404. *)
Theorem delete_fault_keeps_record
    (a : App) (w : env) (r : Request) (v : list byte) :
  Method r = "DELETE"%string ->
  RawQuery r = EmptyString ->
  string_of_bytes (bytes_of_string (Path r)) ∉ lock a ->
  db a !! bytes_of_string (Path r) = Some v ->
  get_fault w = false ->
  delete_fault w = true ->
  let key := bytes_of_string (Path r) in
  let code :=
    match backend w with
    | Some (204, _) => 204
    | _ => 500
    end in
  serve a w r
  = (a, [Ev (ELockKey key) true;
         Ev (EDbGet key) (v, None);
         Ev (EDbDelete key) (Some ErrOther);
         Ev (EHttp "DELETE" ("http://" ++ string_of_bytes v ++ key2path key) None [])
            (backend w);
         Ev (EWriteHeader code) tt;
         Ev (EUnlockKey key) tt])
  /\ db (fst (serve a w r)) !! key = Some v
  /\ forall (w' : env) (r' : Request),
       RawQuery r' = EmptyString ->
       (Method r' = "GET" \/ Method r' = "HEAD")%string ->
       Path r' = Path r ->
       get_fault w' = false ->
       status_of (snd (serve (fst (serve a w r)) w' r')) = 302.
Proof.
  intros HM HQ Hfree Hv Hg Hd key code. subst key code.
  assert (Hs : serve a w r
    = (a, [Ev (ELockKey (bytes_of_string (Path r))) true;
           Ev (EDbGet (bytes_of_string (Path r))) (v, None);
           Ev (EDbDelete (bytes_of_string (Path r))) (Some ErrOther);
           Ev (EHttp "DELETE"
                 ("http://" ++ string_of_bytes v ++ key2path (bytes_of_string (Path r)))
                 None []) (backend w);
           Ev (EWriteHeader match backend w with
                            | Some (204, _) => 204
                            | _ => 500
                            end) tt;
           Ev (EUnlockKey (bytes_of_string (Path r))) tt])).
  { rewrite serve_unlocked by auto. cbv zeta. rewrite switch_DELETE by assumption.
    unfold serve_DELETE. cbn [bind call run handle db]. rewrite Hg, Hv. cbv iota beta.
    cbn [bind call run handle]. rewrite Hd. rewrite run_bind, run_remote_delete.
    destruct (backend w) as [[c body]|]; [destruct (Z.eqb_spec c 204) as [->|Hc]|];
      cbn [call run handle app]; rewrite unlock_after_lock, app_eta by assumption;
      try reflexivity.
    destruct c as [|p|p]; try reflexivity.
    repeat (destruct p as [p|p|]; try reflexivity). contradiction. }
  rewrite Hs. cbn [fst]. split; [reflexivity|]. split; [exact Hv|].
  intros w' r' HQ' HM' HP Hg'. rewrite serve_read by assumption.
  unfold serve_GET. cbn [bind call run handle db]. rewrite Hg', HP, Hv. cbv iota beta.
  destruct (negb _); reflexivity.
Qed.

Lemma delete_fault_keeps_record_witness :
  let a := app_stored in
  let w := env_delete_fault in
  let r := request "DELETE" "/a" 0 in
  status_of (snd (serve a w r)) = 204
  /\ db (fst (serve a w r)) !! bytes_of_string "/a" = Some (bytes_of_string "localhost:3001")
  /\ status_of (snd (serve (fst (serve a w r)) env_healthy (request "GET" "/a" 0))) = 302.
Proof.
  destruct (delete_fault_keeps_record app_stored env_delete_fault (request "DELETE" "/a" 0)
              (bytes_of_string "localhost:3001") eq_refl eq_refl (not_elem_of_empty _))
    as (Hs & Hrec & Hfetch).
  - vm_compute. reflexivity.
  - reflexivity.
  - reflexivity.
  - split; [rewrite Hs; reflexivity|]. split; [exact Hrec|].
    apply Hfetch; [reflexivity | left; reflexivity | reflexivity | reflexivity].
Defined.

(** C9 fails on the code.  With the record of "/a" present, a store
    whose delete fails and a backend that answers 204, the DELETE is
    answered 204 and the record is still there; a PUT whose lookup fails
    is answered 403; a GET whose lookup fails is answered 302. *)
Theorem store_faults_not_reported :
  (let '(a', tr) := serve app_stored env_delete_fault (request "DELETE" "/a" 0) in
   status_of tr = 204
   /\ db a' !! bytes_of_string "/a" = Some (bytes_of_string "localhost:3001"))
  /\ status_of (snd (serve app_empty env_get_fault (request "PUT" "/a" 5))) = 403
  /\ (let '(_, tr) := serve app_empty env_get_fault (request "GET" "/a" 0) in
      status_of tr = 302
      /\ headers_of tr !! "Location"%string = Some "http:///06/39/L2E="%string).
Proof. vm_compute. repeat split; reflexivity. Qed.

(** ** The empty pool *)

Lemma key2volume_nil (key : list byte) : key2volume key [] = EmptyString.
Proof. reflexivity. Qed.

(** C10. Over the empty pool [key2volume] returns the empty string, and
    a create that reaches the placement (lock free, payload not empty,
    no record) sends its PUT to the URL built from the empty backend
    name: it answers 201 and records the empty name when the backend
    accepts and the store writes, 500 otherwise. *)
Theorem create_on_empty_pool (a : App) (w : env) (r : Request) :
  volumes a = [] ->
  Method r = "PUT"%string ->
  RawQuery r = EmptyString ->
  ContentLength r <> 0 ->
  string_of_bytes (bytes_of_string (Path r)) ∉ lock a ->
  db a !! bytes_of_string (Path r) = None ->
  get_fault w = false ->
  let key := bytes_of_string (Path r) in
  let accepted :=
    match backend w with
    | Some (code, _) => (code =? 201) || (code =? 204)
    | None => false
    end in
  key2volume key (volumes a) = EmptyString
  /\ exists a' tr,
       serve a w r = (a', tr)
       /\ backend_calls tr = [("PUT", "http://" ++ EmptyString ++ key2path key)%string]
       /\ status_of tr = (if accepted && negb (put_fault w) then 201 else 500)
       /\ a' = (if accepted && negb (put_fault w)
                then mkApp (<[key := []]> (db a)) (lock a) (volumes a)
                else a).
Proof.
  intros Hvol HM HQ HL Hfree Hv Hg key accepted. subst key accepted.
  assert (Hk : key2volume (bytes_of_string (Path r)) (volumes a) = EmptyString)
    by (rewrite Hvol; apply key2volume_nil).
  split; [exact Hk|].
  rewrite serve_unlocked by auto. cbv zeta. rewrite switch_PUT by assumption.
  unfold serve_PUT. destruct (Z.eqb_spec (ContentLength r) 0) as [H0|_]; [contradiction|].
  cbn [bind call run handle db]. rewrite Hg, Hv. cbv iota beta.
  rewrite Hk, run_bind, run_remote_put.
  change (bytes_of_string EmptyString) with (@nil byte).
  destruct (backend w) as [[code body]|].
  - destruct (code =? 201), (code =? 204); cbn [negb andb orb];
      cbn [bind call run handle]; destruct (put_fault w);
      cbn [call run handle app negb db lock volumes];
      rewrite unlock_after_lock by assumption; rewrite ?app_eta;
      eexists _, _; repeat split; reflexivity.
  - cbn [call run handle app andb]. rewrite unlock_after_lock, app_eta by assumption.
    eexists _, _; repeat split; reflexivity.
Qed.

Lemma create_on_empty_pool_witness :
  let a := mkApp ∅ ∅ [] in
  let key := bytes_of_string "/a" in
  key2volume key (volumes a) = EmptyString
  /\ exists a' tr,
       serve a env_backend_down (request "PUT" "/a" 5) = (a', tr)
       /\ backend_calls tr = [("PUT", "http://" ++ EmptyString ++ key2path key)%string]
       /\ status_of tr = 500
       /\ a' = a.
Proof.
  apply (create_on_empty_pool (mkApp ∅ ∅ []) env_backend_down (request "PUT" "/a" 5)).
  - reflexivity.
  - reflexivity.
  - reflexivity.
  - discriminate.
  - apply not_elem_of_empty.
  - vm_compute. reflexivity.
  - reflexivity.
Defined.

Example create_on_empty_pool_url :
  backend_calls (snd (serve (mkApp ∅ ∅ []) env_backend_down (request "PUT" "/a" 5)))
  = [("PUT", "http:///06/39/L2E=")]%string.
Proof. vm_compute. reflexivity. Qed.

(** ** Requests in flight together: the lock table *)

Lemma holds_snoc (tr : list event) (ev : event) :
  holds (tr ++ [ev]) = held_step (holds tr) ev.
Proof. unfold holds. rewrite fold_left_app. reflexivity. Qed.

Lemma held_step_no_lock_op (h : gset string) {X : Type} (e : eff X) (x : X) :
  no_lock_op e -> held_step h (Ev e x) = h.
Proof. destruct e; cbn; intros H; (reflexivity || contradiction). Qed.

Lemma lock_ok_no_lock_op (h : gset string) {X : Type} (e : eff X) :
  no_lock_op e -> lock_ok h e.
Proof. destruct e; cbn; intros H; (exact I || contradiction). Qed.

Lemma handle_no_lock_op (w : env) (a : App) {X : Type} (e : eff X) :
  no_lock_op e -> lock (snd (handle w a e)) = lock a.
Proof.
  destruct e; cbn; intros H; try reflexivity; try contradiction.
  - destruct (get_fault w); [reflexivity|]. destruct (db a !! key); reflexivity.
  - destruct (put_fault w); reflexivity.
  - destruct (delete_fault w); reflexivity.
Qed.

Lemma disciplined_bind {R S : Type} (h : gset string) (p : prog R) (f : R -> prog S) :
  lock_free p -> (forall x, disciplined h (f x)) -> disciplined h (bind p f).
Proof.
  induction p as [r|X e k IH]; cbn [bind lock_free disciplined]; intros Hp Hf.
  - apply Hf.
  - destruct Hp as [He Hk]. split; [apply lock_ok_no_lock_op, He|].
    intros x. rewrite held_step_no_lock_op by exact He. apply IH; [apply Hk|exact Hf].
Qed.

Lemma lock_free_bind {R S : Type} (p : prog R) (f : R -> prog S) :
  lock_free p -> (forall x, lock_free (f x)) -> lock_free (bind p f).
Proof.
  induction p as [r|X e k IH]; cbn [bind lock_free]; intros Hp Hf.
  - apply Hf.
  - destruct Hp as [He Hk]. split; [exact He|]. intros x. apply IH; [apply Hk|exact Hf].
Qed.

Lemma lock_free_disciplined {R : Type} (h : gset string) (p : prog R) :
  lock_free p -> disciplined h p.
Proof.
  induction p as [r|X e k IH]; cbn [lock_free disciplined]; [auto|].
  intros [He Hk]. split; [apply lock_ok_no_lock_op, He|].
  intros x. rewrite held_step_no_lock_op by exact He. apply IH, Hk.
Qed.

Lemma lock_free_remote_put (remote : string) (len : Z) (body : list byte) :
  lock_free (remote_put remote len body).
Proof.
  unfold remote_put. cbn. split; [exact I|].
  intros [[code rbody]|]; [|exact I]. destruct (_ && _); exact I.
Qed.

Lemma lock_free_remote_delete (remote : string) : lock_free (remote_delete remote).
Proof.
  unfold remote_delete. cbn. split; [exact I|].
  intros [[code rbody]|]; [|exact I]. destruct (negb _); exact I.
Qed.

Ltac lock_free_tac :=
  repeat first
    [ exact I
    | progress cbn [lock_free no_lock_op bind call]
    | split
    | match goal with
      | |- lock_free (remote_put _ _ _) => apply lock_free_remote_put
      | |- lock_free (remote_delete _) => apply lock_free_remote_delete
      | |- forall _, _ => intros ?
      | |- lock_free (match ?x with _ => _ end) => destruct x
      | |- lock_free (if ?b then _ else _) => destruct b
      | |- lock_free (let '(_, _) := ?x in _) => destruct x
      | |- lock_free (bind _ _) => apply lock_free_bind
      end ].

Lemma lock_free_serve_switch (vols : list string) (key : list byte) (r : Request) :
  lock_free (serve_switch vols key r).
Proof.
  unfold serve_switch, serve_GET, serve_PUT, serve_DELETE. lock_free_tac.
Qed.

Lemma lock_free_ListQueryHandler (key : list byte) (r : Request) :
  lock_free (ListQueryHandler key r).
Proof. unfold ListQueryHandler. lock_free_tac. Qed.

(** [ServeHTTP] takes the lock of its key at most once, before the
    switch, and gives it back after it. *)
Lemma ServeHTTP_disciplined (vols : list string) (r : Request) :
  disciplined ∅ (ServeHTTP vols r).
Proof.
  unfold ServeHTTP. cbv zeta.
  destruct (0 <? String.length (RawQuery r))%nat.
  - destruct (negb _).
    + cbn. auto.
    + apply lock_free_disciplined, lock_free_ListQueryHandler.
  - destruct (_ || _).
    + cbn [bind call disciplined lock_ok]. split; [apply not_elem_of_empty|].
      intros [|]; cbn [negb held_step].
      * apply disciplined_bind; [apply lock_free_serve_switch|].
        intros _. cbn. split; [|auto].
        apply elem_of_union_l, elem_of_singleton. reflexivity.
      * cbn. auto.
    + apply lock_free_disciplined, lock_free_serve_switch.
Qed.

Lemma step_thread_inv (i : nat) (a a' : App) (ths ths' : list thread) :
  step_thread i (a, ths) = Some (a', ths') ->
  exists (th : thread) (X : Type) (e : eff X) (k : X -> prog unit) (x : X),
    ths !! i = Some th
    /\ t_code th = Vis e k
    /\ handle (t_env th) a e = (x, a')
    /\ ths' = <[i := mkThread (t_env th) (k x) (t_trace th ++ [Ev e x])]> ths.
Proof.
  unfold step_thread. destruct (ths !! i) as [th|] eqn:Hi; [|discriminate].
  destruct (t_code th) as [u|X e k] eqn:Hc; [discriminate|].
  destruct (handle (t_env th) a e) as [x a1] eqn:Hh.
  intros H. injection H as <- <-. exists th, X, e, k, x. auto.
Qed.

Lemma lock_sets_acquire (s : string) (h L : gset string) :
  s ∉ L -> h ⊆ L ->
  {[ s ]} ∪ h ⊆ {[ s ]} ∪ L
  /\ forall g : gset string, g ⊆ L -> g ## h -> g ⊆ {[ s ]} ∪ L /\ g ## {[ s ]} ∪ h.
Proof.
  intros Hs Hsub. split.
  - intros y Hy. apply elem_of_union in Hy as [Hy|Hy]; apply elem_of_union;
      [left | right; apply Hsub]; exact Hy.
  - intros g Hg Hd. split.
    + intros y Hy. apply elem_of_union. right. apply Hg, Hy.
    + apply elem_of_disjoint. intros y Hy1 Hy2.
      apply elem_of_union in Hy2 as [Hy2|Hy2].
      * apply elem_of_singleton in Hy2. subst y. apply Hs, Hg, Hy1.
      * exact (proj1 (elem_of_disjoint g h) Hd y Hy1 Hy2).
Qed.

Lemma lock_sets_release (s : string) (h L : gset string) :
  s ∈ h -> h ⊆ L ->
  h ∖ {[ s ]} ⊆ L ∖ {[ s ]}
  /\ forall g : gset string, g ⊆ L -> g ## h -> g ⊆ L ∖ {[ s ]} /\ g ## h ∖ {[ s ]}.
Proof.
  intros Hs Hsub. split.
  - intros y Hy. apply elem_of_difference in Hy as [Hy Hne].
    apply elem_of_difference. split; [apply Hsub, Hy | exact Hne].
  - intros g Hg Hd. split.
    + intros y Hy. apply elem_of_difference. split; [apply Hg, Hy|].
      intros Hy'. apply elem_of_singleton in Hy'. subst y.
      exact (proj1 (elem_of_disjoint g h) Hd s Hy Hs).
    + apply elem_of_disjoint. intros y Hy1 Hy2.
      apply elem_of_difference in Hy2 as [Hy2 _].
      exact (proj1 (elem_of_disjoint g h) Hd y Hy1 Hy2).
Qed.

(** What one operation does to the keys held by its thread, to the lock
    table, and to the keys [g] held by another thread. *)
Lemma held_step_sound (w : env) (a a' : App) {X : Type} (e : eff X) (x : X)
    (h : gset string) :
  lock_ok h e ->
  h ⊆ lock a ->
  handle w a e = (x, a') ->
  held_step h (Ev e x) ⊆ lock a'
  /\ forall g : gset string, g ⊆ lock a -> g ## h ->
       g ⊆ lock a' /\ g ## held_step h (Ev e x).
Proof.
  intros Hok Hsub Hh.
  destruct e; cbn [handle held_step lock_ok] in *;
    try (assert (a' = a) as -> by congruence; split; [exact Hsub | intros g Hg Hd; split; assumption]).
  - unfold LockKey in Hh. destruct (decide (string_of_bytes key ∈ lock a)) as [Hin|Hnin];
      injection Hh as <- <-; cbn [lock].
    + split; [exact Hsub | intros g Hg Hd; split; assumption].
    + apply lock_sets_acquire; assumption.
  - assert (a' = UnlockKey a key) as -> by congruence. unfold UnlockKey. cbn [lock].
    apply lock_sets_release; assumption.
  - destruct (get_fault w); [|destruct (db a !! key)]; injection Hh as <- <-;
      (split; [exact Hsub | intros g Hg Hd; split; assumption]).
  - destruct (put_fault w); injection Hh as <- <-; cbn [lock];
      (split; [exact Hsub | intros g Hg Hd; split; assumption]).
  - destruct (delete_fault w); injection Hh as <- <-; cbn [lock];
      (split; [exact Hsub | intros g Hg Hd; split; assumption]).
Qed.

Lemma lock_inv_start (a : App) (reqs : list (env * Request)) : lock_inv (start a reqs).
Proof.
  unfold start, lock_inv. cbn [fst snd]. split.
  - intros i th Hi. apply list_lookup_fmap_Some in Hi as (wr & -> & _).
    cbn [spawn t_trace t_code holds fold_left].
    split; [apply ServeHTTP_disciplined | apply empty_subseteq].
  - intros i j thi thj _ Hi _. apply list_lookup_fmap_Some in Hi as (wr & -> & _).
    cbn [spawn t_trace holds fold_left]. apply disjoint_empty_l.
Qed.

Lemma lock_inv_step (c c' : App * list thread) :
  lock_inv c -> cstep c c' -> lock_inv c'.
Proof.
  destruct c as [a ths], c' as [a' ths']. intros [Hth Hdisj] [i Hstep].
  apply step_thread_inv in Hstep as (th & X & e & k & x & Hi & Hc & Hh & ->).
  cbn [fst snd] in *.
  destruct (Hth i th Hi) as [Hdis Hsub]. rewrite Hc in Hdis.
  cbn [disciplined] in Hdis. destruct Hdis as [Hok Hk].
  destruct (held_step_sound _ _ _ _ _ _ Hok Hsub Hh) as [Hsub' Hothers].
  assert (Hother : forall j thj, i <> j -> ths !! j = Some thj ->
            holds (t_trace thj) ⊆ lock a'
            /\ holds (t_trace thj) ## held_step (holds (t_trace th)) (Ev e x)).
  { intros j thj Hij Hj. apply Hothers; [apply (Hth j thj Hj)|].
    apply (Hdisj j i thj th); auto. }
  split.
  - intros j thj Hj. apply list_lookup_insert_Some in Hj as [(<- & <- & _)|(Hij & Hj)].
    + cbn [t_trace t_code]. rewrite holds_snoc. split; [apply Hk | exact Hsub'].
    + split; [apply (Hth j thj Hj) | apply (Hother j thj Hij Hj)].
  - intros j l thj thl Hjl Hj Hl.
    apply list_lookup_insert_Some in Hj as [(<- & <- & _)|(Hij & Hj)];
      apply list_lookup_insert_Some in Hl as [(<- & <- & _)|(Hil & Hl)];
      cbn [t_trace]; rewrite ?holds_snoc.
    + contradiction.
    + symmetry. apply (Hother l thl Hil Hl).
    + apply (Hother j thj Hij Hj).
    + apply (Hdisj j l thj thl); auto.
Qed.

Lemma lock_inv_reachable (a : App) (reqs : list (env * Request)) (c : App * list thread) :
  rtc cstep (start a reqs) c -> lock_inv c.
Proof.
  intros Hrtc. pose proof (lock_inv_start a reqs) as H0.
  induction Hrtc as [c|c1 c2 c3 Hstep _ IH]; [exact H0|].
  apply IH. exact (lock_inv_step _ _ H0 Hstep).
Qed.

Lemma run_schedule_reachable (sched : list nat) : forall c c',
  run_schedule sched c = Some c' -> rtc cstep c c'.
Proof.
  induction sched as [|i sched IH]; intros c c'; cbn [run_schedule].
  - intros [= <-]. apply rtc_refl.
  - destruct (step_thread i c) as [c1|] eqn:Hs; [|discriminate].
    intros H. eapply rtc_l; [exists i; exact Hs | apply IH, H].
Qed.

(** ** Requests in flight together: creates on one key *)

Lemma track_snoc (key : list byte) (tr : list event) (ev : event) :
  track key (tr ++ [ev])
  = match track key tr with
    | Some ph => monitor key ph ev
    | None => None
    end.
Proof. unfold track. rewrite fold_left_app. reflexivity. Qed.

Lemma track_from_None (key : list byte) (tr : list event) : track_from key None tr = None.
Proof. induction tr as [|ev tr IH]; [reflexivity|exact IH]. Qed.

Lemma monitor_wrote (key : list byte) (ph ph' : phase) (ev : event) :
  monitor key ph ev = Some ph' -> wrote ph = true -> wrote ph' = true.
Proof.
  destruct ev as [X e x]. destruct e, ph as [| | |w|w]; cbn [monitor wrote];
    try discriminate; intros Hm Hw; subst;
    repeat case_bool_decide; try discriminate;
    try (injection Hm as <-; reflexivity).
  destruct (code =? 201); injection Hm as <-; reflexivity.
  destruct (code =? 201); injection Hm as <-; reflexivity.
Qed.

(** The four kinds of step of a create: one that leaves the state and
    the holding and writing status alone; taking the free lock; giving
    the lock back; writing the record after a not-found lookup. *)
Lemma monitor_step (key : list byte) (w : env) (a a' : App)
    {X : Type} (e : eff X) (x : X) (ph ph' : phase) :
  monitor key ph (Ev e x) = Some ph' ->
  handle w a e = (x, a') ->
  (a' = a /\ holding ph' = holding ph /\ wrote ph' = wrote ph
   /\ (ph' = Absent -> ph = Absent \/ db a !! key = None))
  \/ (ph = Idle /\ ph' = Holding /\ (string_of_bytes key ∉ lock a)
      /\ a' = mkApp (db a) ({[ string_of_bytes key ]} ∪ lock a) (volumes a))
  \/ (holding ph = true /\ holding ph' = false /\ wrote ph' = wrote ph
      /\ a' = UnlockKey a key)
  \/ (ph = Absent /\ ph' = Closed true
      /\ exists v, a' = mkApp (<[key := v]> (db a)) (lock a) (volumes a)).
Proof.
  intros Hm Hh.
  assert (Hsame : a' = a -> ph' = ph ->
            (a' = a /\ holding ph' = holding ph /\ wrote ph' = wrote ph
             /\ (ph' = Absent -> ph = Absent \/ db a !! key = None)))
    by (intros -> ->; auto).
  destruct e; cbn [monitor handle] in Hm, Hh;
    try (left; apply Hsame; congruence).
  - (* LockKey *)
    destruct ph; try discriminate. case_bool_decide; [subst key0|discriminate].
    unfold LockKey in Hh.
    destruct (decide (string_of_bytes key ∈ lock a)) as [Hin|Hfree];
      injection Hh as <- <-; injection Hm as <-.
    + left. repeat split; auto; discriminate.
    + right. left. auto.
  - (* UnlockKey *)
    case_bool_decide; [subst key0|discriminate].
    assert (a' = UnlockKey a key) as -> by congruence.
    right. right. left.
    destruct ph; try discriminate; injection Hm as <-; auto.
  - (* db.Get *)
    destruct ph; try discriminate. case_bool_decide; [subst key0|discriminate].
    left. destruct (get_fault w).
    + injection Hh as <- <-. injection Hm as <-. repeat split; auto; discriminate.
    + destruct (db a !! key) as [v|] eqn:Hv; injection Hh as <- <-; injection Hm as <-;
        repeat split; auto; discriminate.
  - (* db.Put *)
    destruct ph; try discriminate. case_bool_decide; [subst key0|discriminate].
    destruct (put_fault w); injection Hh as <- <-; injection Hm as <-.
    + left. repeat split; auto; discriminate.
    + right. right. right. eauto.
  - (* WriteHeader *)
    left. assert (a' = a) as -> by congruence.
    destruct (code =? 201); [destruct (wrote ph); [|discriminate]|];
      injection Hm as <-; auto.
Qed.

Ltac conforms_case x :=
  lazymatch x with
  | bool_decide _ => rewrite bool_decide_eq_true_2 by reflexivity
  | _ => destruct x
  end.

Ltac conforms_tac :=
  repeat first
    [ exact I
    | progress cbn [conforms monitor bind call wrote snd negb Z.eqb Pos.eqb]
    | match goal with
      | |- forall x : bool, _ => intros [|]
      | |- forall x : option _, _ => intros [?|]
      | |- forall x : _ * _, _ => intros [? ?]
      | |- forall _, _ => intros ?
      | |- conforms _ _ (match ?x with _ => _ end) => conforms_case x
      | |- conforms _ _ (bind (match ?x with _ => _ end) _) => conforms_case x
      | |- match (match ?x with _ => _ end) with _ => _ end => conforms_case x
      | |- match (match (match ?x with _ => _ end) with _ => _ end) with _ => _ end =>
          conforms_case x
      | |- context [match ?x with _ => _ end] => is_var x; destruct x
      | |- context [if ?b then _ else _] => conforms_case b
      end ].

(** A create follows the course of a create on its key. *)
Lemma ServeHTTP_create_conforms (vols : list string) (key : list byte) (r : Request) :
  is_create key r -> conforms key Idle (ServeHTTP vols r).
Proof.
  intros (HM & HQ & <-). unfold ServeHTTP. rewrite HQ, HM.
  cbn [String.length Nat.ltb Nat.leb String.eqb Ascii.eqb Bool.eqb orb].
  cbv zeta. unfold serve_switch. rewrite HM.
  cbn [String.eqb Ascii.eqb Bool.eqb orb].
  unfold serve_PUT, remote_put.
  conforms_tac.
Qed.

(** What a step of a create in phase [ph] keeps true of itself and of
    another create in phase [phj]. *)
Lemma create_step_facts (key : list byte) (w : env) (a a' : App)
    {X : Type} (e : eff X) (x : X) (ph ph' : phase) :
  monitor key ph (Ev e x) = Some ph' ->
  handle w a e = (x, a') ->
  (holding ph = true -> string_of_bytes key ∈ lock a) ->
  (ph = Absent -> db a !! key = None) ->
  (wrote ph = true -> is_Some (db a !! key)) ->
  ((holding ph' = true -> string_of_bytes key ∈ lock a')
   /\ (ph' = Absent -> db a' !! key = None)
   /\ (wrote ph' = true -> is_Some (db a' !! key)))
  /\ forall phj : phase,
       (holding phj = true -> string_of_bytes key ∈ lock a) ->
       (phj = Absent -> db a !! key = None) ->
       (wrote phj = true -> is_Some (db a !! key)) ->
       (holding ph = true -> holding phj = false) ->
       (wrote ph = true -> wrote phj = false) ->
       (holding phj = true -> string_of_bytes key ∈ lock a')
       /\ (phj = Absent -> db a' !! key = None)
       /\ (wrote phj = true -> is_Some (db a' !! key))
       /\ (holding ph' = true -> holding phj = false)
       /\ (wrote ph' = true -> wrote phj = false).
Proof.
  intros Hm Hh HL HA HW.
  destruct (monitor_step key w a a' e x ph ph' Hm Hh)
    as [(-> & Hhold & Hwr & Habs)
       |[(-> & -> & Hfree & ->)
        |[(Hhold & Hrel & Hwr & ->)
         |(-> & -> & v & ->)]]].
  - (* the state is as before *)
    rewrite Hhold, Hwr. split.
    + split; [exact HL|]. split; [|exact HW].
      intros Hp. destruct (Habs Hp) as [Hq|Hq]; [apply HA, Hq | exact Hq].
    + intros phj HLj HAj HWj Hex Hwx. auto.
  - (* the lock is taken *)
    cbn [lock db holding wrote]. split.
    + split; [intros _; apply elem_of_union_l, elem_of_singleton; reflexivity|].
      split; [discriminate|discriminate].
    + intros phj HLj HAj HWj Hex Hwx. split; [|split; [exact HAj|split; [exact HWj|split]]].
      * intros Hj. apply elem_of_union_r, HLj, Hj.
      * intros _. destruct (holding phj) eqn:Hj; [|reflexivity].
        destruct (Hfree (HLj eq_refl)).
      * discriminate.
  - (* the lock is given back *)
    unfold UnlockKey. cbn [lock db]. rewrite Hrel, Hwr. split.
    + split; [discriminate|]. split; [|exact HW].
      intros ->. discriminate Hrel.
    + intros phj HLj HAj HWj Hex Hwx.
      split; [|split; [exact HAj|split; [exact HWj|split; [discriminate|exact Hwx]]]].
      intros Hj. rewrite (Hex Hhold) in Hj. discriminate Hj.
  - (* the record is written *)
    cbn [lock db holding wrote]. split.
    + split; [intros _; apply HL; reflexivity|].
      split; [discriminate|]. intros _. rewrite lookup_insert_eq. eauto.
    + intros phj HLj HAj HWj Hex Hwx.
      assert (Hnj : holding phj = false) by (apply Hex; reflexivity).
      split; [exact HLj|]. split; [intros ->; discriminate Hnj|].
      split; [intros _; rewrite lookup_insert_eq; eauto|].
      split; [intros _; exact Hnj|]. intros _.
      destruct (wrote phj) eqn:Hwj; [|reflexivity].
      destruct (HWj eq_refl) as [v' Hv']. rewrite (HA eq_refl) in Hv'. discriminate Hv'.
Qed.

Lemma create_inv_start (key : list byte) (a : App) (reqs : list (env * Request)) :
  (forall wr, In wr reqs -> is_create key (snd wr)) ->
  create_inv key (start a reqs).
Proof.
  intros Hall. unfold start, create_inv. cbn [fst snd]. split.
  - intros i th Hi. apply list_lookup_fmap_Some in Hi as (wr & -> & Hwr).
    exists Idle. cbn [spawn t_trace t_code]. split; [reflexivity|].
    split; [|repeat split; discriminate].
    apply ServeHTTP_create_conforms, Hall.
    apply list_elem_of_In, list_elem_of_lookup. eauto.
  - intros i j thi thj phi phj _ Hi Hj Hpi Hpj.
    apply list_lookup_fmap_Some in Hi as (wi & -> & _).
    apply list_lookup_fmap_Some in Hj as (wj & -> & _).
    cbn in Hpi, Hpj. injection Hpi as <-. injection Hpj as <-.
    split; discriminate.
Qed.

Lemma create_inv_step (key : list byte) (c c' : App * list thread) :
  create_inv key c -> cstep c c' -> create_inv key c'.
Proof.
  destruct c as [a ths], c' as [a' ths']. intros [Hth Hpair] [i Hstep].
  apply step_thread_inv in Hstep as (th & X & e & k & x & Hi & Hc & Hh & ->).
  cbn [fst snd] in *.
  destruct (Hth i th Hi) as (ph & Htr & Hconf & HL & HA & HW).
  rewrite Hc in Hconf. cbn [conforms] in Hconf. specialize (Hconf x).
  destruct (monitor key ph (Ev e x)) as [ph'|] eqn:Hm; [|contradiction].
  destruct (create_step_facts key _ a a' e x ph ph' Hm Hh HL HA HW) as [Hown Hframe].
  assert (Htr' : track key (t_trace th ++ [Ev e x]) = Some ph')
    by (rewrite track_snoc, Htr; exact Hm).
  assert (Hother : forall j thj phj, i <> j -> ths !! j = Some thj ->
            track key (t_trace thj) = Some phj ->
            (holding phj = true -> string_of_bytes key ∈ lock a')
            /\ (phj = Absent -> db a' !! key = None)
            /\ (wrote phj = true -> is_Some (db a' !! key))
            /\ (holding ph' = true -> holding phj = false)
            /\ (wrote ph' = true -> wrote phj = false)).
  { intros j thj phj Hij Hj Hpj.
    destruct (Hth j thj Hj) as (phj' & Htrj & _ & HLj & HAj & HWj).
    rewrite Hpj in Htrj. injection Htrj as <-.
    destruct (Hpair i j th thj ph phj Hij Hi Hj Htr Hpj) as [Hex Hwx].
    apply Hframe; assumption. }
  split.
  - intros j thj Hj. apply list_lookup_insert_Some in Hj as [(<- & <- & _)|(Hij & Hj)].
    + exists ph'. cbn [t_trace t_code]. split; [exact Htr'|]. split; [exact Hconf|exact Hown].
    + destruct (Hth j thj Hj) as (phj & Htrj & Hconfj & _).
      destruct (Hother j thj phj Hij Hj Htrj) as (H1 & H2 & H3 & _).
      exists phj. auto.
  - intros j l thj thl phj phl Hjl Hj Hl Hpj Hpl.
    apply list_lookup_insert_Some in Hj as [(<- & <- & _)|(Hij & Hj)];
      apply list_lookup_insert_Some in Hl as [(<- & <- & _)|(Hil & Hl)];
      cbn [t_trace] in *.
    + contradiction.
    + rewrite Htr' in Hpj. injection Hpj as <-.
      destruct (Hother l thl phl Hil Hl Hpl) as (_ & _ & _ & H4 & H5). auto.
    + rewrite Htr' in Hpl. injection Hpl as <-.
      destruct (Hother j thj phj Hij Hj Hpj) as (_ & _ & _ & H4 & H5).
      split; intros Hq.
      * destruct (holding ph') eqn:Hp; [|reflexivity]. rewrite (H4 eq_refl) in Hq. discriminate.
      * destruct (wrote ph') eqn:Hp; [|reflexivity]. rewrite (H5 eq_refl) in Hq. discriminate.
    + apply (Hpair j l thj thl); assumption.
Qed.

Lemma create_inv_reachable (key : list byte) (a : App) (reqs : list (env * Request))
    (c : App * list thread) :
  (forall wr, In wr reqs -> is_create key (snd wr)) ->
  rtc cstep (start a reqs) c -> create_inv key c.
Proof.
  intros Hall Hrtc. pose proof (create_inv_start key a reqs Hall) as H0.
  induction Hrtc as [c|c1 c2 c3 Hstep _ IH]; [exact H0|].
  apply IH. exact (create_inv_step key _ _ H0 Hstep).
Qed.

(** A trace that answers 201, or that holds a write of the record the
    store carried out, leads to a phase that has written. *)
Lemma track_from_wrote (key : list byte) (tr : list event) : forall ph0 ph,
  track_from key (Some ph0) tr = Some ph ->
  (wrote ph0 = true -> wrote ph = true)
  /\ (status_of tr = 201 -> wrote ph = true)
  /\ (wrote_record key tr = true -> wrote ph = true).
Proof.
  induction tr as [|ev tr IH]; intros ph0 ph; cbn [track_from fold_left].
  - intros [= <-]. repeat split; [auto|discriminate|discriminate].
  - destruct (monitor key ph0 ev) as [ph1|] eqn:Hm;
      [|fold (track_from key None tr); rewrite track_from_None; discriminate].
    fold (track_from key (Some ph1) tr). intros Htr.
    destruct (IH ph1 ph Htr) as (Hmono & Hst & Hwr).
    pose proof (monitor_wrote key ph0 ph1 ev Hm) as Hmono1.
    split; [auto|]. split.
    + destruct ev as [X e x]. destruct e; cbn [status_of]; try exact Hst; try discriminate.
      intros ->. cbn [monitor] in Hm. cbn [Z.eqb Pos.eqb] in Hm.
      destruct (wrote ph0) eqn:Hw0; [|discriminate]. auto.
    + cbn [wrote_record existsb]. intros Hor. apply orb_true_iff in Hor as [Hput|Hrest].
      * apply Hmono. destruct ev as [X e x]. destruct e; cbn [put_ok] in Hput; try discriminate.
        apply andb_true_iff in Hput as [Hk Hx]. apply bool_decide_eq_true in Hk. subst key0.
        destruct x; [discriminate|]. cbn [monitor] in Hm.
        destruct ph0; try discriminate. rewrite bool_decide_eq_true_2 in Hm by reflexivity.
        injection Hm as <-. reflexivity.
      * apply Hwr. exact Hrest.
Qed.

(** ** Creates on one key under healthy environments *)

Lemma smonitor_monitor (key : list byte) (st st' : station) (ev : event) :
  smonitor key st ev = Some st' ->
  monitor key (phase_of st) ev = Some (phase_of st').
Proof.
  destruct ev as [X e x].
  destruct e, st as [| | | | | | |ans|ans]; cbn [smonitor monitor phase_of];
    try discriminate; intros Hm;
    repeat case_bool_decide; try discriminate.
  - destruct x; injection Hm as <-; reflexivity.
  - injection Hm as <-. destruct ans; reflexivity.
  - destruct (snd x) as [[|]|]; try discriminate; injection Hm as <-; reflexivity.
  - destruct x; [discriminate|]. injection Hm as <-. reflexivity.
  - destruct (accepted x); [|discriminate]. injection Hm as <-. reflexivity.
  - destruct (Z.eqb_spec code 409) as [->|]; [|discriminate].
    injection Hm as <-. reflexivity.
  - destruct (Z.eqb_spec code 201) as [->|]; [|discriminate].
    injection Hm as <-. reflexivity.
  - destruct (Z.eqb_spec code 403) as [->|]; [|discriminate].
    injection Hm as <-. reflexivity.
Qed.

Lemma strack_from_None (key : list byte) (tr : list event) :
  strack_from key None tr = None.
Proof. induction tr as [|ev tr IH]; [reflexivity|exact IH]. Qed.

Lemma strack_from_track (key : list byte) (tr : list event) : forall st0 st,
  strack_from key (Some st0) tr = Some st ->
  track_from key (Some (phase_of st0)) tr = Some (phase_of st).
Proof.
  induction tr as [|ev tr IH]; intros st0 st; cbn [strack_from track_from fold_left].
  - intros [= <-]. reflexivity.
  - destruct (smonitor key st0 ev) as [st1|] eqn:Hm;
      [|fold (strack_from key None tr); rewrite strack_from_None; discriminate].
    rewrite (smonitor_monitor key st0 st1 ev Hm). apply IH.
Qed.

Lemma strack_track (key : list byte) (tr : list event) (st : station) :
  strack key tr = Some st -> track key tr = Some (phase_of st).
Proof. apply (strack_from_track key tr SIdle st). Qed.

Lemma strack_snoc (key : list byte) (tr : list event) (ev : event) :
  strack key (tr ++ [ev])
  = match strack key tr with
    | Some st => smonitor key st ev
    | None => None
    end.
Proof. unfold strack, strack_from. rewrite fold_left_app. reflexivity. Qed.

Lemma handle_healthy (w : env) (a a' : App) {X : Type} (e : eff X) (x : X) :
  healthy w -> handle w a e = (x, a') -> healthy_result (Ev e x).
Proof.
  intros (Hg & Hp & Hb). destruct e; cbn [handle healthy_result]; try (intros; exact I).
  - rewrite Hg. destruct (db a !! key); intros [= <- _]; discriminate.
  - rewrite Hp. intros [= <- _]. reflexivity.
  - intros [= <- _]. exact Hb.
Qed.

(** The answer a finished course gave is the status of its trace. *)
Lemma smonitor_answered (key : list byte) (st st' : station) (ev : event) (ans : answer) :
  smonitor key st ev = Some st' ->
  (st = SAnswered ans \/ st = SFinished ans) ->
  st' = SAnswered ans \/ st' = SFinished ans.
Proof.
  destruct ev as [X e x]. intros Hm [-> | ->]; destruct e; cbn [smonitor] in Hm;
    try discriminate.
  case_bool_decide; [|discriminate]. injection Hm as <-. right. reflexivity.
Qed.

Lemma strack_from_answered (key : list byte) (tr : list event) (ans : answer) :
  forall st0 st,
    strack_from key (Some st0) tr = Some st ->
    (st0 = SAnswered ans \/ st0 = SFinished ans) ->
    st = SAnswered ans \/ st = SFinished ans.
Proof.
  induction tr as [|ev tr IH]; intros st0 st; cbn [strack_from fold_left].
  - intros [= <-] H. exact H.
  - destruct (smonitor key st0 ev) as [st1|] eqn:Hm;
      [|fold (strack_from key None tr); rewrite strack_from_None; discriminate].
    intros Htr H0. apply (IH st1 st Htr). exact (smonitor_answered _ _ _ _ _ Hm H0).
Qed.

Lemma strack_from_status (key : list byte) (tr : list event) (ans : answer) :
  forall st0 st,
    strack_from key (Some st0) tr = Some st ->
    (forall ans0, st0 <> SAnswered ans0 /\ st0 <> SFinished ans0) ->
    (st = SAnswered ans \/ st = SFinished ans) ->
    status_of tr = code_of ans.
Proof.
  induction tr as [|ev tr IH]; intros st0 st; cbn [strack_from fold_left].
  - intros [= <-] H0 [H|H]; destruct (H0 ans); contradiction.
  - destruct (smonitor key st0 ev) as [st1|] eqn:Hm;
      [|fold (strack_from key None tr); rewrite strack_from_None; discriminate].
    fold (strack_from key (Some st1) tr). intros Htr H0 Hst.
    destruct ev as [X e x].
    destruct e; cbn [smonitor] in Hm; cbn [status_of]; try discriminate;
      try (apply (IH st1 st Htr); [|exact Hst];
           destruct st0; try discriminate; repeat case_bool_decide; try discriminate;
           try (destruct x); try (destruct (snd _) as [[|]|]); try (destruct (accepted _));
           try discriminate;
           injection Hm as <-; intros ans0; split; discriminate).
    + (* UnlockKey *)
      destruct st0; try discriminate. destruct (H0 ans0) as [H _]. contradiction.
    + (* WriteHeader *)
      assert (Hans : exists ans1, (st1 = SAnswered ans1 \/ st1 = SFinished ans1)
                                  /\ code = code_of ans1).
      { destruct st0; try discriminate.
        - destruct (Z.eqb_spec code 409) as [->|]; [|discriminate].
          injection Hm as <-. exists Conflict. auto.
        - destruct (Z.eqb_spec code 201) as [->|]; [|discriminate].
          injection Hm as <-. exists Created. auto.
        - destruct (Z.eqb_spec code 403) as [->|]; [|discriminate].
          injection Hm as <-. exists Forbidden. auto. }
      destruct Hans as (ans1 & Hst1 & ->).
      pose proof (strack_from_answered key tr ans1 st1 st Htr Hst1) as Hst'.
      destruct Hst as [->| ->], Hst' as [H|H]; try discriminate H;
        injection H as <-; reflexivity.
Qed.

Lemma strack_status (key : list byte) (tr : list event) (ans : answer) :
  strack key tr = Some (SFinished ans) -> status_of tr = code_of ans.
Proof.
  intros Htr. apply (strack_from_status key tr ans SIdle (SFinished ans) Htr).
  - intros ans0. split; discriminate.
  - right. reflexivity.
Qed.

(** A create with a payload follows the course under a healthy
    environment. *)
Lemma ServeHTTP_create_sconforms (vols : list string) (key : list byte) (r : Request) :
  is_create key r -> ContentLength r <> 0 -> sconforms key SIdle (ServeHTTP vols r).
Proof.
  intros (HM & HQ & <-) HL. unfold ServeHTTP. rewrite HQ, HM.
  cbn [String.length Nat.ltb Nat.leb String.eqb Ascii.eqb Bool.eqb orb].
  cbv zeta. unfold serve_switch. rewrite HM.
  cbn [String.eqb Ascii.eqb Bool.eqb orb].
  unfold serve_PUT, remote_put.
  destruct (Z.eqb_spec (ContentLength r) 0) as [|_]; [contradiction|].
  cbn [sconforms smonitor bind call]. intros ok _.
  rewrite bool_decide_eq_true_2 by reflexivity. destruct ok; cbn [negb].
  - (* the lock is held *)
    cbn [sconforms smonitor bind call]. intros [v err] Hget.
    rewrite bool_decide_eq_true_2 by reflexivity. cbn [healthy_result snd] in *.
    destruct err as [[|]|]; [|contradiction|].
    + (* not found *)
      cbn [sconforms smonitor bind call]. intros resp Hresp.
      cbn [healthy_result] in Hresp. rewrite Hresp.
      destruct resp as [[code body]|]; [|discriminate Hresp]. cbn [accepted] in Hresp.
      assert (Hc : negb (code =? 201) && negb (code =? 204) = false).
      { destruct (code =? 201), (code =? 204); try reflexivity. discriminate Hresp. }
      rewrite Hc. cbn [sconforms smonitor bind call]. intros perr Hput.
      cbn [healthy_result] in Hput. subst perr.
      rewrite bool_decide_eq_true_2 by reflexivity.
      cbn [sconforms smonitor bind call Z.eqb Pos.eqb]. intros _ _.
      cbn [sconforms smonitor bind call]. intros _ _.
      rewrite bool_decide_eq_true_2 by reflexivity. cbn [sconforms]. eauto.
    + (* found *)
      cbn [sconforms smonitor bind call Z.eqb Pos.eqb]. intros _ _.
      cbn [sconforms smonitor bind call]. intros _ _.
      rewrite bool_decide_eq_true_2 by reflexivity. cbn [sconforms]. eauto.
  - (* the lock is refused *)
    cbn [sconforms smonitor bind call Z.eqb Pos.eqb]. intros _ _. cbn [sconforms]. eauto.
Qed.

Lemma smonitor_winning (key : list byte) (st st' : station) (ev : event) :
  smonitor key st ev = Some st' -> winning st = true -> winning st' = true.
Proof.
  destruct ev as [X e x].
  destruct e, st as [| | | | | | |[| |]|[| |]]; cbn [smonitor winning];
    try discriminate; intros Hm _; repeat case_bool_decide; try discriminate;
    try (injection Hm as <-; reflexivity).
  - destruct x; [discriminate|]. injection Hm as <-. reflexivity.
  - destruct (accepted x); [|discriminate]. injection Hm as <-. reflexivity.
  - destruct (code =? 201); [|discriminate]. injection Hm as <-. reflexivity.
Qed.

Lemma smonitor_not_idle (key : list byte) (st st' : station) (ev : event) :
  smonitor key st ev = Some st' -> st' <> SIdle.
Proof.
  destruct ev as [X e x].
  destruct e, st; cbn [smonitor]; try discriminate; intros Hm;
    repeat case_bool_decide; try discriminate;
    try (destruct x); try (destruct (snd _) as [[|]|]); try (destruct (accepted _));
    try (destruct (code =? _)); try discriminate;
    injection Hm as <-; discriminate.
Qed.

Lemma wrote_winning (st : station) : wrote (phase_of st) = true -> winning st = true.
Proof. destruct st as [| | | | | | |[| |]|[| |]]; cbn; congruence. Qed.

(** The first step of a create: the lock is taken when the key is free,
    refused when it is held. *)
Lemma smonitor_idle (key : list byte) (w : env) (a a' : App)
    {X : Type} (e : eff X) (x : X) (st' : station) :
  handle w a e = (x, a') ->
  smonitor key SIdle (Ev e x) = Some st' ->
  (st' = SHolding /\ db a' = db a)
  \/ (st' = SRefused /\ string_of_bytes key ∈ lock a /\ a' = a).
Proof.
  destruct e; cbn [smonitor handle]; try discriminate. intros Hh Hm.
  case_bool_decide; [subst key0|discriminate]. unfold LockKey in Hh.
  destruct (decide (string_of_bytes key ∈ lock a)) as [Hin|Hfree];
    injection Hh as <- <-; injection Hm as <-; auto.
Qed.

(** Under the lock, with the record absent, the lookup says not-found. *)
Lemma smonitor_holding_absent (key : list byte) (w : env) (a a' : App)
    {X : Type} (e : eff X) (x : X) (st' : station) :
  healthy w ->
  handle w a e = (x, a') ->
  smonitor key SHolding (Ev e x) = Some st' ->
  db a !! key = None ->
  st' = SAbsent.
Proof.
  intros (Hg & _ & _). destruct e; cbn [smonitor handle]; try discriminate.
  intros Hh Hm Hv. case_bool_decide; [subst key0|discriminate].
  rewrite Hg, Hv in Hh. injection Hh as <- <-. cbn [snd] in Hm. congruence.
Qed.

(** A thread with a property before the step gives a thread with the
    property after it. *)
Lemma station_witness_after (key : list byte) (ths : list thread) (i : nat)
    (th th' : thread) (st st' : station) (P Q : station -> Prop) :
  ths !! i = Some th ->
  strack key (t_trace th) = Some st ->
  strack key (t_trace th') = Some st' ->
  (P st -> Q st') ->
  (forall j thj s, i <> j -> ths !! j = Some thj ->
     strack key (t_trace thj) = Some s -> P s -> Q s) ->
  (exists j thj stj, ths !! j = Some thj /\ strack key (t_trace thj) = Some stj /\ P stj) ->
  exists j thj stj,
    <[i := th']> ths !! j = Some thj /\ strack key (t_trace thj) = Some stj /\ Q stj.
Proof.
  intros Hi Hst Hst' Hself Hothers (j & thj & stj & Hj & Hstj & HP).
  destruct (decide (i = j)) as [<-|Hij].
  - rewrite Hi in Hj. injection Hj as <-. rewrite Hst in Hstj. injection Hstj as <-.
    exists i, th', st'. split; [|auto].
    apply list_lookup_insert_eq. apply lookup_lt_Some in Hi. exact Hi.
  - exists j, thj, stj. split; [|eauto].
    rewrite list_lookup_insert_ne by exact Hij. exact Hj.
Qed.

Lemma healthy_inv_start (key : list byte) (a : App) (reqs : list (env * Request)) :
  (forall wr, In wr reqs ->
     healthy (fst wr) /\ is_create key (snd wr) /\ ContentLength (snd wr) <> 0) ->
  db a !! key = None ->
  string_of_bytes key ∉ lock a ->
  healthy_inv key (start a reqs).
Proof.
  intros Hall Hdb Hlock. unfold start, healthy_inv. cbn [fst snd].
  split; [|split; [|split]].
  - intros i th Hi. apply list_lookup_fmap_Some in Hi as (wr & -> & Hwr).
    assert (Hin : In wr reqs) by (apply list_elem_of_In, list_elem_of_lookup; eauto).
    destruct (Hall wr Hin) as (Hw & Hc & Hl). cbn [spawn t_env t_trace t_code].
    split; [exact Hw|]. exists SIdle. split; [reflexivity|].
    apply ServeHTTP_create_sconforms; assumption.
  - intros Hin. contradiction.
  - intros [v Hv]. rewrite Hdb in Hv. discriminate Hv.
  - intros (i & th & st & Hi & Hst & Hne).
    apply list_lookup_fmap_Some in Hi as (wr & -> & _).
    cbn in Hst. injection Hst as <-. contradiction.
Qed.

Lemma healthy_inv_step (key : list byte) (c c' : App * list thread) :
  create_inv key c -> healthy_inv key c -> cstep c c' -> healthy_inv key c'.
Proof.
  destruct c as [a ths], c' as [a' ths'].
  intros [_ Hcpair] (H1 & H2 & H3 & H4) [i Hstep].
  apply step_thread_inv in Hstep as (th & X & e & k & x & Hi & Hc & Hh & ->).
  cbn [fst snd] in *.
  destruct (H1 i th Hi) as (Hw & st & Hst & Hsc).
  rewrite Hc in Hsc. cbn [sconforms] in Hsc.
  specialize (Hsc x (handle_healthy _ _ _ _ _ Hw Hh)).
  destruct (smonitor key st (Ev e x)) as [st'|] eqn:Hsm; [|contradiction].
  set (th' := mkThread (t_env th) (k x) (t_trace th ++ [Ev e x])).
  assert (Hst' : strack key (t_trace th') = Some st')
    by (unfold th'; cbn [t_trace]; rewrite strack_snoc, Hst; exact Hsm).
  assert (Hself : <[i := th']> ths !! i = Some th')
    by (apply list_lookup_insert_eq; apply lookup_lt_Some in Hi; exact Hi).
  pose proof (monitor_step key _ a a' e x _ _ (smonitor_monitor _ _ _ _ Hsm) Hh) as Hkind.
  assert (Hexcl : forall j thj stj, i <> j -> ths !! j = Some thj ->
            strack key (t_trace thj) = Some stj ->
            holding (phase_of st) = true -> holding (phase_of stj) = false).
  { intros j thj stj Hij Hj Hstj.
    apply (Hcpair i j th thj (phase_of st) (phase_of stj)); auto using strack_track. }
  split; [|split; [|split]].
  - (* every thread is at a station *)
    intros j thj Hj. apply list_lookup_insert_Some in Hj as [(<- & <- & _)|(Hij & Hj)].
    + split; [exact Hw|]. exists st'. split; [exact Hst'|exact Hsc].
    + exact (H1 j thj Hj).
  - (* the key is in the lock table only while held *)
    intros Hlock.
    destruct Hkind as [(-> & Hhold & _ & _)
                      |[(_ & Hph' & _ & ->)
                       |[(_ & _ & _ & ->)
                        |(_ & Hph' & v & ->)]]].
    + apply (station_witness_after key ths i th th' st st'
               (fun s => holding (phase_of s) = true)
               (fun s => holding (phase_of s) = true) Hi Hst Hst').
      * intros Hs. rewrite Hhold. exact Hs.
      * intros j thj s _ _ _ Hs. exact Hs.
      * exact (H2 Hlock).
    + exists i, th', st'. rewrite Hph'. auto.
    + unfold UnlockKey in Hlock. cbn [lock] in Hlock.
      apply elem_of_difference in Hlock as [_ Hne].
      destruct Hne. apply elem_of_singleton. reflexivity.
    + exists i, th', st'. rewrite Hph'. auto.
  - (* the record is in the store only after a write *)
    intros Hdb.
    destruct Hkind as [(-> & _ & Hwr & _)
                      |[(Hph & _ & _ & ->)
                       |[(_ & _ & Hwr & ->)
                        |(_ & Hph' & v & ->)]]].
    + apply (station_witness_after key ths i th th' st st'
               (fun s => wrote (phase_of s) = true)
               (fun s => wrote (phase_of s) = true) Hi Hst Hst').
      * intros Hs. rewrite Hwr. exact Hs.
      * intros j thj s _ _ _ Hs. exact Hs.
      * exact (H3 Hdb).
    + apply (station_witness_after key ths i th th' st st'
               (fun s => wrote (phase_of s) = true)
               (fun s => wrote (phase_of s) = true) Hi Hst Hst').
      * intros Hs. rewrite Hph in Hs. discriminate Hs.
      * intros j thj s _ _ _ Hs. exact Hs.
      * exact (H3 Hdb).
    + apply (station_witness_after key ths i th th' st st'
               (fun s => wrote (phase_of s) = true)
               (fun s => wrote (phase_of s) = true) Hi Hst Hst').
      * intros Hs. rewrite Hwr. exact Hs.
      * intros j thj s _ _ _ Hs. exact Hs.
      * exact (H3 Hdb).
    + exists i, th', st'. rewrite Hph'. auto.
  - (* one thread is on the way to a success *)
    intros _.
    assert (Hframe : forall j thj s, i <> j -> ths !! j = Some thj ->
              strack key (t_trace thj) = Some s ->
              on_track key a s -> on_track key a' s).
    { intros j thj s Hij Hj Hs [Hwin|[-> Hv]]; [left; exact Hwin|].
      right. split; [reflexivity|].
      destruct Hkind as [(-> & _)
                        |[(_ & _ & _ & ->)
                         |[(_ & _ & _ & ->)
                          |(Hph & _ & v & ->)]]]; try exact Hv.
      assert (Hnot : holding (phase_of SHolding) = false).
      { apply (Hexcl j thj SHolding Hij Hj Hs). rewrite Hph. reflexivity. }
      discriminate Hnot. }
    assert (Hidle : st = SIdle \/ st <> SIdle)
      by (destruct st; first [left; reflexivity | right; discriminate]).
    destruct Hidle as [->|Hnidle].
    + destruct (smonitor_idle key _ a a' e x st' Hh Hsm) as [(-> & Hdb)|(-> & Hin & ->)].
      * destruct (db a !! key) as [v|] eqn:Hv.
        -- apply (station_witness_after key ths i th th' SIdle SHolding
                    (fun s => wrote (phase_of s) = true) (on_track key a') Hi Hst Hst').
           ++ discriminate.
           ++ intros j thj s _ _ _ Hs. left. apply wrote_winning, Hs.
           ++ apply H3. eauto.
        -- exists i, th', SHolding. split; [exact Hself|]. split; [exact Hst'|].
           right. split; [reflexivity|]. cbn [fst]. rewrite Hdb. exact Hv.
      * apply (station_witness_after key ths i th th' SIdle SRefused
                 (on_track key a) (on_track key a) Hi Hst Hst').
        -- intros [Hwin|[Heq _]]; discriminate.
        -- exact Hframe.
        -- apply H4. destruct (H2 Hin) as (j & thj & stj & Hj & Hstj & Hhold).
           exists j, thj, stj. split; [exact Hj|]. split; [exact Hstj|].
           intros ->. discriminate Hhold.
    + apply (station_witness_after key ths i th th' st st'
               (on_track key a) (on_track key a') Hi Hst Hst').
      * intros [Hwin|[-> Hv]]; left.
        -- exact (smonitor_winning _ _ _ _ Hsm Hwin).
        -- rewrite (smonitor_holding_absent key _ a a' e x st' Hw Hh Hsm Hv). reflexivity.
      * exact Hframe.
      * apply H4. exists i, th, st. auto.
Qed.

Lemma healthy_inv_reachable (key : list byte) (a : App) (reqs : list (env * Request))
    (c : App * list thread) :
  (forall wr, In wr reqs ->
     healthy (fst wr) /\ is_create key (snd wr) /\ ContentLength (snd wr) <> 0) ->
  db a !! key = None ->
  string_of_bytes key ∉ lock a ->
  rtc cstep (start a reqs) c ->
  create_inv key c /\ healthy_inv key c.
Proof.
  intros Hall Hdb Hlock Hrtc.
  assert (H0 : create_inv key (start a reqs) /\ healthy_inv key (start a reqs)).
  { split; [|apply healthy_inv_start; assumption].
    apply create_inv_start. intros wr Hwr. apply (Hall wr Hwr). }
  clear Hall Hdb Hlock.
  induction Hrtc as [c|c1 c2 c3 Hstep _ IH]; [exact H0|].
  apply IH. destruct H0 as [Hc Hh]. split.
  - exact (create_inv_step key _ _ Hc Hstep).
  - exact (healthy_inv_step key _ _ Hc Hh Hstep).
Qed.

(** When all creates have finished, one answered 201 and every other
    one answered 403 or 409. *)
Lemma creates_one_success (key : list byte) (a : App) (reqs : list (env * Request))
    (c : App * list thread) (i0 : nat) (th0 : thread) :
  (forall wr, In wr reqs ->
     healthy (fst wr) /\ is_create key (snd wr) /\ ContentLength (snd wr) <> 0) ->
  db a !! key = None ->
  string_of_bytes key ∉ lock a ->
  rtc cstep (start a reqs) c ->
  (forall i th, snd c !! i = Some th -> finished th = true) ->
  snd c !! i0 = Some th0 ->
  exists j thj,
    snd c !! j = Some thj
    /\ status_of (t_trace thj) = 201
    /\ forall i thi, i <> j -> snd c !! i = Some thi ->
         status_of (t_trace thi) = 403 \/ status_of (t_trace thi) = 409.
Proof.
  intros Hall Hdb Hlock Hrtc Hfin Hi0.
  destruct (healthy_inv_reachable key a reqs c Hall Hdb Hlock Hrtc)
    as [[_ Hpair] (H1 & _ & _ & H4)].
  assert (Hdone : forall i th, snd c !! i = Some th ->
            exists ans, strack key (t_trace th) = Some (SFinished ans)
                        /\ status_of (t_trace th) = code_of ans).
  { intros i th Hi. destruct (H1 i th Hi) as (_ & st & Hst & Hsc).
    pose proof (Hfin i th Hi) as Hf. unfold finished in Hf.
    destruct (t_code th) as [u|X e k]; [|discriminate Hf].
    cbn [sconforms] in Hsc. destruct Hsc as [ans ->].
    exists ans. split; [exact Hst|]. apply (strack_status key), Hst. }
  destruct (Hdone i0 th0 Hi0) as (ans0 & Hst0 & _).
  destruct H4 as (j & thj & stj & Hj & Hstj & Htrack).
  { exists i0, th0, (SFinished ans0). split; [exact Hi0|]. split; [exact Hst0|discriminate]. }
  destruct (Hdone j thj Hj) as (ansj & Hstj' & Hcodej).
  rewrite Hstj in Hstj'. injection Hstj' as ->.
  assert (ansj = Created) as ->.
  { destruct Htrack as [Hwin|[Heq _]]; [|discriminate Heq].
    destruct ansj; [reflexivity|discriminate Hwin|discriminate Hwin]. }
  exists j, thj. split; [exact Hj|]. split; [exact Hcodej|].
  intros i thi Hij Hi. destruct (Hdone i thi Hi) as (ansi & Hsti & ->).
  destruct (Hpair j i thj thi _ _ (fun H => Hij (eq_sym H)) Hj Hi
              (strack_track _ _ _ Hstj) (strack_track _ _ _ Hsti)) as [_ Hw].
  specialize (Hw eq_refl).
  destruct ansi; [discriminate Hw|left; reflexivity|right; reflexivity].
Qed.

(** ** Two creates of one key *)

Example two_creates_overlap :
  option_map outcomes (run_schedule sched_overlap (two_creates env_healthy env_healthy))
  = Some [(true, 201); (true, 409)].
Proof. vm_compute. reflexivity. Qed.

Example two_creates_one_after_other :
  option_map outcomes
    (run_schedule sched_one_after_other (two_creates env_healthy env_healthy))
  = Some [(true, 201); (true, 403)].
Proof. vm_compute. reflexivity. Qed.

Example two_creates_backend_down :
  option_map outcomes
    (run_schedule [0; 1; 1; 0; 0; 0; 0]%nat (two_creates env_backend_down env_healthy))
  = Some [(true, 500); (true, 409)].
Proof. vm_compute. reflexivity. Qed.

(** C2, as stated, fails: with a healthy store and backend, two creates
    of the same absent key that arrive together can end with one success
    and one forbidden, when the second takes the lock after the first
    gave it back. *)
Lemma two_creates_not_always_conflict :
  ~ (forall (a : App) (w1 w2 : env) (r1 r2 : Request) (c : App * list thread),
       is_create (bytes_of_string (Path r1)) r1 ->
       is_create (bytes_of_string (Path r1)) r2 ->
       ContentLength r1 <> 0 -> ContentLength r2 <> 0 ->
       db a !! bytes_of_string (Path r1) = None ->
       string_of_bytes (bytes_of_string (Path r1)) ∉ lock a ->
       healthy w1 -> healthy w2 ->
       rtc cstep (start a [(w1, r1); (w2, r2)]) c ->
       outcomes c = [(true, 201); (true, 409)]
       \/ outcomes c = [(true, 409); (true, 201)]
       \/ exists th, In th (snd c) /\ finished th = false).
Proof.
  intros H.
  pose proof two_creates_one_after_other as Hrun.
  destruct (run_schedule sched_one_after_other (two_creates env_healthy env_healthy))
    as [c|] eqn:Hc; [|discriminate Hrun].
  cbn [option_map] in Hrun. injection Hrun as Hout.
  apply run_schedule_reachable in Hc.
  specialize (H app_empty env_healthy env_healthy
                (request "PUT" "/a" 5) (request "PUT" "/a" 5) c
                (conj eq_refl (conj eq_refl eq_refl))
                (conj eq_refl (conj eq_refl eq_refl))
                ltac:(discriminate) ltac:(discriminate)
                (lookup_empty _) (not_elem_of_empty _)
                (conj eq_refl (conj eq_refl eq_refl))
                (conj eq_refl (conj eq_refl eq_refl)) Hc).
  destruct H as [H|[H|(th & Hin & Hfin)]].
  - rewrite Hout in H. discriminate H.
  - rewrite Hout in H. discriminate H.
  - unfold outcomes in Hout. destruct c as [a ths]. cbn [snd] in *.
    destruct ths as [|t1 [|t2 [|t3 ths]]]; try discriminate Hout.
    cbn [map] in Hout. injection Hout as Hf1 _ Hf2 _.
    destruct Hin as [<-|[<-|[]]]; congruence.
Qed.

(** C2, amended.  Whatever requests are in flight and however their
    steps interleave, no two of them hold a key's lock at the same
    instant.  Two creates of the same key that arrive together never
    both answer 201, and at most one of them writes the record.  When
    both carry a payload, the key is absent and free, and store and
    backend answer as they should, then once both have finished exactly
    one has answered 201 and the other 409 or 403; both of these
    outcomes occur. *)
Theorem lock_serializes_creates :
  (forall (a : App) (reqs : list (env * Request)) (c : App * list thread)
          (i j : nat) (thi thj : thread),
     rtc cstep (start a reqs) c ->
     i <> j -> snd c !! i = Some thi -> snd c !! j = Some thj ->
     holds (t_trace thi) ## holds (t_trace thj))
  /\ (forall (a : App) (w1 w2 : env) (r1 r2 : Request) (c : App * list thread)
             (th1 th2 : thread),
        is_create (bytes_of_string (Path r1)) r1 ->
        is_create (bytes_of_string (Path r1)) r2 ->
        rtc cstep (start a [(w1, r1); (w2, r2)]) c ->
        snd c = [th1; th2] ->
        ~ (status_of (t_trace th1) = 201 /\ status_of (t_trace th2) = 201)
        /\ ~ (wrote_record (bytes_of_string (Path r1)) (t_trace th1) = true
              /\ wrote_record (bytes_of_string (Path r1)) (t_trace th2) = true))
  /\ (forall (a : App) (w1 w2 : env) (r1 r2 : Request) (c : App * list thread),
        is_create (bytes_of_string (Path r1)) r1 ->
        is_create (bytes_of_string (Path r1)) r2 ->
        ContentLength r1 <> 0 -> ContentLength r2 <> 0 ->
        healthy w1 -> healthy w2 ->
        db a !! bytes_of_string (Path r1) = None ->
        string_of_bytes (bytes_of_string (Path r1)) ∉ lock a ->
        rtc cstep (start a [(w1, r1); (w2, r2)]) c ->
        (forall i th, snd c !! i = Some th -> finished th = true) ->
        outcomes c = [(true, 201); (true, 409)]
        \/ outcomes c = [(true, 409); (true, 201)]
        \/ outcomes c = [(true, 201); (true, 403)]
        \/ outcomes c = [(true, 403); (true, 201)])
  /\ (exists c, run_schedule sched_overlap (two_creates env_healthy env_healthy) = Some c
                /\ outcomes c = [(true, 201); (true, 409)])
  /\ (exists c, run_schedule sched_one_after_other (two_creates env_healthy env_healthy)
                = Some c
                /\ outcomes c = [(true, 201); (true, 403)]).
Proof.
  split; [|split; [|split; [|split]]].
  - intros a reqs c i j thi thj Hrtc Hij Hi Hj.
    destruct (lock_inv_reachable a reqs c Hrtc) as [_ Hdisj].
    exact (Hdisj i j thi thj Hij Hi Hj).
  - intros a w1 w2 r1 r2 c th1 th2 Hc1 Hc2 Hrtc Hths.
    assert (Hall : forall wr, In wr [(w1, r1); (w2, r2)] ->
              is_create (bytes_of_string (Path r1)) (snd wr)).
    { intros wr [<-|[<-|[]]]; assumption. }
    destruct (create_inv_reachable _ a _ c Hall Hrtc) as [Hth Hpair].
    rewrite Hths in Hth, Hpair.
    destruct (Hth 0%nat th1 eq_refl) as (ph1 & Ht1 & _).
    destruct (Hth 1%nat th2 eq_refl) as (ph2 & Ht2 & _).
    destruct (Hpair 0%nat 1%nat th1 th2 ph1 ph2 ltac:(discriminate) eq_refl eq_refl Ht1 Ht2)
      as [_ Hw].
    destruct (track_from_wrote _ _ _ _ Ht1) as (_ & Hs1 & Hp1).
    destruct (track_from_wrote _ _ _ _ Ht2) as (_ & Hs2 & Hp2).
    split; intros [H1 H2].
    + rewrite (Hw (Hs1 H1)) in Hs2. specialize (Hs2 H2). discriminate Hs2.
    + rewrite (Hw (Hp1 H1)) in Hp2. specialize (Hp2 H2). discriminate Hp2.
  - intros a w1 w2 r1 r2 c Hc1 Hc2 Hl1 Hl2 Hw1 Hw2 Hdb Hlock Hrtc Hfin.
    assert (Hall : forall wr, In wr [(w1, r1); (w2, r2)] ->
              healthy (fst wr) /\ is_create (bytes_of_string (Path r1)) (snd wr)
              /\ ContentLength (snd wr) <> 0).
    { intros wr [<-|[<-|[]]]; auto. }
    assert (Hlen : length (snd c) = 2%nat).
    { clear -Hrtc. remember (start a [(w1, r1); (w2, r2)]) as c0 eqn:Hc0.
      assert (H0 : length (snd c0) = 2%nat) by (subst c0; reflexivity).
      clear Hc0. induction Hrtc as [c|c1 c2 c3 [i Hstep] _ IH]; [exact H0|].
      apply IH. destruct c1 as [a1 ths1], c2 as [a2 ths2].
      apply step_thread_inv in Hstep as (th & X & e & k & x & _ & _ & _ & ->).
      cbn [snd] in *. rewrite length_insert. exact H0. }
    destruct c as [a' ths]. cbn [snd] in *.
    destruct ths as [|th1 [|th2 [|th3 ths]]]; try discriminate Hlen.
    pose proof (Hfin 0%nat th1 eq_refl) as Hf1.
    pose proof (Hfin 1%nat th2 eq_refl) as Hf2.
    destruct (creates_one_success _ a _ (a', [th1; th2]) 0%nat th1 Hall Hdb Hlock Hrtc Hfin
                eq_refl) as (j & thj & Hj & Hsj & Hrest).
    unfold outcomes. cbn [snd map]. rewrite Hf1, Hf2.
    destruct j as [|[|j]]; cbn in Hj; [| |discriminate Hj]; injection Hj as <-.
    + destruct (Hrest 1%nat th2 ltac:(discriminate) eq_refl) as [H|H]; rewrite Hsj, H; auto.
    + destruct (Hrest 0%nat th1 ltac:(discriminate) eq_refl) as [H|H]; rewrite Hsj, H; auto.
  - pose proof two_creates_overlap as Hrun.
    destruct (run_schedule sched_overlap (two_creates env_healthy env_healthy))
      as [c|]; [|discriminate Hrun].
    exists c. split; [reflexivity|]. cbn [option_map] in Hrun. congruence.
  - pose proof two_creates_one_after_other as Hrun.
    destruct (run_schedule sched_one_after_other (two_creates env_healthy env_healthy))
      as [c|]; [|discriminate Hrun].
    exists c. split; [reflexivity|]. cbn [option_map] in Hrun. congruence.
Qed.

Lemma lock_serializes_creates_witness :
  match run_schedule sched_one_after_other (two_creates env_healthy env_healthy) with
  | Some (_, [th1; th2]) =>
      ~ (status_of (t_trace th1) = 201 /\ status_of (t_trace th2) = 201)
  | _ => False
  end.
Proof.
  pose proof two_creates_one_after_other as Hout.
  destruct (run_schedule sched_one_after_other (two_creates env_healthy env_healthy))
    as [[a ths]|] eqn:Hrun; [|discriminate Hout].
  destruct ths as [|th1 [|th2 [|th3 ths]]]; try discriminate Hout.
  apply (proj1 (proj2 lock_serializes_creates) app_empty env_healthy env_healthy
           (request "PUT" "/a" 5) (request "PUT" "/a" 5) (a, [th1; th2]) th1 th2).
  - repeat split; reflexivity.
  - repeat split; reflexivity.
  - apply (run_schedule_reachable _ _ _ Hrun).
  - reflexivity.
Defined.

(** * Further properties of lib.go and server.go *)

(** ** key2volume when the pool changes *)

#[local] Transparent key2volume.

(** X1. A backend added at the end of the pool takes a key over or
    leaves it where it was: no key moves between two old backends. *)
Theorem key2volume_append (key : list byte) (volumes : list string) (v : string) :
  key2volume key (volumes ++ [v]) = key2volume key volumes
  \/ key2volume key (volumes ++ [v]) = v.
Proof.
  unfold key2volume. rewrite fold_left_app. cbn [fold_left].
  destruct (fold_left (key2volume_step key) volumes (None, EmptyString)) as [best ret].
  unfold key2volume_step. destruct best as [b|]; [|right; reflexivity].
  destruct (bytes_Compare b (score key v) =? -1); [right|left]; reflexivity.
Qed.

#[local] Opaque key2volume.

(** X2. Between a pool and a larger one without ties, the placement of
    a key either stays or goes to a backend that the smaller pool does
    not have; so taking backends away moves only the keys placed on
    them. *)
Theorem key2volume_pool_change (key : list byte) (l l' : list string) :
  l <> [] ->
  (forall v, In v l -> In v l') ->
  (forall v1 v2, In v1 l' -> In v2 l' -> score key v1 = score key v2 -> v1 = v2) ->
  key2volume key l' = key2volume key l \/ ~ In (key2volume key l') l.
Proof.
  intros Hne Hincl Hinj.
  assert (Hne' : l' <> []).
  { destruct l as [|v0 l0]; [congruence|]. intros ->. exact (Hincl v0 (or_introl eq_refl)). }
  destruct (key2volume_spec key l Hne) as [Hin Hmax].
  destruct (key2volume_spec key l' Hne') as [Hin' Hmax'].
  destruct (in_dec String.string_dec (key2volume key l') l) as [Hold|Hnew];
    [left|right; exact Hnew].
  apply Hinj; auto. apply score_ge_antisym.
  - apply Hmax'. apply Hincl, Hin.
  - apply Hmax. exact Hold.
Qed.

Lemma key2volume_pool_change_witness :
  let key := bytes_of_string "/a" in
  let l := ["localhost:3002"; "localhost:3003"]%string in
  key2volume key pool3 = key2volume key l \/ ~ In (key2volume key pool3) l.
Proof.
  apply (key2volume_pool_change (bytes_of_string "/a")
           ["localhost:3002"; "localhost:3003"]%string pool3).
  - discriminate.
  - intros v Hv. unfold pool3. cbn [In] in *. tauto.
  - intros v1 v2 H1 H2 Heq. unfold pool3 in H1, H2. cbn [In] in H1, H2.
    destruct H1 as [<-|[<-|[<-|[]]]], H2 as [<-|[<-|[<-|[]]]];
      try reflexivity; vm_compute in Heq; discriminate Heq.
Defined.

(** ** key2path never sends two keys to one path *)

#[local] Transparent key2path.

Lemma key2path_unfold (key : list byte) :
  exists c1 c2 c3 c4 : ascii,
    key2path key
    = String "/" (String c1 (String c2 (String "/" (String c3 (String c4
        (String "/" (Base64.EncodeToString key))))))).
Proof. unfold key2path, hex02. cbv zeta. eexists _, _, _, _. reflexivity. Qed.

#[local] Opaque key2path.

(** X3. Two different keys have different paths. *)
Theorem key2path_injective (key1 key2 : list byte) :
  key1 <> key2 -> key2path key1 <> key2path key2.
Proof.
  intros Hne Heq. apply Hne.
  destruct (key2path_unfold key1) as (a1 & a2 & a3 & a4 & H1).
  destruct (key2path_unfold key2) as (b1 & b2 & b3 & b4 & H2).
  rewrite H1, H2 in Heq. injection Heq as _ _ _ _ Henc.
  pose proof (Base64Facts.decode_encode key1) as Hd1.
  rewrite Henc, Base64Facts.decode_encode in Hd1. congruence.
Qed.

Lemma key2path_injective_witness :
  key2path (bytes_of_string "/a") <> key2path (bytes_of_string "/b").
Proof.
  apply (key2path_injective (bytes_of_string "/a") (bytes_of_string "/b")).
  vm_compute. discriminate.
Defined.

(** ** The remote access functions *)

(** X4. [remote_put] makes one PUT exchange with the given URL, length
    and body and touches nothing else; it returns no error exactly when
    the backend answers 201 or 204. *)
Theorem remote_put_result (w : env) (remote : string) (len : Z) (body : list byte)
    (a : App) :
  exists err,
    run w (remote_put remote len body) a
    = (err, a, [Ev (EHttp "PUT" remote (Some len) body) (backend w)])
    /\ (err = None <->
        exists code rbody, backend w = Some (code, rbody) /\ (code = 201 \/ code = 204)).
Proof.
  rewrite run_remote_put. eexists. split; [reflexivity|].
  destruct (backend w) as [[code rbody]|].
  - destruct (Z.eqb_spec code 201) as [->|H1]; cbn [negb andb].
    + split; [intros _; eauto|reflexivity].
    + destruct (Z.eqb_spec code 204) as [->|H4]; cbn [negb].
      * split; [intros _; eauto|reflexivity].
      * split; [discriminate|]. intros (c & rb & [= <- <-] & [->| ->]); contradiction.
  - split; [discriminate|]. intros (c & rb & Hc & _). discriminate Hc.
Qed.

(** X5. [remote_delete] makes one DELETE exchange with the given URL and
    touches nothing else; it returns no error exactly when the backend
    answers 204. *)
Theorem remote_delete_result (w : env) (remote : string) (a : App) :
  exists err,
    run w (remote_delete remote) a
    = (err, a, [Ev (EHttp "DELETE" remote None []) (backend w)])
    /\ (err = None <-> exists rbody, backend w = Some (204, rbody)).
Proof.
  rewrite run_remote_delete. eexists. split; [reflexivity|].
  destruct (backend w) as [[code rbody]|].
  - destruct (Z.eqb_spec code 204) as [->|H4].
    + split; [intros _; eauto|reflexivity].
    + split; [discriminate|]. intros (rb & [= Hc _]). contradiction.
  - split; [discriminate|]. intros (rb & Hc). discriminate Hc.
Qed.

(** ** The lock table *)

(** X6. Taking the lock of a free key succeeds and changes nothing but
    the lock table; a second take of the same key is refused without
    effect; takes of other keys go as before; giving the lock back
    restores the state. *)
Theorem LockKey_then_UnlockKey (a : App) (key : list byte) :
  string_of_bytes key ∉ lock a ->
  exists a1,
    LockKey a key = (true, a1)
    /\ db a1 = db a /\ volumes a1 = volumes a
    /\ LockKey a1 key = (false, a1)
    /\ (forall key', string_of_bytes key' <> string_of_bytes key ->
          fst (LockKey a1 key') = fst (LockKey a key'))
    /\ UnlockKey a1 key = a.
Proof.
  intros Hfree. unfold LockKey at 1. rewrite decide_False by exact Hfree.
  eexists. split; [reflexivity|]. split; [reflexivity|]. split; [reflexivity|].
  split; [|split].
  - unfold LockKey. cbn [lock]. rewrite decide_True; [reflexivity|].
    apply elem_of_union_l, elem_of_singleton. reflexivity.
  - intros key' Hne. unfold LockKey. cbn [lock].
    destruct (decide (string_of_bytes key' ∈ lock a)) as [Hin|Hnin].
    + rewrite decide_True; [reflexivity|]. apply elem_of_union_r, Hin.
    + rewrite decide_False; [reflexivity|]. intros Hin.
      apply elem_of_union in Hin as [Hin|Hin]; [|contradiction].
      apply elem_of_singleton in Hin. contradiction.
  - rewrite unlock_after_lock by exact Hfree. apply app_eta.
Qed.

Lemma LockKey_then_UnlockKey_witness :
  exists a1,
    LockKey app_stored (bytes_of_string "/a") = (true, a1)
    /\ db a1 = db app_stored /\ volumes a1 = volumes app_stored
    /\ LockKey a1 (bytes_of_string "/a") = (false, a1)
    /\ (forall key', string_of_bytes key' <> string_of_bytes (bytes_of_string "/a") ->
          fst (LockKey a1 key') = fst (LockKey app_stored key'))
    /\ UnlockKey a1 (bytes_of_string "/a") = app_stored.
Proof.
  apply (LockKey_then_UnlockKey app_stored (bytes_of_string "/a")).
  apply not_elem_of_empty.
Defined.

(** X7. Giving a lock back is always safe: it changes neither store nor
    pool, doing it twice is doing it once, the key can be taken
    afterwards, and the locks of other keys stay as they are. *)
Theorem UnlockKey_safe (a : App) (key : list byte) :
  db (UnlockKey a key) = db a
  /\ volumes (UnlockKey a key) = volumes a
  /\ UnlockKey (UnlockKey a key) key = UnlockKey a key
  /\ fst (LockKey (UnlockKey a key) key) = true
  /\ forall key', string_of_bytes key' <> string_of_bytes key ->
       (string_of_bytes key' ∈ lock (UnlockKey a key) <-> string_of_bytes key' ∈ lock a).
Proof.
  assert (Hout : string_of_bytes key ∉ lock (UnlockKey a key)).
  { unfold UnlockKey. cbn [lock]. intros Hin.
    apply elem_of_difference in Hin as [_ Hne]. apply Hne, elem_of_singleton. reflexivity. }
  split; [reflexivity|]. split; [reflexivity|]. split; [|split].
  - unfold UnlockKey. cbn [db lock volumes]. f_equal.
    apply set_eq. intros x. rewrite !elem_of_difference. tauto.
  - unfold LockKey. rewrite decide_False by exact Hout. reflexivity.
  - intros key' Hne. unfold UnlockKey. cbn [lock].
    rewrite elem_of_difference, elem_of_singleton. tauto.
Qed.

(** ** Requests that only read *)

Lemma handle_read (w : env) (a : App) {X : Type} (e : eff X) :
  is_read e = true -> snd (handle w a e) = a.
Proof.
  destruct e; cbn [is_read handle]; try discriminate; intros _; try reflexivity.
  destruct (get_fault w); [reflexivity|]. destruct (db a !! key); reflexivity.
Qed.

Lemma handle_read_any_lock (w : env) (a : App) (L : gset string)
    {X : Type} (e : eff X) :
  is_read e = true ->
  fst (handle w (mkApp (db a) L (volumes a)) e) = fst (handle w a e).
Proof.
  destruct e; cbn [is_read handle db]; try discriminate; intros _; try reflexivity.
  destruct (get_fault w); [reflexivity|]. destruct (db a !! key); reflexivity.
Qed.

(** A program that only reads leaves the state alone, calls no backend
    and does the same whatever the lock table holds. *)
Lemma run_read_only {R : Type} (w : env) (p : prog R) : forall a,
  read_only p ->
  exists r tr,
    run w p a = (r, a, tr)
    /\ backend_calls tr = []
    /\ forall L, run w p (mkApp (db a) L (volumes a))
                 = (r, mkApp (db a) L (volumes a), tr).
Proof.
  induction p as [r|X e k IH]; intros a; cbn [read_only run].
  - intros _. exists r, []. repeat split; reflexivity.
  - intros [He Hk].
    pose proof (handle_read w a e He) as Hsame.
    destruct (handle w a e) as [x a1] eqn:Hh. cbn [snd] in Hsame. subst a1.
    destruct (IH x a (Hk x)) as (r & tr & Hrun & Hcalls & Hlock).
    rewrite Hrun. exists r, (Ev e x :: tr). split; [reflexivity|]. split.
    + destruct e; try discriminate He; exact Hcalls.
    + intros L.
      pose proof (handle_read w (mkApp (db a) L (volumes a)) e He) as HsameL.
      pose proof (handle_read_any_lock w a L e He) as HfstL.
      destruct (handle w (mkApp (db a) L (volumes a)) e) as [x' a2].
      cbn [fst snd] in HsameL, HfstL. rewrite Hh in HfstL. cbn [fst] in HfstL.
      subst x' a2. rewrite (Hlock L). reflexivity.
Qed.

Ltac read_only_tac :=
  repeat first
    [ exact I
    | reflexivity
    | progress cbn [read_only is_read bind call]
    | split
    | match goal with
      | |- forall _, _ => intros ?
      | |- read_only (match ?x with _ => _ end) => destruct x
      | |- read_only (if ?b then _ else _) => destruct b
      | |- read_only (let '(_, _) := ?x in _) => destruct x
      | |- read_only (bind (if ?b then _ else _) _) => destruct b
      end ].

Lemma read_only_serve_GET (vols : list string) (key : list byte) :
  read_only (serve_GET vols key).
Proof. unfold serve_GET. read_only_tac. Qed.

Lemma read_only_ListQueryHandler (key : list byte) (r : Request) :
  read_only (ListQueryHandler key r).
Proof. unfold ListQueryHandler. read_only_tac. Qed.

(** How [ServeHTTP] branches: on a query string, on PUT and DELETE, on
    anything else. *)
Lemma serve_query (a : App) (w : env) (r : Request) :
  RawQuery r <> EmptyString ->
  serve a w r
  = let '(_, a', tr) :=
      run w (if negb (String.eqb (Method r) "GET") then call (EWriteHeader 403)
             else ListQueryHandler (bytes_of_string (Path r)) r) a in
    (a', tr).
Proof.
  intros HQ. unfold serve, ServeHTTP. destruct (RawQuery r) as [|c q]; [contradiction|].
  reflexivity.
Qed.

Lemma serve_plain (a : App) (w : env) (r : Request) :
  RawQuery r = EmptyString ->
  String.eqb (Method r) "PUT" || String.eqb (Method r) "DELETE" = false ->
  serve a w r
  = let '(_, a', tr) := run w (serve_switch (volumes a) (bytes_of_string (Path r)) r) a in
    (a', tr).
Proof.
  intros HQ HM. unfold serve, ServeHTTP. rewrite HQ, HM. reflexivity.
Qed.

Lemma method_locks (r : Request) :
  String.eqb (Method r) "PUT" || String.eqb (Method r) "DELETE" = true ->
  (Method r = "PUT" \/ Method r = "DELETE")%string.
Proof.
  intros H. apply orb_true_iff in H as [H|H]; apply String.eqb_eq in H; auto.
Qed.

(** X8. A request that carries a query string and is not a GET is
    answered 403 and does nothing else: no lock is tried, the store is
    not read and no backend is called. *)
Theorem query_on_other_method_forbidden (a : App) (w : env) (r : Request) :
  RawQuery r <> EmptyString ->
  Method r <> "GET"%string ->
  serve a w r = (a, [Ev (EWriteHeader 403) tt]).
Proof.
  intros HQ HM. rewrite serve_query by exact HQ.
  destruct (String.eqb_spec (Method r) "GET") as [H|_]; [contradiction|]. reflexivity.
Qed.

Lemma query_on_other_method_forbidden_witness :
  serve app_three env_healthy (query_request "DELETE" "/a/1" "list")
  = (app_three, [Ev (EWriteHeader 403) tt]).
Proof.
  apply (query_on_other_method_forbidden app_three env_healthy
           (query_request "DELETE" "/a/1" "list")); discriminate.
Defined.

(** X9. A GET whose query string is not "list" is answered 403 and does
    nothing else. *)
Theorem unknown_query_forbidden (a : App) (w : env) (r : Request) :
  Method r = "GET"%string ->
  RawQuery r <> EmptyString ->
  RawQuery r <> "list"%string ->
  serve a w r = (a, [Ev (EWriteHeader 403) tt]).
Proof.
  intros HM HQ HL. rewrite serve_query by exact HQ. rewrite HM.
  cbn [String.eqb Ascii.eqb Bool.eqb negb]. unfold ListQueryHandler.
  destruct (String.eqb_spec (RawQuery r) "list") as [H|_]; [contradiction|]. reflexivity.
Qed.

Lemma unknown_query_forbidden_witness :
  serve app_three env_healthy (query_request "GET" "/a/" "unlinked")
  = (app_three, [Ev (EWriteHeader 403) tt]).
Proof.
  apply (unknown_query_forbidden app_three env_healthy
           (query_request "GET" "/a/" "unlinked")); [reflexivity|discriminate|discriminate].
Defined.

(** ** The list query *)

Lemma has_prefix_spec (p : list byte) : forall b,
  has_prefix p b = true <-> exists rest, b = p ++ rest.
Proof.
  induction p as [|x p IH]; intros b; cbn [has_prefix].
  - split; [intros _; exists b; reflexivity | reflexivity].
  - destruct b as [|y b].
    + split; [discriminate | intros (rest & H); discriminate H].
    + rewrite andb_true_iff, IH. split.
      * intros [Hxy (rest & ->)]. apply Byte.byte_dec_bl in Hxy. subst y.
        exists rest. reflexivity.
      * intros (rest & [= -> ->]). split; [apply Byte.byte_dec_lb; reflexivity|].
        exists rest. reflexivity.
Qed.

Lemma bytes_le_trans (x y z : list byte) :
  bytes_Compare x y <> 1 -> bytes_Compare y z <> 1 -> bytes_Compare x z <> 1.
Proof.
  intros Hxy Hyz Hxz.
  apply (score_ge_trans z y x).
  - intros H. apply Hyz, bytes_Compare_flip, H.
  - intros H. apply Hxy, bytes_Compare_flip, H.
  - apply bytes_Compare_flip, Hxz.
Qed.

Lemma bytes_le_total (x y : list byte) :
  bytes_Compare x y <> 1 \/ bytes_Compare y x <> 1.
Proof.
  destruct (bytes_Compare_values x y) as [H|[H|H]].
  - left. rewrite H. discriminate.
  - left. rewrite H. discriminate.
  - right. apply bytes_Compare_flip in H. rewrite H. discriminate.
Qed.

(** X10. The iterator yields exactly the keys of the store that start
    with the prefix, each once, in ascending bytewise order. *)
Theorem iter_keys_spec (m : gmap (list byte) (list byte)) (prefix : list byte) :
  (forall k, In k (iter_keys m prefix) <->
             is_Some (m !! k) /\ exists rest, k = prefix ++ rest)
  /\ NoDup (iter_keys m prefix)
  /\ StronglySorted (fun x y => bytes_Compare x y <> 1) (iter_keys m prefix).
Proof.
  unfold iter_keys.
  set (R := fun x y : list byte => bytes_Compare x y ≠ 1).
  set (l := List.filter (has_prefix prefix) (map fst (map_to_list m))).
  assert (Hperm : Permutation (merge_sort R l) l) by apply merge_sort_Permutation.
  assert (Hmem : forall k, In k l <-> is_Some (m !! k) /\ exists rest, k = prefix ++ rest).
  { intros k. unfold l. rewrite filter_In, in_map_iff, has_prefix_spec.
    split.
    - intros [([k' v] & Hk & Hin) Hpre]. cbn [fst] in Hk. subst k'.
      apply list_elem_of_In, elem_of_map_to_list in Hin. split; [eauto|exact Hpre].
    - intros [[v Hv] Hpre]. split; [|exact Hpre]. exists (k, v). split; [reflexivity|].
      apply list_elem_of_In, elem_of_map_to_list, Hv. }
  split; [|split].
  - intros k. rewrite <- Hmem. split; intros H.
    + exact (Permutation_in k Hperm H).
    + exact (Permutation_in k (Permutation_sym Hperm) H).
  - apply NoDup_ListNoDup.
    apply (Permutation_NoDup (Permutation_sym Hperm)). unfold l.
    apply List.NoDup_filter. apply NoDup_ListNoDup.
    exact (NoDup_fst_map_to_list m).
  - assert (Htrans : Transitive R) by (intros x y z; apply bytes_le_trans).
    assert (Htotal : Total R) by (intros x y; apply bytes_le_total).
    apply StronglySorted_merge_sort; assumption.
Qed.

Example iter_keys_three :
  iter_keys (db app_three) (bytes_of_string "/a/")
  = [bytes_of_string "/a/1"; bytes_of_string "/a/2"].
Proof. vm_compute. reflexivity. Qed.

(** The loop gives up exactly when more than 1000000 keys come. *)
Lemma collect_keys_spec (it : list (list byte)) : forall acc : list string,
  Z.of_nat (length acc) <= 1000000 ->
  collect_keys it acc
  = if 1000000 <? Z.of_nat (length acc + length it) then None
    else Some (acc ++ map string_of_bytes it).
Proof.
  induction it as [|k it IH]; intros acc Hacc; cbn [collect_keys map].
  - rewrite Nat.add_0_r. destruct (Z.ltb_spec 1000000 (Z.of_nat (length acc))); [lia|].
    rewrite app_nil_r. reflexivity.
  - rewrite length_app. cbn [length].
    destruct (Z.ltb_spec 1000000 (Z.of_nat (length acc + 1))) as [Hbig|Hok].
    + destruct (Z.ltb_spec 1000000 (Z.of_nat (length acc + S (length it)))); [reflexivity|lia].
    + rewrite IH by (rewrite length_app; cbn [length]; lia).
      rewrite length_app. cbn [length].
      replace (length acc + 1 + length it)%nat with (length acc + S (length it))%nat by lia.
      rewrite <- app_assoc. reflexivity.
Qed.

(** X11. A GET with the query "list" reads the keys under the request's
    key and changes nothing.  With more than 1000000 of them it answers
    413 and sends no list; otherwise it sends all of them, as JSON with
    status 200, or answers 500 when they cannot be marshalled. *)
Theorem list_query (a : App) (w : env) (r : Request) :
  Method r = "GET"%string ->
  RawQuery r = "list"%string ->
  let key := bytes_of_string (Path r) in
  let it := iter_keys (db a) key in
  let keys := map string_of_bytes it in
  serve a w r
  = (a, Ev (EDbIter key) it ::
        if 1000000 <? Z.of_nat (length it) then [Ev (EWriteHeader 413) tt]
        else match json_Marshal w keys with
             | None => [Ev (EJsonMarshal keys) None; Ev (EWriteHeader 500) tt]
             | Some js =>
                 [Ev (EJsonMarshal keys) (Some js);
                  Ev (EHeaderSet "Content-Type" "application/json") tt;
                  Ev (EWriteHeader 200) tt;
                  Ev (EWrite js) tt]
             end).
Proof.
  intros HM HQ key it keys.
  rewrite serve_query by (rewrite HQ; discriminate). rewrite HM.
  cbn [String.eqb Ascii.eqb Bool.eqb negb]. unfold ListQueryHandler. rewrite HQ.
  cbn [String.eqb Ascii.eqb Bool.eqb]. cbn [bind call run handle]. fold key. fold it.
  rewrite (collect_keys_spec it []) by (cbn [length]; lia).
  cbn [length Nat.add app]. fold keys.
  destruct (1000000 <? Z.of_nat (length it)); [reflexivity|].
  cbn [bind call run handle]. destruct (json_Marshal w keys); reflexivity.
Qed.

Lemma list_query_witness :
  serve app_three env_healthy (query_request "GET" "/a/" "list")
  = (app_three,
     [Ev (EDbIter (bytes_of_string "/a/")) [bytes_of_string "/a/1"; bytes_of_string "/a/2"];
      Ev (EJsonMarshal ["/a/1"; "/a/2"]%string) (Some []);
      Ev (EHeaderSet "Content-Type" "application/json") tt;
      Ev (EWriteHeader 200) tt;
      Ev (EWrite []) tt]).
Proof.
  rewrite (list_query app_three env_healthy (query_request "GET" "/a/" "list")
             eq_refl eq_refl).
  vm_compute. reflexivity.
Defined.

(** ** Fetch, create and delete, one request at a time *)

(** X12. A GET or HEAD on a key without record, the lookup working, is
    answered 404 with [Content-Length: 0]; nothing is printed, no backend
    is called and the state stays as it was. *)
Theorem fetch_absent_not_found (a : App) (w : env) (r : Request) :
  RawQuery r = EmptyString ->
  (Method r = "GET" \/ Method r = "HEAD")%string ->
  db a !! bytes_of_string (Path r) = None ->
  get_fault w = false ->
  serve a w r
  = (a, [Ev (EDbGet (bytes_of_string (Path r))) ([], Some ErrNotFound);
         Ev (EHeaderSet "Content-Length" "0") tt;
         Ev (EWriteHeader 404) tt]).
Proof.
  intros HQ HM Hv Hw. rewrite serve_read by assumption.
  unfold serve_GET. cbn [bind call run handle]. rewrite Hw, Hv. reflexivity.
Qed.

Lemma fetch_absent_not_found_witness :
  serve app_stored env_healthy (request "HEAD" "/b" 0)
  = (app_stored, [Ev (EDbGet (bytes_of_string "/b")) ([], Some ErrNotFound);
                  Ev (EHeaderSet "Content-Length" "0") tt;
                  Ev (EWriteHeader 404) tt]).
Proof.
  apply (fetch_absent_not_found app_stored env_healthy (request "HEAD" "/b" 0)).
  - reflexivity.
  - right. reflexivity.
  - vm_compute. reflexivity.
  - reflexivity.
Defined.

Lemma read_only_serve_switch (vols : list string) (key : list byte) (r : Request) :
  String.eqb (Method r) "PUT" || String.eqb (Method r) "DELETE" = false ->
  read_only (serve_switch vols key r).
Proof.
  intros H. apply orb_false_iff in H as [HP HD]. unfold serve_switch. rewrite HP, HD.
  destruct (_ || _); [apply read_only_serve_GET | exact I].
Qed.

Lemma read_only_ServeHTTP (vols : list string) (r : Request) :
  RawQuery r <> EmptyString \/ (Method r <> "PUT" /\ Method r <> "DELETE")%string ->
  read_only (ServeHTTP vols r).
Proof.
  intros H. unfold ServeHTTP. cbv zeta.
  destruct (RawQuery r) as [|c q] eqn:HQ; cbn [String.length Nat.ltb Nat.leb].
  - destruct H as [H|[HP HD]]; [contradiction|].
    apply String.eqb_neq in HP, HD. rewrite HP, HD. cbn [orb].
    apply read_only_serve_switch. rewrite HP, HD. reflexivity.
  - destruct (negb _); [cbn; auto|]. apply read_only_ListQueryHandler.
Qed.

(** X13. A request with a query string, or whose method is neither PUT
    nor DELETE, never takes a lock, writes nothing to the store and calls
    no backend: the state is left as it was, and what the request does is
    the same whatever keys are held at the time. *)
Theorem requests_without_lock (a : App) (w : env) (r : Request) :
  RawQuery r <> EmptyString \/ (Method r <> "PUT" /\ Method r <> "DELETE")%string ->
  exists tr,
    serve a w r = (a, tr)
    /\ backend_calls tr = []
    /\ forall L : gset string,
         serve (mkApp (db a) L (volumes a)) w r = (mkApp (db a) L (volumes a), tr).
Proof.
  intros H. unfold serve. cbn [volumes].
  destruct (run_read_only w (ServeHTTP (volumes a) r) a (read_only_ServeHTTP _ _ H))
    as (u & tr & Hrun & Hcalls & Hlock).
  exists tr. rewrite Hrun. split; [reflexivity|]. split; [exact Hcalls|].
  intros L. rewrite (Hlock L). reflexivity.
Qed.

Lemma requests_without_lock_witness :
  exists tr,
    serve app_stored env_healthy (request "GET" "/a" 0) = (app_stored, tr)
    /\ backend_calls tr = []
    /\ forall L : gset string,
         serve (mkApp (db app_stored) L (volumes app_stored)) env_healthy (request "GET" "/a" 0)
         = (mkApp (db app_stored) L (volumes app_stored), tr).
Proof.
  apply (requests_without_lock app_stored env_healthy (request "GET" "/a" 0)).
  right. split; discriminate.
Defined.

(** X14. A request without query string whose method is none of GET,
    HEAD, PUT and DELETE runs no operation at all: nothing is written to
    the response (which then goes out as an empty 200) and the state is
    untouched. *)
Theorem unknown_method_no_operation (a : App) (w : env) (r : Request) :
  RawQuery r = EmptyString ->
  Method r <> "GET"%string -> Method r <> "HEAD"%string ->
  Method r <> "PUT"%string -> Method r <> "DELETE"%string ->
  serve a w r = (a, []) /\ status_of (snd (serve a w r)) = 200.
Proof.
  intros HQ HG HH HP HD.
  apply String.eqb_neq in HG, HH, HP, HD.
  assert (Hs : serve a w r = (a, [])).
  { rewrite serve_plain by (try rewrite HP, HD; auto).
    unfold serve_switch. rewrite HG, HH, HP, HD. reflexivity. }
  rewrite Hs. split; reflexivity.
Qed.

Lemma unknown_method_no_operation_witness :
  serve app_stored env_healthy (request "POST" "/a" 5) = (app_stored, [])
  /\ status_of (snd (serve app_stored env_healthy (request "POST" "/a" 5))) = 200.
Proof.
  apply (unknown_method_no_operation app_stored env_healthy (request "POST" "/a" 5));
    [reflexivity | discriminate | discriminate | discriminate | discriminate].
Defined.

(** X15. A DELETE on a free key without record, the lookup working, is
    answered 404: the store is not written, no backend is called, and the
    lock is given back. *)
Theorem delete_absent_not_found (a : App) (w : env) (r : Request) :
  Method r = "DELETE"%string ->
  RawQuery r = EmptyString ->
  string_of_bytes (bytes_of_string (Path r)) ∉ lock a ->
  db a !! bytes_of_string (Path r) = None ->
  get_fault w = false ->
  let key := bytes_of_string (Path r) in
  serve a w r
  = (a, [Ev (ELockKey key) true;
         Ev (EDbGet key) ([], Some ErrNotFound);
         Ev (EWriteHeader 404) tt;
         Ev (EUnlockKey key) tt]).
Proof.
  intros HM HQ Hfree Hv Hg key. subst key.
  rewrite serve_unlocked by auto. cbv zeta. rewrite switch_DELETE by assumption.
  unfold serve_DELETE. cbn [bind call run handle db]. rewrite Hg, Hv. cbv iota beta.
  cbn [call run handle app]. rewrite unlock_after_lock, app_eta by assumption.
  reflexivity.
Qed.

Lemma delete_absent_not_found_witness :
  serve app_empty env_healthy (request "DELETE" "/a" 0)
  = (app_empty, [Ev (ELockKey (bytes_of_string "/a")) true;
                 Ev (EDbGet (bytes_of_string "/a")) ([], Some ErrNotFound);
                 Ev (EWriteHeader 404) tt;
                 Ev (EUnlockKey (bytes_of_string "/a")) tt]).
Proof.
  apply (delete_absent_not_found app_empty env_healthy (request "DELETE" "/a" 0)).
  - reflexivity.
  - reflexivity.
  - apply not_elem_of_empty.
  - vm_compute. reflexivity.
  - reflexivity.
Defined.

(** What a create does once it holds the lock, carries a payload and
    finds no record. *)
Lemma serve_create (a : App) (w : env) (r : Request) :
  Method r = "PUT"%string ->
  RawQuery r = EmptyString ->
  ContentLength r <> 0 ->
  string_of_bytes (bytes_of_string (Path r)) ∉ lock a ->
  db a !! bytes_of_string (Path r) = None ->
  get_fault w = false ->
  let key := bytes_of_string (Path r) in
  let volume := key2volume key (volumes a) in
  let sent := Ev (EHttp "PUT" (remote_url volume key) (Some (ContentLength r)) (Body r))
                 (backend w) in
  let accepted :=
    match backend w with
    | Some (code, _) => (code =? 201) || (code =? 204)
    | None => false
    end in
  serve a w r
  = if accepted then
      if put_fault w then
        (a, [Ev (ELockKey key) true; Ev (EDbGet key) ([], Some ErrNotFound); sent;
             Ev (EDbPut key (bytes_of_string volume)) (Some ErrOther);
             Ev (EWriteHeader 500) tt; Ev (EUnlockKey key) tt])
      else
        (mkApp (<[key := bytes_of_string volume]> (db a)) (lock a) (volumes a),
         [Ev (ELockKey key) true; Ev (EDbGet key) ([], Some ErrNotFound); sent;
          Ev (EDbPut key (bytes_of_string volume)) None;
          Ev (EWriteHeader 201) tt; Ev (EUnlockKey key) tt])
    else
      (a, [Ev (ELockKey key) true; Ev (EDbGet key) ([], Some ErrNotFound); sent;
           Ev (EWriteHeader 500) tt; Ev (EUnlockKey key) tt]).
Proof.
  intros HM HQ HL Hfree Hv Hg key volume sent accepted. subst key volume sent accepted.
  rewrite serve_unlocked by auto. cbv zeta. rewrite switch_PUT by assumption.
  unfold serve_PUT. destruct (Z.eqb_spec (ContentLength r) 0) as [H0|_]; [contradiction|].
  cbn [bind call run handle db]. rewrite Hg, Hv. cbv iota beta.
  rewrite run_bind, run_remote_put.
  destruct (backend w) as [[code body]|].
  - destruct (code =? 201), (code =? 204); cbn [negb andb orb];
      cbn [bind call run handle]; destruct (put_fault w);
      cbn [call run handle app negb db lock volumes];
      rewrite unlock_after_lock by assumption; rewrite ?app_eta; reflexivity.
  - cbn [call run handle app]. rewrite unlock_after_lock, app_eta by assumption.
    reflexivity.
Qed.

(** A create answers 201 only on the one path that writes the record. *)
Lemma create_201_inv (a : App) (w : env) (r : Request) :
  Method r = "PUT"%string ->
  RawQuery r = EmptyString ->
  status_of (snd (serve a w r)) = 201 ->
  let key := bytes_of_string (Path r) in
  (string_of_bytes key ∉ lock a)
  /\ ContentLength r <> 0
  /\ db a !! key = None
  /\ get_fault w = false
  /\ serve a w r
     = (mkApp (<[key := bytes_of_string (key2volume key (volumes a))]> (db a))
          (lock a) (volumes a),
        [Ev (ELockKey key) true; Ev (EDbGet key) ([], Some ErrNotFound);
         Ev (EHttp "PUT" (remote_url (key2volume key (volumes a)) key)
               (Some (ContentLength r)) (Body r)) (backend w);
         Ev (EDbPut key (bytes_of_string (key2volume key (volumes a)))) None;
         Ev (EWriteHeader 201) tt; Ev (EUnlockKey key) tt]).
Proof.
  intros HM HQ Hst key. subst key.
  destruct (decide (string_of_bytes (bytes_of_string (Path r)) ∈ lock a)) as [Hheld|Hfree].
  { rewrite serve_locked in Hst by auto. discriminate Hst. }
  destruct (Z.eq_dec (ContentLength r) 0) as [H0|Hn0].
  { rewrite serve_unlocked in Hst by auto. cbv zeta in Hst.
    rewrite switch_PUT in Hst by assumption. unfold serve_PUT in Hst.
    rewrite H0 in Hst. discriminate Hst. }
  destruct (get_fault w) eqn:Hg.
  { rewrite serve_unlocked in Hst by auto. cbv zeta in Hst.
    rewrite switch_PUT in Hst by assumption. unfold serve_PUT in Hst.
    destruct (Z.eqb_spec (ContentLength r) 0) as [H0|_]; [contradiction|].
    cbn [bind call run handle db] in Hst. rewrite Hg in Hst. discriminate Hst. }
  destruct (db a !! bytes_of_string (Path r)) as [v|] eqn:Hv.
  { rewrite serve_unlocked in Hst by auto. cbv zeta in Hst.
    rewrite switch_PUT in Hst by assumption. unfold serve_PUT in Hst.
    destruct (Z.eqb_spec (ContentLength r) 0) as [H0|_]; [contradiction|].
    cbn [bind call run handle db] in Hst. rewrite Hg, Hv in Hst. discriminate Hst. }
  pose proof (serve_create a w r HM HQ Hn0 Hfree Hv Hg) as Hs. cbv zeta in Hs.
  split; [exact Hfree|]. split; [exact Hn0|]. split; [reflexivity|]. split; [reflexivity|].
  rewrite Hs in Hst |- *.
  destruct (match backend w with Some (code, _) => _ | None => false end);
    [destruct (put_fault w)|]; try discriminate Hst. reflexivity.
Qed.

(** X16. A create that holds the lock, carries a payload and finds no
    record sends one PUT, to the path of the key on the backend that
    [key2volume] picks from the pool.  When the backend answers 201 or
    204 and the store takes the record, the answer is 201 and the record
    maps the key to that backend; in every other case the answer is 500
    and the state is as before. *)
Theorem create_outcome (a : App) (w : env) (r : Request) :
  Method r = "PUT"%string ->
  RawQuery r = EmptyString ->
  ContentLength r <> 0 ->
  string_of_bytes (bytes_of_string (Path r)) ∉ lock a ->
  db a !! bytes_of_string (Path r) = None ->
  get_fault w = false ->
  let key := bytes_of_string (Path r) in
  let volume := key2volume key (volumes a) in
  let accepted :=
    match backend w with
    | Some (code, _) => (code =? 201) || (code =? 204)
    | None => false
    end in
  let stored := accepted && negb (put_fault w) in
  exists a' tr,
    serve a w r = (a', tr)
    /\ backend_calls tr = [("PUT", "http://" ++ volume ++ key2path key)%string]
    /\ status_of tr = (if stored then 201 else 500)
    /\ wrote_record key tr = stored
    /\ a' = (if stored
             then mkApp (<[key := bytes_of_string volume]> (db a)) (lock a) (volumes a)
             else a).
Proof.
  intros HM HQ HL Hfree Hv Hg key volume accepted stored.
  pose proof (serve_create a w r HM HQ HL Hfree Hv Hg) as Hs. cbv zeta in Hs.
  fold key in Hs. fold volume in Hs. fold accepted in Hs. subst stored.
  rewrite Hs. destruct accepted; [destruct (put_fault w)|]; cbn [andb negb];
    eexists _, _; (split; [reflexivity|]);
    cbn [backend_calls status_of wrote_record existsb put_ok orb andb];
    rewrite ?bool_decide_eq_true_2 by reflexivity; repeat split; reflexivity.
Qed.

Lemma create_outcome_witness :
  exists a' tr,
    serve app_empty env_healthy (request "PUT" "/a" 5) = (a', tr)
    /\ backend_calls tr = [("PUT", "http://localhost:3001/06/39/L2E=")%string]
    /\ status_of tr = 201
    /\ wrote_record (bytes_of_string "/a") tr = true
    /\ a' = mkApp {[ bytes_of_string "/a" := bytes_of_string "localhost:3001" ]} ∅ pool3.
Proof.
  destruct (create_outcome app_empty env_healthy (request "PUT" "/a" 5))
    as (a' & tr & Hs & Hcalls & Hst & Hw & Ha);
    [reflexivity | reflexivity | discriminate | apply not_elem_of_empty
     | vm_compute; reflexivity | reflexivity |].
  exists a', tr. split; [exact Hs|]. split; [|split; [exact Hst|split; [exact Hw|]]].
  - rewrite Hcalls. vm_compute. reflexivity.
  - rewrite Ha. vm_compute. reflexivity.
Defined.

Lemma string_of_bytes_of_string (s : string) : string_of_bytes (bytes_of_string s) = s.
Proof. apply string_of_list_byte_of_string. Qed.

(** X17. Once a create has answered 201, a GET or HEAD of the same key,
    its lookup working, is redirected to the very URL the create sent
    the blob to, and no advisory line is printed as long as the pool is
    the same. *)
Theorem create_then_fetch (a : App) (w w' : env) (r r' : Request) :
  Method r = "PUT"%string ->
  RawQuery r = EmptyString ->
  status_of (snd (serve a w r)) = 201 ->
  RawQuery r' = EmptyString ->
  (Method r' = "GET" \/ Method r' = "HEAD")%string ->
  Path r' = Path r ->
  get_fault w' = false ->
  let a1 := fst (serve a w r) in
  exists url tr',
    backend_calls (snd (serve a w r)) = [("PUT"%string, url)]
    /\ serve a1 w' r' = (a1, tr')
    /\ status_of tr' = 302
    /\ headers_of tr' !! "Location"%string = Some url
    /\ log_of tr' = [].
Proof.
  intros HM HQ Hst HQ' HM' HP Hg' a1. subst a1.
  destruct (create_201_inv a w r HM HQ Hst) as (_ & _ & _ & _ & Hs). rewrite Hs.
  cbn [fst snd backend_calls].
  eexists _, _. split; [reflexivity|].
  rewrite serve_read by assumption. cbn [volumes].
  unfold serve_GET. cbn [bind call run handle db]. rewrite Hg', HP, lookup_insert_eq.
  cbv iota beta. rewrite string_of_bytes_of_string, String.eqb_refl.
  cbn [negb bind call run handle]. split; [reflexivity|]. split; [reflexivity|].
  split; [|reflexivity].
  unfold headers_of. cbn [headers_from].
  rewrite lookup_insert_ne by discriminate. apply lookup_insert_eq.
Qed.

Lemma create_then_fetch_witness :
  let a1 := fst (serve app_empty env_healthy (request "PUT" "/a" 5)) in
  exists url tr',
    backend_calls (snd (serve app_empty env_healthy (request "PUT" "/a" 5)))
    = [("PUT"%string, url)]
    /\ serve a1 env_healthy (request "GET" "/a" 0) = (a1, tr')
    /\ status_of tr' = 302
    /\ headers_of tr' !! "Location"%string = Some url
    /\ log_of tr' = [].
Proof.
  apply (create_then_fetch app_empty env_healthy env_healthy
           (request "PUT" "/a" 5) (request "GET" "/a" 0)).
  - reflexivity.
  - reflexivity.
  - vm_compute. reflexivity.
  - reflexivity.
  - left. reflexivity.
  - reflexivity.
  - reflexivity.
Defined.

(** What a delete does once it holds the lock and finds the record. *)
Lemma serve_delete (a : App) (w : env) (r : Request) (v : list byte) :
  Method r = "DELETE"%string ->
  RawQuery r = EmptyString ->
  string_of_bytes (bytes_of_string (Path r)) ∉ lock a ->
  db a !! bytes_of_string (Path r) = Some v ->
  get_fault w = false ->
  let key := bytes_of_string (Path r) in
  let gone :=
    match backend w with
    | Some (code, _) => code =? 204
    | None => false
    end in
  serve a w r
  = (if delete_fault w then a else mkApp (delete key (db a)) (lock a) (volumes a),
     [Ev (ELockKey key) true;
      Ev (EDbGet key) (v, None);
      Ev (EDbDelete key) (if delete_fault w then Some ErrOther else None);
      Ev (EHttp "DELETE" (remote_url (string_of_bytes v) key) None []) (backend w);
      Ev (EWriteHeader (if gone then 204 else 500)) tt;
      Ev (EUnlockKey key) tt]).
Proof.
  intros HM HQ Hfree Hv Hg key gone. subst key gone.
  rewrite serve_unlocked by auto. cbv zeta. rewrite switch_DELETE by assumption.
  unfold serve_DELETE. cbn [bind call run handle db]. rewrite Hg, Hv. cbv iota beta.
  cbn [bind call run handle].
  destruct (delete_fault w); rewrite run_bind, run_remote_delete;
    (destruct (backend w) as [[c body]|]; [destruct (c =? 204)|]);
    cbn [call run handle app db lock volumes];
    rewrite unlock_after_lock by assumption; rewrite ?app_eta; reflexivity.
Qed.

(** X18. A create that answered 201, followed by a DELETE of the same
    key whose store calls work: the DELETE goes to the URL the create
    sent the blob to, it answers 204 when the backend does and 500
    otherwise, and either way the state is again what it was before the
    create. *)
Theorem create_then_delete (a : App) (w w' : env) (r r' : Request) :
  Method r = "PUT"%string ->
  RawQuery r = EmptyString ->
  status_of (snd (serve a w r)) = 201 ->
  Method r' = "DELETE"%string ->
  RawQuery r' = EmptyString ->
  Path r' = Path r ->
  get_fault w' = false ->
  delete_fault w' = false ->
  let a1 := fst (serve a w r) in
  let gone :=
    match backend w' with
    | Some (code, _) => code =? 204
    | None => false
    end in
  exists url tr',
    backend_calls (snd (serve a w r)) = [("PUT"%string, url)]
    /\ serve a1 w' r' = (a, tr')
    /\ backend_calls tr' = [("DELETE"%string, url)]
    /\ status_of tr' = (if gone then 204 else 500).
Proof.
  intros HM HQ Hst HM' HQ' HP Hg' Hd' a1 gone. subst a1 gone.
  destruct (create_201_inv a w r HM HQ Hst) as (Hfree & _ & Hv & _ & Hs). rewrite Hs.
  cbn [fst snd backend_calls].
  eexists _, _. split; [reflexivity|].
  rewrite (serve_delete _ w' r'
             (bytes_of_string (key2volume (bytes_of_string (Path r)) (volumes a)))
             HM' HQ').
  2:{ cbn [lock]. rewrite HP. exact Hfree. }
  2:{ cbn [db]. rewrite HP. apply lookup_insert_eq. }
  2:{ exact Hg'. }
  cbv zeta. rewrite Hd', HP, string_of_bytes_of_string. cbn [db lock volumes backend_calls status_of].
  rewrite delete_insert_id by exact Hv. rewrite app_eta.
  split; [reflexivity|]. split; reflexivity.
Qed.

Lemma create_then_delete_witness :
  let a1 := fst (serve app_empty env_healthy (request "PUT" "/a" 5)) in
  exists url tr',
    backend_calls (snd (serve app_empty env_healthy (request "PUT" "/a" 5)))
    = [("PUT"%string, url)]
    /\ serve a1 env_backend_down (request "DELETE" "/a" 0) = (app_empty, tr')
    /\ backend_calls tr' = [("DELETE"%string, url)]
    /\ status_of tr' = 500.
Proof.
  apply (create_then_delete app_empty env_healthy env_backend_down
           (request "PUT" "/a" 5) (request "DELETE" "/a" 0)).
  - reflexivity.
  - reflexivity.
  - vm_compute. reflexivity.
  - reflexivity.
  - reflexivity.
  - reflexivity.
  - reflexivity.
  - reflexivity.
Defined.

Ltac frame_done :=
  rewrite ?unlock_after_lock by assumption; rewrite ?app_eta;
  eexists _, _; (split; [reflexivity|]); cbn [lock volumes db];
  (split; [reflexivity|]); (split; [reflexivity|]).

(** X19. Whatever the request and whatever store and backend answer, a
    request served alone leaves the lock table and the pool as they
    were, and the store too, with two exceptions: a PUT that answers 201
    adds the record of its own key, which had none, and a DELETE that
    got past the lookup removes the record of its own key.  No request
    touches the record of another key or replaces a record. *)
Theorem serve_frame (a : App) (w : env) (r : Request) :
  let key := bytes_of_string (Path r) in
  exists a' tr,
    serve a w r = (a', tr)
    /\ lock a' = lock a
    /\ volumes a' = volumes a
    /\ (db a' = db a
        \/ (Method r = "PUT"%string /\ db a !! key = None /\ status_of tr = 201
            /\ db a' = <[key := bytes_of_string (key2volume key (volumes a))]> (db a))
        \/ (Method r = "DELETE"%string /\ db a' = delete key (db a))).
Proof.
  intros key. subst key.
  assert (Hro : RawQuery r <> EmptyString \/ (Method r <> "PUT" /\ Method r <> "DELETE")%string ->
                exists a' tr, serve a w r = (a', tr) /\ a' = a).
  { intros H. unfold serve.
    destruct (run_read_only w (ServeHTTP (volumes a) r) a (read_only_ServeHTTP _ _ H))
      as (u & tr & Hrun & _ & _).
    rewrite Hrun. eexists _, _. split; reflexivity. }
  destruct (string_dec (RawQuery r) EmptyString) as [HQ|HQ].
  2:{ destruct (Hro (or_introl HQ)) as (a' & tr & Hs & ->).
      exists a, tr. split; [exact Hs|]. repeat split; try reflexivity. left. reflexivity. }
  destruct (decide (string_of_bytes (bytes_of_string (Path r)) ∈ lock a)) as [Hheld|Hfree].
  - destruct (string_dec (Method r) "PUT") as [HP|HP];
      [|destruct (string_dec (Method r) "DELETE") as [HD|HD]].
    + rewrite serve_locked by auto. frame_done. left. reflexivity.
    + rewrite serve_locked by auto. frame_done. left. reflexivity.
    + destruct (Hro (or_intror (conj HP HD))) as (a' & tr & Hs & ->).
      exists a, tr. split; [exact Hs|]. repeat split; try reflexivity. left. reflexivity.
  - destruct (string_dec (Method r) "PUT") as [HP|HP];
      [|destruct (string_dec (Method r) "DELETE") as [HD|HD]].
    + rewrite serve_unlocked by auto. cbv zeta. rewrite switch_PUT by assumption.
      unfold serve_PUT. destruct (Z.eqb_spec (ContentLength r) 0) as [H0|Hn0].
      { cbn [call run handle app]. frame_done. left. reflexivity. }
      cbn [bind call run handle db]. destruct (get_fault w).
      { cbn [call run handle app]. frame_done. left. reflexivity. }
      destruct (db a !! bytes_of_string (Path r)) as [v|] eqn:Hv.
      { cbn [call run handle app]. frame_done. left. reflexivity. }
      cbv iota beta. rewrite run_bind, run_remote_put.
      destruct (backend w) as [[code body]|].
      * destruct (code =? 201), (code =? 204); cbn [negb andb orb];
          cbn [bind call run handle]; destruct (put_fault w);
          cbn [call run handle app negb db lock volumes]; frame_done;
          solve [ left; reflexivity
                | right; left; split; [exact HP|]; split; [reflexivity|];
                  split; reflexivity ].
      * cbn [call run handle app]. frame_done. left. reflexivity.
    + rewrite serve_unlocked by auto. cbv zeta. rewrite switch_DELETE by assumption.
      unfold serve_DELETE. cbn [bind call run handle db].
      destruct (get_fault w); [|destruct (db a !! bytes_of_string (Path r)) as [v|] eqn:Hv];
        cbv iota beta; try (cbn [call run handle app]; frame_done; left; reflexivity);
        cbn [bind call run handle]; destruct (delete_fault w);
        rewrite run_bind, run_remote_delete;
        (destruct (backend w) as [[c body]|]; [destruct (c =? 204)|]);
        cbn [call run handle app db lock volumes]; frame_done;
        solve [ left; reflexivity | right; right; split; [assumption|reflexivity] ].
    + destruct (Hro (or_intror (conj HP HD))) as (a' & tr & Hs & ->).
      exists a, tr. split; [exact Hs|]. repeat split; try reflexivity. left. reflexivity.
Qed.

(** ** Requests in flight together: locks are given back *)

Lemma releasing_bind {R S : Type} (h : gset string) (p : prog R) (f : R -> prog S) :
  lock_free p -> (forall x, releasing h (f x)) -> releasing h (bind p f).
Proof.
  induction p as [r|X e k IH]; cbn [bind lock_free releasing]; intros Hp Hf.
  - apply Hf.
  - destruct Hp as [He Hk]. intros x.
    rewrite held_step_no_lock_op by exact He. apply IH; [apply Hk|exact Hf].
Qed.

Lemma lock_free_releasing {R : Type} (p : prog R) : lock_free p -> releasing ∅ p.
Proof.
  induction p as [r|X e k IH]; cbn [lock_free releasing]; [reflexivity|].
  intros [He Hk] x. rewrite held_step_no_lock_op by exact He. apply IH, Hk.
Qed.

Lemma take_and_give_back (s : string) : ({[ s ]} ∪ ∅) ∖ {[ s ]} = (∅ : gset string).
Proof.
  apply set_eq. intros y. rewrite elem_of_difference, elem_of_union, elem_of_singleton.
  split.
  - intros [[Hy|Hy] Hne]; [contradiction | exact Hy].
  - intros Hy. exfalso. exact (not_elem_of_empty y Hy).
Qed.

(** [ServeHTTP] gives back the lock it took, on every path. *)
Lemma ServeHTTP_releasing (vols : list string) (r : Request) :
  releasing ∅ (ServeHTTP vols r).
Proof.
  unfold ServeHTTP. cbv zeta.
  destruct (0 <? String.length (RawQuery r))%nat.
  - destruct (negb _).
    + cbn. reflexivity.
    + apply lock_free_releasing, lock_free_ListQueryHandler.
  - destruct (_ || _).
    + cbn [bind call releasing]. intros [|]; cbn [negb held_step].
      * apply releasing_bind; [apply lock_free_serve_switch|].
        intros _. cbn [call releasing held_step]. intros _. apply take_and_give_back.
      * cbn. reflexivity.
    + apply lock_free_releasing, lock_free_serve_switch.
Qed.

Lemma release_inv_start (a : App) (reqs : list (env * Request)) :
  release_inv (start a reqs).
Proof.
  unfold start, release_inv. cbn [fst snd]. intros i th Hi.
  apply list_lookup_fmap_Some in Hi as (wr & -> & _).
  cbn [spawn t_trace t_code holds fold_left]. apply ServeHTTP_releasing.
Qed.

Lemma release_inv_step (c c' : App * list thread) :
  release_inv c -> cstep c c' -> release_inv c'.
Proof.
  destruct c as [a ths], c' as [a' ths']. intros Hinv [i Hstep].
  apply step_thread_inv in Hstep as (th & X & e & k & x & Hi & Hc & Hh & ->).
  unfold release_inv in *. cbn [fst snd] in *.
  intros j thj Hj. apply list_lookup_insert_Some in Hj as [(<- & <- & _)|(Hij & Hj)].
  - cbn [t_trace t_code]. rewrite holds_snoc.
    pose proof (Hinv i th Hi) as Hrel. rewrite Hc in Hrel. cbn [releasing] in Hrel.
    apply Hrel.
  - apply (Hinv j thj Hj).
Qed.

Lemma handle_volumes (w : env) (a : App) {X : Type} (e : eff X) :
  volumes (snd (handle w a e)) = volumes a.
Proof.
  destruct e; cbn [handle snd]; try reflexivity.
  - unfold LockKey. destruct (decide _); reflexivity.
  - destruct (get_fault w); [reflexivity|]. destruct (db a !! key); reflexivity.
  - destruct (put_fault w); reflexivity.
  - destruct (delete_fault w); reflexivity.
Qed.

Lemma table_inv_start (a : App) (reqs : list (env * Request)) :
  table_inv (lock a) (volumes a) (start a reqs).
Proof.
  unfold start, table_inv. cbn [fst snd]. split; [|split; [|reflexivity]].
  - intros s. split; [auto|]. intros [Hs|(i & th & Hi & Hs)]; [exact Hs|].
    apply list_lookup_fmap_Some in Hi as (wr & -> & _).
    cbn [spawn t_trace holds fold_left] in Hs. exfalso. exact (not_elem_of_empty s Hs).
  - intros i th s Hi Hs. apply list_lookup_fmap_Some in Hi as (wr & -> & _).
    cbn [spawn t_trace holds fold_left] in Hs. exfalso. exact (not_elem_of_empty s Hs).
Qed.

(** A step that leaves the lock table and the keys of its thread alone
    keeps the account of the lock table. *)
Lemma table_inv_same (L0 : gset string) (vols : list string) (a a' : App)
    (ths : list thread) (i : nat) (th th' : thread) :
  table_inv L0 vols (a, ths) ->
  ths !! i = Some th ->
  lock a' = lock a ->
  volumes a' = volumes a ->
  holds (t_trace th') = holds (t_trace th) ->
  table_inv L0 vols (a', <[i := th']> ths).
Proof.
  intros (Htab & Hout & Hvol) Hi Hlock Hvols Hholds. unfold table_inv in *.
  cbn [fst snd] in *. split; [|split; [|congruence]].
  - intros s. rewrite Hlock, Htab. split.
    + intros [Hs|(j & thj & Hj & Hs)]; [left; exact Hs|right].
      destruct (decide (i = j)) as [<-|Hij].
      * exists i, th'. split.
        -- apply list_lookup_insert_Some. left. split; [reflexivity|]. split; [reflexivity|].
           apply lookup_lt_Some in Hi. exact Hi.
        -- rewrite Hholds. congruence.
      * exists j, thj. split; [|exact Hs].
        apply list_lookup_insert_Some. right. auto.
    + intros [Hs|(j & thj & Hj & Hs)]; [left; exact Hs|right].
      apply list_lookup_insert_Some in Hj as [(<- & <- & _)|(Hij & Hj)].
      * exists i, th. split; [exact Hi|]. rewrite <- Hholds. exact Hs.
      * exists j, thj. auto.
  - intros j thj s Hj Hs.
    apply list_lookup_insert_Some in Hj as [(<- & <- & _)|(Hij & Hj)].
    + apply (Hout i th s Hi). rewrite <- Hholds. exact Hs.
    + apply (Hout j thj s Hj Hs).
Qed.

Lemma table_inv_step (L0 : gset string) (vols : list string) (c c' : App * list thread) :
  lock_inv c -> table_inv L0 vols c -> cstep c c' -> table_inv L0 vols c'.
Proof.
  destruct c as [a ths], c' as [a' ths']. intros [Hth Hdisj] Htab [i Hstep].
  apply step_thread_inv in Hstep as (th & X & e & k & x & Hi & Hc & Hh & ->).
  cbn [fst snd] in Hth, Hdisj.
  destruct (Hth i th Hi) as [Hdis Hsub]. rewrite Hc in Hdis.
  cbn [disciplined] in Hdis. destruct Hdis as [Hok _].
  pose proof (handle_volumes (t_env th) a e) as Hvols. rewrite Hh in Hvols. cbn [snd] in Hvols.
  assert (Hsame : no_lock_op e ->
            table_inv L0 vols
              (a', <[i := mkThread (t_env th) (k x) (t_trace th ++ [Ev e x])]> ths)).
  { intros He. apply (table_inv_same L0 vols a a' ths i th); auto.
    - pose proof (handle_no_lock_op (t_env th) a e He) as Hl. rewrite Hh in Hl. exact Hl.
    - cbn [t_trace]. rewrite holds_snoc. apply held_step_no_lock_op, He. }
  destruct e; try (apply Hsame; exact I).
  - (* LockKey *)
    cbn [handle] in Hh. unfold LockKey in Hh.
    destruct (decide (string_of_bytes key ∈ lock a)) as [Hin|Hnin]; injection Hh as <- <-.
    + apply (table_inv_same L0 vols a a ths i th); auto.
      cbn [t_trace]. rewrite holds_snoc. reflexivity.
    + destruct Htab as (Htab & Hout & Hvol). cbn [fst snd] in Htab, Hout, Hvol.
      unfold table_inv. cbn [fst snd lock volumes]. split; [|split; [|exact Hvol]].
      * intros s. rewrite elem_of_union, elem_of_singleton, Htab. split.
        -- intros [->|[Hs|(j & thj & Hj & Hs)]].
           ++ right. eexists i, _. split.
              ** apply list_lookup_insert_Some. left. split; [reflexivity|].
                 split; [reflexivity|]. apply lookup_lt_Some in Hi. exact Hi.
              ** cbn [t_trace]. rewrite holds_snoc. cbn [held_step].
                 apply elem_of_union_l, elem_of_singleton. reflexivity.
           ++ left. exact Hs.
           ++ right. destruct (decide (i = j)) as [<-|Hij].
              ** eexists i, _. split.
                 --- apply list_lookup_insert_Some. left. split; [reflexivity|].
                     split; [reflexivity|]. apply lookup_lt_Some in Hi. exact Hi.
                 --- cbn [t_trace]. rewrite holds_snoc. cbn [held_step].
                     apply elem_of_union_r. congruence.
              ** exists j, thj. split; [|exact Hs].
                 apply list_lookup_insert_Some. right. auto.
        -- intros [Hs|(j & thj & Hj & Hs)]; [right; left; exact Hs|].
           apply list_lookup_insert_Some in Hj as [(<- & <- & _)|(Hij & Hj)].
           ++ cbn [t_trace] in Hs. rewrite holds_snoc in Hs. cbn [held_step] in Hs.
              apply elem_of_union in Hs as [Hs|Hs].
              ** left. apply elem_of_singleton in Hs. exact Hs.
              ** right. right. exists i, th. auto.
           ++ right. right. exists j, thj. auto.
      * intros j thj s Hj Hs.
        apply list_lookup_insert_Some in Hj as [(<- & <- & _)|(Hij & Hj)].
        -- cbn [t_trace] in Hs. rewrite holds_snoc in Hs. cbn [held_step] in Hs.
           apply elem_of_union in Hs as [Hs|Hs].
           ++ apply elem_of_singleton in Hs. subst s. intros H0. apply Hnin.
              apply Htab. left. exact H0.
           ++ apply (Hout i th s Hi Hs).
        -- apply (Hout j thj s Hj Hs).
  - (* UnlockKey *)
    cbn [handle] in Hh. assert (Ha : a' = UnlockKey a key) by congruence.
    subst a'. clear Hh. cbn [lock_ok] in Hok.
    destruct Htab as (Htab & Hout & Hvol). cbn [fst snd] in Htab, Hout, Hvol.
    unfold table_inv, UnlockKey. cbn [fst snd lock volumes]. split; [|split; [|exact Hvol]].
    + intros s. rewrite elem_of_difference, elem_of_singleton, Htab. split.
      * intros [[Hs|(j & thj & Hj & Hs)] Hne]; [left; exact Hs|right].
        destruct (decide (i = j)) as [<-|Hij].
        -- eexists i, _. split.
           ++ apply list_lookup_insert_Some. left. split; [reflexivity|].
              split; [reflexivity|]. apply lookup_lt_Some in Hi. exact Hi.
           ++ cbn [t_trace]. rewrite holds_snoc. cbn [held_step].
              apply elem_of_difference. split; [congruence|].
              intros H1. apply elem_of_singleton in H1. contradiction.
        -- exists j, thj. split; [|exact Hs].
           apply list_lookup_insert_Some. right. auto.
      * intros [Hs|(j & thj & Hj & Hs)].
        -- split; [left; exact Hs|]. intros ->. exact (Hout i th _ Hi Hok Hs).
        -- apply list_lookup_insert_Some in Hj as [(<- & <- & _)|(Hij & Hj)].
           ++ cbn [t_trace] in Hs. rewrite holds_snoc in Hs. cbn [held_step] in Hs.
              apply elem_of_difference in Hs as [Hs Hne]. split.
              ** right. exists i, th. auto.
              ** intros ->. apply Hne, elem_of_singleton. reflexivity.
           ++ split; [right; exists j, thj; auto|]. intros ->.
              exact (proj1 (elem_of_disjoint _ _) (Hdisj i j th thj Hij Hi Hj) _ Hok Hs).
    + intros j thj s Hj Hs.
      apply list_lookup_insert_Some in Hj as [(<- & <- & _)|(Hij & Hj)].
      * cbn [t_trace] in Hs. rewrite holds_snoc in Hs. cbn [held_step] in Hs.
        apply elem_of_difference in Hs as [Hs _]. apply (Hout i th s Hi Hs).
      * apply (Hout j thj s Hj Hs).
Qed.

Lemma release_table_reachable (a : App) (reqs : list (env * Request))
    (c : App * list thread) :
  rtc cstep (start a reqs) c ->
  lock_inv c /\ release_inv c /\ table_inv (lock a) (volumes a) c.
Proof.
  intros Hrtc.
  assert (H0 : lock_inv (start a reqs) /\ release_inv (start a reqs)
               /\ table_inv (lock a) (volumes a) (start a reqs)).
  { split; [apply lock_inv_start|]. split; [apply release_inv_start|apply table_inv_start]. }
  generalize dependent H0. generalize (lock a) (volumes a). intros L0 vols H0.
  induction Hrtc as [c|c1 c2 c3 Hstep _ IH]; [exact H0|].
  apply IH. destruct H0 as (Hl & Hr & Ht). split; [|split].
  - exact (lock_inv_step _ _ Hl Hstep).
  - exact (release_inv_step _ _ Hr Hstep).
  - exact (table_inv_step _ _ _ _ Hl Ht Hstep).
Qed.

(** X20. However the steps of the requests in flight interleave and
    whatever store and backends answer: a request that has finished
    holds no lock; the lock table always consists of the keys it held at
    the start and the keys held by the requests still running; so once
    all requests have finished the lock table is again what it was at
    the start.  The pool never changes. *)
Theorem locks_given_back (a : App) (reqs : list (env * Request)) (c : App * list thread) :
  rtc cstep (start a reqs) c ->
  (forall i th, snd c !! i = Some th -> finished th = true -> holds (t_trace th) = ∅)
  /\ (forall s, s ∈ lock (fst c) <->
                s ∈ lock a
                \/ exists i th, snd c !! i = Some th /\ finished th = false
                                /\ s ∈ holds (t_trace th))
  /\ ((forall i th, snd c !! i = Some th -> finished th = true) -> lock (fst c) = lock a)
  /\ volumes (fst c) = volumes a.
Proof.
  intros Hrtc.
  destruct (release_table_reachable a reqs c Hrtc) as (_ & Hrel & Htab & _ & Hvol).
  assert (Hdone : forall i th, snd c !! i = Some th -> finished th = true ->
                    holds (t_trace th) = ∅).
  { intros i th Hi Hfin. pose proof (Hrel i th Hi) as Hr. unfold finished in Hfin.
    destruct (t_code th) as [u|X e k]; [exact Hr|discriminate Hfin]. }
  assert (Hacc : forall s, s ∈ lock (fst c) <->
            s ∈ lock a
            \/ exists i th, snd c !! i = Some th /\ finished th = false
                            /\ s ∈ holds (t_trace th)).
  { intros s. rewrite Htab. split.
    - intros [Hs|(i & th & Hi & Hs)]; [left; exact Hs|right].
      exists i, th. split; [exact Hi|]. split; [|exact Hs].
      destruct (finished th) eqn:Hfin; [|reflexivity].
      rewrite (Hdone i th Hi Hfin) in Hs. exfalso. exact (not_elem_of_empty s Hs).
    - intros [Hs|(i & th & Hi & _ & Hs)]; [left; exact Hs|right]. exists i, th. auto. }
  split; [exact Hdone|]. split; [exact Hacc|]. split; [|exact Hvol].
  intros Hall. apply set_eq. intros s. rewrite Hacc. split; [|auto].
  intros [Hs|(i & th & Hi & Hfin & _)]; [exact Hs|].
  rewrite (Hall i th Hi) in Hfin. discriminate Hfin.
Qed.

Lemma locks_given_back_witness :
  match run_schedule sched_overlap (two_creates env_healthy env_healthy) with
  | Some c => lock (fst c) = lock app_empty /\ volumes (fst c) = volumes app_empty
  | None => False
  end.
Proof.
  pose proof two_creates_overlap as Hout.
  destruct (run_schedule sched_overlap (two_creates env_healthy env_healthy))
    as [c|] eqn:Hrun; [|discriminate Hout].
  cbn [option_map] in Hout. injection Hout as Hout.
  destruct (locks_given_back app_empty
              [(env_healthy, request "PUT" "/a" 5); (env_healthy, request "PUT" "/a" 5)] c
              (run_schedule_reachable _ _ _ Hrun)) as (_ & _ & Hall & Hvol).
  split; [|exact Hvol]. apply Hall. intros i th Hi.
  unfold outcomes in Hout. destruct c as [a ths]. cbn [snd] in *.
  destruct ths as [|t1 [|t2 [|t3 ths]]]; try discriminate Hout.
  cbn [map] in Hout. injection Hout as Hf1 _ Hf2 _.
  destruct i as [|[|i]]; cbn in Hi; [| |discriminate Hi]; injection Hi as <-; assumption.
Defined.

(** ** Requests in flight together: writes under the lock *)

Lemma writes_guarded_snoc (tr : list event) (ev : event) : forall h : gset string,
  writes_guarded h tr ->
  write_guarded (fold_left held_step tr h) ev ->
  writes_guarded h (tr ++ [ev]).
Proof.
  induction tr as [|ev0 tr IH]; intros h; cbn [writes_guarded app fold_left].
  - intros _ Hev. split; [exact Hev|exact I].
  - intros [H0 Htr] Hev. split; [exact H0|]. apply IH; assumption.
Qed.

Ltac guarded_tac :=
  repeat first
    [ exact I
    | assumption
    | progress cbn [guarded write_guarded held_step bind call]
    | split
    | match goal with
      | |- forall _, _ => intros ?
      | |- guarded _ (match ?x with _ => _ end) => destruct x
      | |- guarded _ (if ?b then _ else _) => destruct b
      | |- guarded _ (bind (match ?x with _ => _ end) _) => destruct x
      | |- guarded _ (bind (if ?b then _ else _) _) => destruct b
      | |- guarded _ (bind (bind (if ?b then _ else _) _) _) => destruct b
      | |- guarded _ (bind (bind (match ?x with _ => _ end) _) _) => destruct x
      end ].

(** Under the lock of its key the switch writes only the record of that
    key, and then the lock is given back. *)
Lemma guarded_switch_locked (vols : list string) (key : list byte) (r : Request)
    (h : gset string) :
  string_of_bytes key ∈ h ->
  guarded h (bind (serve_switch vols key r) (fun _ => call (EUnlockKey key))).
Proof.
  intros Hk. unfold serve_switch, serve_GET, serve_PUT, serve_DELETE, remote_put, remote_delete.
  guarded_tac.
Qed.

(** Without the lock the switch is entered only by methods that do not
    write. *)
Lemma guarded_switch_unlocked (vols : list string) (key : list byte) (r : Request)
    (h : gset string) :
  String.eqb (Method r) "PUT" || String.eqb (Method r) "DELETE" = false ->
  guarded h (serve_switch vols key r).
Proof.
  intros H. apply orb_false_iff in H as [HP HD]. unfold serve_switch. rewrite HP, HD.
  unfold serve_GET. guarded_tac.
Qed.

Lemma guarded_ServeHTTP (vols : list string) (r : Request) :
  guarded ∅ (ServeHTTP vols r).
Proof.
  unfold ServeHTTP. cbv zeta.
  destruct (0 <? String.length (RawQuery r))%nat.
  - unfold ListQueryHandler. guarded_tac.
  - destruct (_ || _) eqn:HM.
    + cbn [bind call guarded write_guarded]. intros [|]; cbn [negb held_step].
      * split; [exact I|]. apply guarded_switch_locked.
        apply elem_of_union_l, elem_of_singleton. reflexivity.
      * guarded_tac.
    + apply guarded_switch_unlocked, HM.
Qed.

Lemma guard_inv_start (a : App) (reqs : list (env * Request)) : guard_inv (start a reqs).
Proof.
  unfold start, guard_inv. cbn [fst snd]. intros i th Hi.
  apply list_lookup_fmap_Some in Hi as (wr & -> & _).
  cbn [spawn t_trace t_code holds fold_left writes_guarded].
  split; [exact I|apply guarded_ServeHTTP].
Qed.

Lemma guard_inv_step (c c' : App * list thread) :
  guard_inv c -> cstep c c' -> guard_inv c'.
Proof.
  destruct c as [a ths], c' as [a' ths']. intros Hinv [i Hstep].
  apply step_thread_inv in Hstep as (th & X & e & k & x & Hi & Hc & Hh & ->).
  unfold guard_inv in *. cbn [fst snd] in *.
  intros j thj Hj. apply list_lookup_insert_Some in Hj as [(<- & <- & _)|(Hij & Hj)].
  - cbn [t_trace t_code]. rewrite holds_snoc.
    destruct (Hinv i th Hi) as [Htr Hcode]. rewrite Hc in Hcode. cbn [guarded] in Hcode.
    destruct (Hcode x) as [Hev Hk]. split; [|exact Hk].
    apply writes_guarded_snoc; [exact Htr|exact Hev].
  - apply (Hinv j thj Hj).
Qed.

(** X21. However the steps of the requests in flight interleave and
    whatever store and backends answer, every write to the store, a put
    or a delete of a record, is made by a request that holds the lock of
    that key at that moment; and no other request holds that lock
    then. *)
Theorem writes_under_lock (a : App) (reqs : list (env * Request)) (c : App * list thread) :
  rtc cstep (start a reqs) c ->
  forall i th, snd c !! i = Some th ->
    writes_guarded ∅ (t_trace th)
    /\ forall j thj, i <> j -> snd c !! j = Some thj ->
         holds (t_trace th) ## holds (t_trace thj).
Proof.
  intros Hrtc i th Hi. split.
  - assert (Hg : guard_inv c).
    { pose proof (guard_inv_start a reqs) as H0.
      induction Hrtc as [c|c1 c2 c3 Hstep _ IH]; [exact H0|].
      apply IH; [exact Hi|]. exact (guard_inv_step _ _ H0 Hstep). }
    apply (Hg i th Hi).
  - intros j thj Hij Hj. destruct (lock_inv_reachable a reqs c Hrtc) as [_ Hdisj].
    exact (Hdisj i j th thj Hij Hi Hj).
Qed.

Lemma writes_under_lock_witness :
  match run_schedule sched_overlap (two_creates env_healthy env_healthy) with
  | Some (_, [th1; th2]) =>
      writes_guarded ∅ (t_trace th1) /\ wrote_record (bytes_of_string "/a") (t_trace th1) = true
  | _ => False
  end.
Proof.
  destruct (run_schedule sched_overlap (two_creates env_healthy env_healthy))
    as [[a ths]|] eqn:Hrun; [|vm_compute in Hrun; discriminate Hrun].
  pose proof (writes_under_lock app_empty
                [(env_healthy, request "PUT" "/a" 5); (env_healthy, request "PUT" "/a" 5)]
                (a, ths) (run_schedule_reachable _ _ _ Hrun)) as H.
  vm_compute in Hrun. injection Hrun as <- <-.
  split; [exact (proj1 (H 0%nat _ eq_refl))|]. vm_compute. reflexivity.
Defined.

(** ** The status line *)

Lemma answers_run {R : Type} (codes : list Z) (w : env) (p : prog R) : forall b a,
  answers codes b p ->
  let tr := snd (run w p a) in
  (b = true -> header_writes tr = [] /\ forall h, headers_all tr h = h)
  /\ (b = false ->
      (forall h, headers_from tr h = headers_all tr h)
      /\ ((header_writes tr = [] /\ status_of tr = 200)
          \/ exists c, header_writes tr = [c] /\ In c codes /\ status_of tr = c)).
Proof.
  induction p as [r|X e k IH]; intros b a; cbn [answers run].
  - intros _. cbn. split; [auto|]. intros _. split; [auto|]. left. auto.
  - intros [He Hk]. destruct (handle w a e) as [x a'].
    specialize (IH x (b || is_status e) a' (Hk x)).
    destruct (run w (k x) a') as [[r a''] tr]. cbn [snd] in *.
    destruct IH as [IHt IHf].
    destruct e;
      cbn [header_ok is_status header_writes status_of headers_from headers_all] in *;
      rewrite ?orb_false_r, ?orb_true_r in IHt, IHf; try (split; assumption).
    + (* a header is set *)
      subst b. split; [discriminate|]. intros _. destruct (IHf eq_refl) as [Hh Hst].
      split; [intros h; apply Hh | exact Hst].
    + (* the status line is written *)
      destruct He as [-> Hin]. split; [discriminate|]. intros _.
      destruct (IHt eq_refl) as [Hw Hh]. split; [intros h; symmetry; apply Hh|].
      right. exists code. rewrite Hw. auto.
    + (* the body is written *)
      subst b. split; [|discriminate]. intros _. apply IHt. reflexivity.
Qed.

Lemma answers_bind {R S : Type} (codes : list Z) (p : prog R) (f : R -> prog S) :
  forall b, answers codes b p -> (forall b' x, answers codes b' (f x)) ->
            answers codes b (bind p f).
Proof.
  induction p as [r|X e k IH]; cbn [bind answers]; intros b Hp Hf.
  - apply Hf.
  - destruct Hp as [He Hk]. split; [exact He|]. intros x. apply IH; [apply Hk|exact Hf].
Qed.

Ltac answers_tac :=
  repeat first
    [ exact I
    | reflexivity
    | solve [ unfold switch_codes, status_codes; cbn [In];
              repeat first [ left; reflexivity | right ] ]
    | progress cbn [answers header_ok is_status orb bind call]
    | split
    | match goal with
      | |- forall _, _ => intros ?
      | |- answers _ _ (match ?x with _ => _ end) => destruct x
      | |- answers _ _ (if ?b then _ else _) => destruct b
      | |- answers _ _ (bind (match ?x with _ => _ end) _) => destruct x
      | |- answers _ _ (bind (if ?b then _ else _) _) => destruct b
      | |- answers _ _ (bind (bind (if ?b then _ else _) _) _) => destruct b
      | |- answers _ _ (bind (bind (match ?x with _ => _ end) _) _) => destruct x
      end ].

Lemma answers_serve_switch (vols : list string) (key : list byte) (r : Request) :
  answers switch_codes false (serve_switch vols key r).
Proof.
  unfold serve_switch, serve_GET, serve_PUT, serve_DELETE, remote_put, remote_delete.
  answers_tac.
Qed.

Lemma answers_switch_unlock (vols : list string) (key : list byte) (r : Request) :
  answers switch_codes false
    (bind (serve_switch vols key r) (fun _ => call (EUnlockKey key))).
Proof.
  apply answers_bind; [apply answers_serve_switch|]. intros b' x. cbn. auto.
Qed.





(** X23. A PUT or DELETE without query string is answered 409 exactly
    when the lock of its key is held; the conflict is then the whole
    answer, and nothing is read, written or sent to a backend. *)
Theorem conflict_iff_held (a : App) (w : env) (r : Request) :
  RawQuery r = EmptyString ->
  (Method r = "PUT" \/ Method r = "DELETE")%string ->
  let key := bytes_of_string (Path r) in
  (status_of (snd (serve a w r)) = 409 <-> string_of_bytes key ∈ lock a)
  /\ (string_of_bytes key ∈ lock a ->
      serve a w r = (a, [Ev (ELockKey key) false; Ev (EWriteHeader 409) tt])).
Proof.
  intros HQ HM key. subst key. split; [|apply serve_locked; assumption].
  split.
  - intros Hst.
    destruct (decide (string_of_bytes (bytes_of_string (Path r)) ∈ lock a)) as [Hheld|Hfree];
      [exact Hheld|exfalso].
    unfold serve, ServeHTTP in Hst. rewrite HQ in Hst. cbn [String.length Nat.ltb Nat.leb] in Hst.
    assert (HM' : (String.eqb (Method r) "PUT" || String.eqb (Method r) "DELETE") = true)
      by (destruct HM as [-> | ->]; reflexivity).
    rewrite HM' in Hst. cbn [bind call run handle] in Hst. unfold LockKey in Hst.
    rewrite decide_False in Hst by assumption. cbn [negb] in Hst.
    match type of Hst with
    | context [run w ?p ?a1] =>
        pose proof (answers_run switch_codes w p false a1
                      (answers_switch_unlock _ _ _)) as H;
        destruct (run w p a1) as [[u a2] tr]
    end.
    cbn [snd status_of] in *. destruct H as [_ H].
    destruct (H eq_refl) as [_ [[_ H2]|(c & _ & Hin & H2)]].
    + rewrite H2 in Hst. discriminate Hst.
    + rewrite H2 in Hst. subst c. unfold switch_codes in Hin. cbn [In] in Hin.
      repeat (destruct Hin as [Hin|Hin]; [discriminate Hin|]). exact Hin.
  - intros Hheld. rewrite serve_locked by assumption. reflexivity.
Qed.

Lemma conflict_iff_held_witness :
  (status_of (snd (serve app_locked env_healthy (request "DELETE" "/a" 0))) = 409
   <-> string_of_bytes (bytes_of_string "/a") ∈ lock app_locked)
  /\ (string_of_bytes (bytes_of_string "/a") ∈ lock app_locked ->
      serve app_locked env_healthy (request "DELETE" "/a" 0)
      = (app_locked, [Ev (ELockKey (bytes_of_string "/a")) false; Ev (EWriteHeader 409) tt])).
Proof.
  apply (conflict_iff_held app_locked env_healthy (request "DELETE" "/a" 0)).
  - reflexivity.
  - right. reflexivity.
Defined.
